(** * Rubik-solver: the move algebra, the connector search and the
      four-phase reduction of [utilities.py] and [Kube.py]

    The development has two layers.

    - The _matrix layer_ follows the Python source line by line: a move is
      four numpy matrices and a list of tokens, composition is the matrix
      product, the state is a 68x1 column.  Every entry the program ever
      stores is 0 or 1, so the float64 matrices are modelled by matrices of
      integers, exactly.
    - The _permutation layer_ ([Module Perm]) stores the same information
      as index lists.  It is used to run the searches and is tied to the
      matrix layer by refinement lemmas.

    The connector searches recurse once per depth and keep every candidate
    they build; [Module Limits] repeats them with the two limits of the
    interpreter (nested calls, memory) made explicit. *)

From Stdlib Require Import Ascii String List Arith ZArith Lia Bool Finite Permutation.
Import ListNotations.

(** ** Exceptions and the error monad *)

Inductive exn : Type :=
| ValueError
| IndexError
| KeyError
| TypeError
| UnboundLocalError.

Inductive res (A : Type) : Type :=
| Ok (a : A)
| Err (e : exn).
Arguments Ok {A} a.
Arguments Err {A} e.

Definition bind {A B : Type} (c : res A) (k : A -> res B) : res B :=
  match c with
  | Ok a => k a
  | Err e => Err e
  end.

Definition fmap {A B : Type} (f : A -> B) (c : res A) : res B :=
  bind c (fun a => Ok (f a)).

Declare Scope res_scope.
Delimit Scope res_scope with res.
Notation "x <- c ;; k" := (bind c (fun x => k))
  (at level 61, c at next level, right associativity) : res_scope.
Notation "' p <- c ;; k" := (bind c (fun x => match x with p => k end))
  (at level 61, p pattern, c at next level, right associativity) : res_scope.

(** ** numpy matrices *)

Module Matrix.

Local Open Scope Z_scope.

(** Row-major; an [n]x1 column is a list of [n] one-element rows. *)
Definition matrix : Type := list (list Z).

Definition nrows (A : matrix) : nat := length A.
Definition ncols (A : matrix) : nat := length (hd [] A).

(** [np.eye(n)], [np.identity(n)] *)
Definition eye (n : nat) : matrix :=
  map (fun i => map (fun j => if Nat.eqb i j then 1 else 0) (seq 0 n)) (seq 0 n).

(** [np.zeros([r, c])] *)
Definition zeros (r c : nat) : matrix := repeat (repeat 0 c) r.

Definition get (A : matrix) (i j : nat) : Z := nth j (nth i A []) 0.

Fixpoint upd {X : Type} (l : list X) (i : nat) (x : X) : list X :=
  match l, i with
  | [], _ => []
  | _ :: t, O => x :: t
  | h :: t, S i' => h :: upd t i' x
  end.

(** [A[i, j] = v].  The program only writes inside the matrix; the source
    raises [IndexError] elsewhere, the model leaves the matrix as it is. *)
Definition set (A : matrix) (i j : nat) (v : Z) : matrix :=
  upd A i (upd (nth i A []) j v).

Definition col (j : nat) (B : matrix) : list Z := map (fun r => nth j r 0) B.

Fixpoint dot (u v : list Z) : Z :=
  match u, v with
  | a :: u', b :: v' => a * b + dot u' v'
  | _, _ => 0
  end.

(** [A * B] on [np.matrix]: the matrix product.  numpy raises
    [ValueError] when the width of [A] is not the height of [B]; the model
    has no such check and is exact on operands that conform, as are all
    the products of the program on well-formed moves and 68x1 states. *)
Definition mmul (A B : matrix) : matrix :=
  map (fun r => map (fun j => dot r (col j B)) (seq 0 (ncols B))) A.

(** [np.transpose(A)] *)
Definition transpose (A : matrix) : matrix :=
  map (fun j => col j A) (seq 0 (ncols A)).

(** Every matrix a move holds has a single 1 in each row and each column
    and 0 elsewhere.  On such a matrix [numpy.linalg.inv] (LU factorisation
    with partial pivoting: the factors are a permutation and two identity
    matrices, no rounding occurs) returns the transpose; lemma
    [minv_correct] below shows that the transpose is the two-sided inverse
    there.  The model of [A ** (-1)] is that transpose. *)
Definition minv (A : matrix) : matrix := transpose A.

(** [numpy.matrix_power] for a positive exponent [S k]:
    [result = M; for _ in range(k): result = dot(result, M)].
    (For exponents above 3 numpy regroups the same product by squaring.) *)
Fixpoint mpow_pos (A : matrix) (k : nat) : matrix :=
  match k with
  | O => A
  | S k' => mmul (mpow_pos A k') A
  end.

(** [A ** expo] on [np.matrix]. *)
Definition mpow (A : matrix) (expo : Z) : matrix :=
  if expo =? 0 then eye (nrows A)
  else if expo <? 0 then mpow_pos (minv A) (Z.to_nat (- expo) - 1)
  else mpow_pos A (Z.to_nat expo - 1).

(** [scipy.linalg.block_diag(A, B)] *)
Definition block_diag (A B : matrix) : matrix :=
  map (fun r => r ++ repeat 0 (ncols B)) A ++
  map (fun r => repeat 0 (ncols A) ++ r) B.

Fixpoint splice (r : list Z) (c : nat) (b : list Z) : list Z :=
  match c, r with
  | O, _ => b ++ skipn (length b) r
  | S c', x :: r' => x :: splice r' c' b
  | S _, [] => []
  end.

(** [A[r0 : r0+h, c0 : c0+w] = Blk] where [Blk] is [h]x[w]. *)
Fixpoint set_block (A : matrix) (r0 c0 : nat) (Blk : matrix) : matrix :=
  match r0, A with
  | S r0', row :: A' => row :: set_block A' r0' c0 Blk
  | S _, [] => []
  | O, _ =>
      (fix go (A : matrix) (Blk : matrix) : matrix :=
         match Blk, A with
         | b :: Blk', row :: A' => splice row c0 b :: go A' Blk'
         | _, _ => A
         end) A Blk
  end.

(** [np.transpose(np.matrix(np.array(l)))]: a list as a column. *)
Definition column (l : list Z) : matrix := map (fun x => [x]) l.

(** [range(n)] as integers *)
Definition range (n : nat) : list Z := map Z.of_nat (seq 0 n).

(** [Y[a:b]] on a column *)
Definition rows (Y : matrix) (a b : nat) : matrix := firstn (b - a) (skipn a Y).

End Matrix.

Import Matrix.

(** ** utilities.py *)

Module Utilities.

Local Open Scope Z_scope.
Local Open Scope res_scope.

(** *** Tokens: Python strings, [str.upper] and [str.lower] on ASCII *)

Definition token : Type := string.

Definition upper_char (c : ascii) : ascii :=
  let n := nat_of_ascii c in
  if (Nat.leb 97 n && Nat.leb n 122)%bool then ascii_of_nat (n - 32) else c.

Definition lower_char (c : ascii) : ascii :=
  let n := nat_of_ascii c in
  if (Nat.leb 65 n && Nat.leb n 90)%bool then ascii_of_nat (n + 32) else c.

Fixpoint upper (s : string) : string :=
  match s with
  | EmptyString => EmptyString
  | String c s' => String (upper_char c) (upper s')
  end.

Fixpoint lower (s : string) : string :=
  match s with
  | EmptyString => EmptyString
  | String c s' => String (lower_char c) (lower s')
  end.

(** *** [T(N, i, j)]: the transposition matrix *)

Definition T (N i j : nat) : matrix :=
  set (set (set (set (eye N) i i 0) j j 0) i j 1) j i 1.

(** *** [class move] *)

(** The attributes [A8], [S3], [A12], [S2] and [decompo]; [self.M] is
    assigned once by [make_M] at the end of [__init__] from the other
    four and is the function [M] below. *)
Record move : Type := mkmove {
  A8 : matrix;
  S3 : matrix;
  A12 : matrix;
  S2 : matrix;
  decompo : list token
}.

(** [make_M] *)
Definition M (self : move) : matrix :=
  block_diag (block_diag (block_diag (A8 self) (A12 self)) (S3 self)) (S2 self).

(** [move(M8 = .., M3 = .., M12 = .., M2 = .., seq = ..)] *)
Definition move_of_matrices (M8 M3 M12 M2 : matrix) (seq : list token) : move :=
  mkmove M8 M3 M12 M2 seq.

(** [move(seq = ..)]: both [else] branches of [__init__]. *)
Definition move_of_seq (seq : list token) : move :=
  mkmove (eye 8) (eye (3 * 8)) (eye 12) (eye (2 * 12)) seq.

(** The entry of row [i] of a column, [int(y[i])]. *)
Definition cell (y : matrix) (i : nat) : Z := get y i 0.

(** The orientation blocks: [s = [eye(k) for i in range(n)]], then
    [s[p[i]] = gen ** tw[i]] for [i in range(len(tw))]. *)
Fixpoint twist_blocks (gen : matrix) (p : list nat) (i : nat) (tw : list Z)
    (s : list matrix) : list matrix :=
  match tw with
  | [] => s
  | t :: tw' => twist_blocks gen p (S i) tw' (upd s (nth i p O) (mpow gen t))
  end.

(** [S = zeros([k*n, k*n])], then
    [S[k*i : k*i+k, k*int(y[i]) : k*int(y[i])+k] = s[i]] for [i in range(n)]. *)
Fixpoint place_blocks (k : nat) (y : matrix) (s : list matrix) (idx : list nat)
    (S : matrix) : matrix :=
  match idx with
  | [] => S
  | i :: idx' =>
      place_blocks k y s idx'
        (set_block S (k * i) (k * Z.to_nat (cell y i)) (nth i s []))
  end.

(** [move(P8 = .., P3 = .., P12 = .., P2 = .., seq = ..)].  The lists are
    the constant tables of [Kube.py]: four slots and four exponents. *)
Definition move_of_cycles (P8 : list nat) (P3 : list Z) (P12 : list nat)
    (P2 : list Z) (seq : list token) : move :=
  let p n i := nth i n O in
  let a8 := mmul (mmul (T 8 (p P8 0%nat) (p P8 3%nat)) (T 8 (p P8 0%nat) (p P8 2%nat)))
                 (T 8 (p P8 0%nat) (p P8 1%nat)) in
  let s3 := twist_blocks (mmul (T 3 0 2) (T 3 0 1)) P8 0 P3 (repeat (eye 3) 8) in
  let y8 := mmul a8 (column (range 8)) in
  let s3m := place_blocks 3 y8 s3 (List.seq 0%nat 8) (zeros (3 * 8) (3 * 8)) in
  let a12 := mmul (mmul (T 12 (p P12 0%nat) (p P12 3%nat)) (T 12 (p P12 0%nat) (p P12 2%nat)))
                  (T 12 (p P12 0%nat) (p P12 1%nat)) in
  let s2 := twist_blocks (T 2 0 1) P12 0 P2 (repeat (eye 2) 12) in
  let y12 := mmul a12 (column (range 12)) in
  let s2m := place_blocks 2 y12 s2 (List.seq 0%nat 12) (zeros (2 * 12) (2 * 12)) in
  mkmove a8 s3m a12 s2m seq.

(** The inner loop of [__pow__] for [expo == -1]: walk [decompo] from its
    last token to its first and swap the case of each. *)
Definition flip_token (A : token) : token :=
  if String.eqb A (upper A) then lower A else upper A.

Definition inverse_seq (d : list token) : list token := map flip_token (rev d).

(** [s = s + self.decompo] for [i in range(expo)] *)
Fixpoint repeat_seq (d : list token) (n : nat) : list token :=
  match n with
  | O => []
  | S n' => repeat_seq d n' ++ d
  end.

(** The body of [__pow__] once the guard [expo > -2] has passed. *)
Definition pow_body (self : move) (expo : Z) : move :=
  if expo =? 0 then move_of_seq []
  else
    let s := if expo =? -1 then inverse_seq (decompo self)
             else repeat_seq (decompo self) (Z.to_nat expo) in
    move_of_matrices (mpow (A8 self) expo) (mpow (S3 self) expo)
                     (mpow (A12 self) expo) (mpow (S2 self) expo) s.

(** [__pow__]: [isinstance(expo, int)] is the type of [expo]. *)
Definition pow (self : move) (expo : Z) : res move :=
  if expo >? -2 then Ok (pow_body self expo) else Err ValueError.

(** [__mul__] *)
Definition mul (self other : move) : move :=
  move_of_matrices (mmul (A8 self) (A8 other)) (mmul (S3 self) (S3 other))
                   (mmul (A12 self) (A12 other)) (mmul (S2 self) (S2 other))
                   (decompo other ++ decompo self).

Declare Scope move_scope.
Delimit Scope move_scope with move.
Bind Scope move_scope with move.
Infix "*" := mul : move_scope.
(** Inside the program every exponent is one of the literals -1, 2, 3: the
    guard of [__pow__] passes (lemma [pow_guard_passes]) and the result is
    [pow_body]. *)
Notation "m ** k" := (pow_body m k) (at level 30, right associativity) : move_scope.
Local Open Scope move_scope.

(** [conjugate(A, G)]: [G*A*G**(-1)] *)
Definition conjugate (A G : move) : move := G * A * G ** (-1).

(** [commutator(A, B)]: [B**(-1)*A**(-1)*B*A] *)
Definition commutator (A B : move) : move := B ** (-1) * A ** (-1) * B * A.

(** *** The connector searches [send_8], [send_8_slow], [send_12],
        [send_12_slow] *)

(** [y[cl] == cb] used as a truth value: [y] is a column, [y[cl]] is a
    1x1 matrix ([IndexError] past the last row).  The model is exact on
    matrices of one column, the only ones the program compares.  (On a row
    of several entries the truth value of the comparison raises
    [ValueError]; a row without entry, which never occurs, is treated
    alike here, where numpy takes it as false.) *)
Definition row_eq (y : matrix) (cl : nat) (cb : Z) : res bool :=
  match nth_error y cl with
  | None => Err IndexError
  | Some [v] => Ok (v =? cb)
  | Some _ => Err ValueError
  end.

(** [a and b], [a or b]: the right operand is evaluated only if needed. *)
Definition andr (a b : res bool) : res bool :=
  x <- a ;; if x then b else Ok false.
Definition orr (a b : res bool) : res bool :=
  x <- a ;; if x then Ok true else b.

(** [float(cb) in y[(cl+1):]] *)
Definition in_rows_after (y : matrix) (cl : nat) (cb : Z) : bool :=
  existsb (fun r => existsb (fun v => v =? cb) r) (skipn (cl + 1) y).

Fixpoint last_error {X : Type} (l : list X) : option X :=
  match l with
  | [] => None
  | [x] => Some x
  | _ :: t => last_error t
  end.

(** The condition under [not] in the search loops, on [m.decompo[0]] and
    [g.decompo[-1]]; both are always evaluated ([IndexError] on an empty
    token list). *)
Definition cancels (m g : move) : res bool :=
  match decompo m with
  | [] => Err IndexError
  | m0 :: _ =>
      match last_error (decompo g) with
      | None => Err IndexError
      | Some gl =>
          Ok ((String.eqb (upper m0) m0 && String.eqb gl (lower m0))
              || (String.eqb (lower m0) m0 && String.eqb gl (upper m0))
              || String.eqb m0 gl)%bool
      end
  end.

(** [for g in prev: ...], the elements appended to [cur] for one [m]. *)
Fixpoint extend (n_combi : nat) (m : move) (prev : list move) : res (list move) :=
  match prev with
  | [] => Ok []
  | g :: prev' =>
      x <- (if Nat.eqb n_combi 1 then Ok [m * g]
            else c <- cancels m g ;; Ok (if c then [] else [m * g])) ;;
      rest <- extend n_combi m prev' ;;
      Ok (x ++ rest)
  end.

(** [for m in fact: for g in prev: ...], the list [cur]. *)
Fixpoint candidates (n_combi : nat) (fact prev : list move) : res (list move) :=
  match fact with
  | [] => Ok []
  | m :: fact' =>
      a <- extend n_combi m prev ;;
      b <- candidates n_combi fact' prev ;;
      Ok (a ++ b)
  end.

(** [for m in cur: if test(m): return m] *)
Fixpoint first_accepted (accept : move -> res bool) (cur : list move)
    : res (option move) :=
  match cur with
  | [] => Ok None
  | m :: cur' =>
      t <- accept m ;;
      if t then Ok (Some m) else first_accepted accept cur'
  end.

(** [m.decompo != []] *)
Definition has_tokens (m : move) : bool :=
  match decompo m with
  | [] => false
  | _ :: _ => true
  end.

(** The four functions share their body and differ in the acceptance
    test.  [left] is [maxMove + 1 - n_combi], the number of depths that
    remain: the guard [n_combi > maxMove] of the source is [left = 0]
    (lemma [search_unfold] gives the recursive equation of the source).
    The source recurses once per depth and keeps the candidates of every
    depth; what the interpreter does when the stack or the memory runs out
    is in [Limits.search_within]. *)
Section ConnectorSearch.

Variable accept : move -> res bool.
Variable auth : list move.

Fixpoint search (left : nat) (n_combi : nat) (prev : list move)
    : res (option move) :=
  match left with
  | O => Ok None
  | S left' =>
      let fact := if Nat.eqb n_combi 1 then move_of_seq [] :: auth else auth in
      cur <- candidates n_combi fact prev ;;
      hit <- first_accepted accept cur ;;
      match hit with
      | Some m => Ok (Some m)
      | None => search left' (n_combi + 1) (filter has_tokens cur)
      end
  end.

End ConnectorSearch.

(** The default of [prev]: [[move(seq = [])]] *)
Definition prev0 : list move := [move_of_seq []].

Definition accept_8 (cb1 cb2 : Z) (cl1 cl2 : nat) (m : move) : res bool :=
  let y := mmul (A8 m) (column (range 8)) in
  orr (andr (row_eq y cl1 cb1) (row_eq y cl2 cb2))
      (andr (row_eq y cl1 cb2) (row_eq y cl2 cb1)).

Definition accept_8_slow (cb1 cb2 : Z) (cl1 cl2 : nat) (m : move) : res bool :=
  let y := mmul (A8 m) (column (range 8)) in
  andr (row_eq y cl1 cb1) (row_eq y cl2 cb2).

Definition accept_12 (cb1 cb2 cb3 : Z) (cl1 cl2 : nat) (m : move) : res bool :=
  let y := mmul (A12 m) (column (range 12)) in
  andr (andr (row_eq y cl1 cb1) (row_eq y cl2 cb2))
       (Ok (in_rows_after y cl1 cb3)).

Definition accept_12_slow (cb1 cb2 : Z) (cl1 cl2 : nat) (m : move) : res bool :=
  let y := mmul (A12 m) (column (range 12)) in
  andr (row_eq y cl1 cb1) (row_eq y cl2 cb2).

Definition send_8 (cb1 cb2 : Z) (cl1 cl2 : nat) (auth : list move)
    (maxMove n_combi : nat) (prev : list move) : res (option move) :=
  search (accept_8 cb1 cb2 cl1 cl2) auth (maxMove + 1 - n_combi) n_combi prev.

Definition send_8_slow (cb1 cb2 : Z) (cl1 cl2 : nat) (auth : list move)
    (maxMove n_combi : nat) (prev : list move) : res (option move) :=
  search (accept_8_slow cb1 cb2 cl1 cl2) auth (maxMove + 1 - n_combi) n_combi prev.

Definition send_12 (cb1 cb2 cb3 : Z) (cl1 cl2 : nat) (auth : list move)
    (maxMove n_combi : nat) (prev : list move) : res (option move) :=
  search (accept_12 cb1 cb2 cb3 cl1 cl2) auth (maxMove + 1 - n_combi) n_combi prev.

Definition send_12_slow (cb1 cb2 : Z) (cl1 cl2 : nat) (auth : list move)
    (maxMove n_combi : nat) (prev : list move) : res (option move) :=
  search (accept_12_slow cb1 cb2 cl1 cl2) auth (maxMove + 1 - n_combi) n_combi prev.

(** *** The four phases *)

(** [for i in l: st = body(st, i)] with exceptions *)
Fixpoint for_each {St : Type} (l : list nat) (body : St -> nat -> res St)
    (st : St) : res St :=
  match l with
  | [] => Ok st
  | i :: l' => st' <- body st i ;; for_each l' body st'
  end.

(** [[k for k in range(i+1, len(y)) if int(y[k]) == i][0]] *)
Definition find_label (y : matrix) (i : nat) : res nat :=
  match filter (fun k => cell y k =? Z.of_nat i)
               (seq (i + 1) (length y - (i + 1))) with
  | [] => Err IndexError
  | j :: _ => Ok j
  end.

(** [conjugate(A, G)] where [G] comes from a search: on [None] the product
    [G*A] raises [TypeError]. *)
Definition conjugate_found (A : move) (G : option move) : res move :=
  match G with
  | Some g => Ok (conjugate A g)
  | None => Err TypeError
  end.

Definition solve_corner_pos (Y : matrix) (switcher : move) (c1 c2 : Z)
    (auth : list move) : res move :=
  st <- for_each (seq 0 8)
          (fun '(res, y) i =>
             e <- row_eq y i (Z.of_nat i) ;;
             if e then Ok (res, y)
             else
               j <- find_label y i ;;
               G <- send_8 c1 c2 i j auth 5 1 prev0 ;;
               next_move <- conjugate_found switcher G ;;
               Ok (next_move * res, mmul (A8 next_move) y))
          (move_of_seq [], Y) ;;
  Ok (fst st).

Definition pivot_corner_cubies (Y : matrix) (flipper : move) (c2 : Z)
    (auth : list move) : res move :=
  st <- for_each (seq 1 7)
          (fun '(res, y) i =>
             e2 <- row_eq y (3 * i) 2 ;;
             if e2 then
               G <- send_8_slow 0 c2 0 i auth 5 1 prev0 ;;
               next_move <- conjugate_found flipper G ;;
               Ok (next_move * res, mmul (S3 next_move) y)
             else
               e1 <- row_eq y (3 * i) 1 ;;
               if e1 then
                 G <- send_8_slow 0 c2 0 i auth 5 1 prev0 ;;
                 c <- conjugate_found flipper G ;;
                 let next_move := c ** 2 in
                 Ok (next_move * res, mmul (S3 next_move) y)
               else Ok (res, y))
          (move_of_seq [], Y) ;;
  Ok (fst st).

(** [for k in range(len(c_l)): G = send_12(..); if G != None: next_move =
    conjugate(switcher_l[k], G); break].  The result is the value of the
    local variable [next_move] after the loop: unchanged when no search
    succeeds. *)
Fixpoint try_switchers (switcher_l : list move) (c_l : list (Z * Z * Z))
    (k : nat) (i j : nat) (auth : list move) (next_move : option move)
    : res (option move) :=
  match c_l with
  | [] => Ok next_move
  | (cb1, cb2, cb3) :: c_l' =>
      G <- send_12 cb1 cb2 cb3 i j auth 3 1 prev0 ;;
      match G with
      | Some g =>
          match nth_error switcher_l k with
          | Some s => Ok (Some (conjugate s g))
          | None => Err IndexError
          end
      | None => try_switchers switcher_l c_l' (S k) i j auth next_move
      end
  end.

(** The loop state carries the local variable [next_move] ([None] while it
    is unbound). *)
Definition solve_edge_pos (Y : matrix) (switcher_l : list move)
    (c_l : list (Z * Z * Z)) (auth : list move) : res move :=
  st <- for_each (seq 0 10)
          (fun '(res, y, next_move) i =>
             e <- row_eq y i (Z.of_nat i) ;;
             if e then Ok (res, y, next_move)
             else
               j <- find_label y i ;;
               nm <- try_switchers switcher_l c_l 0 i j auth next_move ;;
               match nm with
               | None => Err UnboundLocalError
               | Some next_move =>
                   Ok (next_move * res, mmul (A12 next_move) y, Some next_move)
               end)
          (move_of_seq [], Y, None) ;;
  Ok (fst (fst st)).

Definition pivot_edge_cubies (Y : matrix) (flipper : move) (c2 : Z)
    (auth : list move) : res move :=
  st <- for_each (seq 1 11)
          (fun '(res, y) i =>
             e <- row_eq y (2 * i) 0 ;;
             if e then Ok (res, y)
             else
               G <- send_12_slow 0 c2 0 i auth 3 1 prev0 ;;
               next_move <- conjugate_found flipper G ;;
               Ok (next_move * res, mmul (S2 next_move) y))
          (move_of_seq [], Y) ;;
  Ok (fst st).

End Utilities.

Import Utilities.
Local Open Scope move_scope.

(** ** Kube.py: the fundamental moves and the constants built from them *)

Module Kube.

Local Open Scope string_scope.

Definition F : move :=
  move_of_cycles [0;2;6;4]%nat [1;2;1;2]%Z [4;1;6;9]%nat [1;1;1;1]%Z ["F"].
Definition f : move := F ** (-1).
Definition R : move :=
  move_of_cycles [4;6;7;5]%nat [1;2;1;2]%Z [8;9;11;10]%nat [0;0;0;0]%Z ["R"].
Definition r : move := R ** (-1).
Definition U : move :=
  move_of_cycles [6;2;3;7]%nat [0;0;0;0]%Z [6;3;7;11]%nat [0;0;0;0]%Z ["U"].
Definition u : move := U ** (-1).
Definition B : move :=
  move_of_cycles [1;5;7;3]%nat [2;1;2;1]%Z [7;2;5;10]%nat [1;1;1;1]%Z ["B"].
Definition b : move := B ** (-1).
Definition L : move :=
  move_of_cycles [0;1;3;2]%nat [2;1;2;1]%Z [0;2;3;1]%nat [0;0;0;0]%Z ["L"].
Definition l : move := L ** (-1).
Definition D : move :=
  move_of_cycles [0;4;5;1]%nat [0;0;0;0]%Z [0;4;8;5]%nat [0;0;0;0]%Z ["D"].
Definition d : move := D ** (-1).

(** The dictionary [fund]; [None] is the [KeyError] of [fund[a]]. *)
Definition fund (a : token) : option move :=
  if String.eqb a "F" then Some F
  else if String.eqb a "f" then Some f
  else if String.eqb a "R" then Some R
  else if String.eqb a "r" then Some r
  else if String.eqb a "U" then Some U
  else if String.eqb a "u" then Some u
  else if String.eqb a "B" then Some B
  else if String.eqb a "b" then Some b
  else if String.eqb a "L" then Some L
  else if String.eqb a "l" then Some l
  else if String.eqb a "D" then Some D
  else if String.eqb a "d" then Some d
  else None.

(** enlarged list of fundamental moves *)
Definition fund_l : list move :=
  [F; F ** 2; f; R; R ** 2; r; U; U ** 2; u; B; B ** 2; b; L; L ** 2; l; D;
   D ** 2; d].

(** moves that have special useful behaviors *)
Definition M0 : move := (F * commutator U L) ** 3.
Definition M1 : move := (f * L) ** 3 * (F * l) ** 3.
Definition M20 : move := U ** 2 * F * b * L ** 2 * f * B.
Definition M21 : move := B ** 2 * R * l * U ** 2 * r * L.
Definition M22 : move := U ** 2 * R * l * F ** 2 * r * L.
Definition M23 : move := B ** 2 * D * u * R ** 2 * d * U.
Definition M30 : move :=
  l * R * F * l * R * D * l * R * B * B * r * L * D * r * L * F * r * L * U * U.
Definition M31 : move :=
  b * F * D * b * F * R * b * F * U * U * f * B * R * f * B * D * f * B * L * L.

Local Open Scope res_scope.

(** [X]: the solved configuration as a 68x1 column *)
Definition X : matrix :=
  column (range 8 ++ range 12 ++ concat (repeat (range 3) 8)
          ++ concat (repeat (range 2) 12)).

(** [for a in actions: M = fund[a]*M] *)
Fixpoint replay (actions : list token) (M : move) : res move :=
  match actions with
  | [] => Ok M
  | a :: actions' =>
      match fund a with
      | Some g => replay actions' (g * M)
      | None => Err KeyError
      end
  end.

Definition move_list_to_state (actions : list token) : res matrix :=
  m <- replay actions (move_of_seq []) ;;
  Ok (mmul (M m) X).

Definition solve (state : matrix) : res (list token) :=
  let Y := state in
  let Y1 := rows Y 0 8 in
  res1 <- solve_corner_pos Y1 M0 1 3 fund_l ;;
  let Y := mmul (M res1) Y in
  let Y2 := rows Y (8 + 12) (4 * 8 + 12) in
  res2 <- pivot_corner_cubies Y2 M1 2 fund_l ;;
  let Y := mmul (M res2) Y in
  let Y3 := rows Y 8 (8 + 12) in
  res3 <- solve_edge_pos Y3 [M20; M21; M22; M23]
            [(0, 3, 11); (5, 6, 7); (4, 6, 7); (2, 9, 10)]%Z fund_l ;;
  let Y := mmul (M res3) Y in
  let Y4 := skipn (4 * 8 + 12) Y in
  res4 <- pivot_edge_cubies Y4 M31 3 fund_l ;;
  let res := res4 * res3 * res2 * res1 in
  Ok (decompo res).

End Kube.

(** ** The permutation layer

    A matrix with a single 1 in every row is the list of the columns of
    those 1s.  The layer mirrors the operations of the matrix layer on such
    lists; [embed] maps it back.  It exists to evaluate the searches. *)

Module Perm.

Local Open Scope nat_scope.
Local Open Scope res_scope.

Definition perm : Type := list nat.

Definition idp (n : nat) : perm := seq 0 n.

(** The list of the product [A * B]: row [i] of [A * B] is row [a[i]] of [B]. *)
Definition pmul (a b : perm) : perm := map (fun k => nth k b 0) a.

Fixpoint index_of (x : nat) (l : list nat) : nat :=
  match l with
  | [] => 0
  | y :: l' => if x =? y then 0 else S (index_of x l')
  end.

(** The list of the transpose. *)
Definition pinv (a : perm) : perm := map (fun k => index_of k a) (seq 0 (length a)).

Fixpoint ppow_pos (a : perm) (k : nat) : perm :=
  match k with
  | O => a
  | S k' => pmul (ppow_pos a k') a
  end.

Definition ppow (a : perm) (expo : Z) : perm :=
  if (expo =? 0)%Z then idp (length a)
  else if (expo <? 0)%Z then ppow_pos (pinv a) (Z.to_nat (- expo) - 1)
  else ppow_pos a (Z.to_nat expo - 1).

Definition unit_row (n k : nat) : list Z :=
  map (fun j => if k =? j then 1%Z else 0%Z) (seq 0 n).

(** The [length p] x [n] matrix whose row [i] has its 1 in column [p[i]]. *)
Definition pm (n : nat) (p : perm) : matrix := map (unit_row n) p.

Fixpoint row_index (r : list Z) : nat :=
  match r with
  | [] => 0
  | x :: r' => if (x =? 1)%Z then 0 else S (row_index r')
  end.

Definition unpm (A : matrix) : perm := map row_index A.

Fixpoint nodupb (l : list nat) : bool :=
  match l with
  | [] => true
  | x :: l' => negb (existsb (Nat.eqb x) l') && nodupb l'
  end.

(** [p] is a permutation of [0 .. n-1]. *)
Definition is_perm (n : nat) (p : perm) : bool :=
  (length p =? n) && forallb (fun k => k <? n) p && nodupb p.

Fixpoint list_eqb {X : Type} (eqb : X -> X -> bool) (l1 l2 : list X) : bool :=
  match l1, l2 with
  | [], [] => true
  | x :: l1', y :: l2' => eqb x y && list_eqb eqb l1' l2'
  | _, _ => false
  end.

(** [A] is an [n]x[n] permutation matrix: 0/1 entries, a single 1 in every
    row and every column. *)
Definition is_perm_matrix (n : nat) (A : matrix) : bool :=
  list_eqb (list_eqb Z.eqb) A (pm n (unpm A)) && is_perm n (unpm A).

Record cmove : Type := mkcmove {
  c8 : perm;
  c24 : perm;
  e12 : perm;
  e24 : perm;
  toks : list token
}.

Definition embed (c : cmove) : move :=
  mkmove (pm 8 (c8 c)) (pm 24 (c24 c)) (pm 12 (e12 c)) (pm 24 (e24 c)) (toks c).

Definition abstract (m : move) : cmove :=
  mkcmove (unpm (A8 m)) (unpm (S3 m)) (unpm (A12 m)) (unpm (S2 m)) (decompo m).

Definition cwf (c : cmove) : bool :=
  is_perm 8 (c8 c) && is_perm 24 (c24 c) && is_perm 12 (e12 c) && is_perm 24 (e24 c).

Definition cone (seq : list token) : cmove :=
  mkcmove (idp 8) (idp 24) (idp 12) (idp 24) seq.

Definition cmul (self other : cmove) : cmove :=
  mkcmove (pmul (c8 self) (c8 other)) (pmul (c24 self) (c24 other))
          (pmul (e12 self) (e12 other)) (pmul (e24 self) (e24 other))
          (toks other ++ toks self).

Definition cpow_body (self : cmove) (expo : Z) : cmove :=
  if (expo =? 0)%Z then cone []
  else
    let s := if (expo =? -1)%Z then inverse_seq (toks self)
             else repeat_seq (toks self) (Z.to_nat expo) in
    mkcmove (ppow (c8 self) expo) (ppow (c24 self) expo)
            (ppow (e12 self) expo) (ppow (e24 self) expo) s.

Definition cconjugate (A G : cmove) : cmove :=
  cmul (cmul G A) (cpow_body G (-1)).

Definition crow_eq (y : list nat) (cl : nat) (cb : Z) : res bool :=
  match nth_error y cl with
  | None => Err IndexError
  | Some v => Ok (Z.of_nat v =? cb)%Z
  end.

Definition ccancels (m g : cmove) : res bool :=
  match toks m with
  | [] => Err IndexError
  | m0 :: _ =>
      match last_error (toks g) with
      | None => Err IndexError
      | Some gl =>
          Ok ((String.eqb (upper m0) m0 && String.eqb gl (lower m0))
              || (String.eqb (lower m0) m0 && String.eqb gl (upper m0))
              || String.eqb m0 gl)%bool
      end
  end.

Fixpoint cextend (n_combi : nat) (m : cmove) (prev : list cmove) : res (list cmove) :=
  match prev with
  | [] => Ok []
  | g :: prev' =>
      x <- (if n_combi =? 1 then Ok [cmul m g]
            else c <- ccancels m g ;; Ok (if c then [] else [cmul m g])) ;;
      rest <- cextend n_combi m prev' ;;
      Ok (x ++ rest)
  end.

Fixpoint ccandidates (n_combi : nat) (fact prev : list cmove) : res (list cmove) :=
  match fact with
  | [] => Ok []
  | m :: fact' =>
      a <- cextend n_combi m prev ;;
      b <- ccandidates n_combi fact' prev ;;
      Ok (a ++ b)
  end.

Fixpoint cfirst_accepted (accept : cmove -> res bool) (cur : list cmove)
    : res (option cmove) :=
  match cur with
  | [] => Ok None
  | m :: cur' =>
      t <- accept m ;;
      if t then Ok (Some m) else cfirst_accepted accept cur'
  end.

Definition chas_tokens (m : cmove) : bool :=
  match toks m with
  | [] => false
  | _ :: _ => true
  end.

Fixpoint csearch (accept : cmove -> res bool) (auth : list cmove)
    (left : nat) (n_combi : nat) (prev : list cmove) : res (option cmove) :=
  match left with
  | O => Ok None
  | S left' =>
      let fact := if n_combi =? 1 then cone [] :: auth else auth in
      cur <- ccandidates n_combi fact prev ;;
      hit <- cfirst_accepted accept cur ;;
      match hit with
      | Some m => Ok (Some m)
      | None => csearch accept auth left' (n_combi + 1) (filter chas_tokens cur)
      end
  end.

Definition caccept_8 (cb1 cb2 : Z) (cl1 cl2 : nat) (m : cmove) : res bool :=
  let y := c8 m in
  orr (andr (crow_eq y cl1 cb1) (crow_eq y cl2 cb2))
      (andr (crow_eq y cl1 cb2) (crow_eq y cl2 cb1)).

Definition caccept_8_slow (cb1 cb2 : Z) (cl1 cl2 : nat) (m : cmove) : res bool :=
  let y := c8 m in
  andr (crow_eq y cl1 cb1) (crow_eq y cl2 cb2).

Definition caccept_12 (cb1 cb2 cb3 : Z) (cl1 cl2 : nat) (m : cmove) : res bool :=
  let y := e12 m in
  andr (andr (crow_eq y cl1 cb1) (crow_eq y cl2 cb2))
       (Ok (existsb (fun v => (Z.of_nat v =? cb3)%Z) (skipn (cl1 + 1) y))).

Definition caccept_12_slow (cb1 cb2 : Z) (cl1 cl2 : nat) (m : cmove) : res bool :=
  let y := e12 m in
  andr (crow_eq y cl1 cb1) (crow_eq y cl2 cb2).

End Perm.

Import Perm.

(** ** The searches, the phases and [solve] on the permutation layer

    The functions below are the ones of [utilities.py] and [Kube.py] with
    index lists for the matrices and lists of numbers for the columns; the
    refinement lemmas of [Module Refine] relate them to the matrix layer. *)

Module Fast.

Local Open Scope nat_scope.
Local Open Scope res_scope.

Definition cprev0 : list cmove := [cone []].

Definition csend_8 (cb1 cb2 : Z) (cl1 cl2 : nat) (auth : list cmove)
    (maxMove n_combi : nat) (prev : list cmove) : res (option cmove) :=
  csearch (caccept_8 cb1 cb2 cl1 cl2) auth (maxMove + 1 - n_combi) n_combi prev.

Definition csend_8_slow (cb1 cb2 : Z) (cl1 cl2 : nat) (auth : list cmove)
    (maxMove n_combi : nat) (prev : list cmove) : res (option cmove) :=
  csearch (caccept_8_slow cb1 cb2 cl1 cl2) auth (maxMove + 1 - n_combi) n_combi prev.

Definition csend_12 (cb1 cb2 cb3 : Z) (cl1 cl2 : nat) (auth : list cmove)
    (maxMove n_combi : nat) (prev : list cmove) : res (option cmove) :=
  csearch (caccept_12 cb1 cb2 cb3 cl1 cl2) auth (maxMove + 1 - n_combi) n_combi prev.

Definition csend_12_slow (cb1 cb2 : Z) (cl1 cl2 : nat) (auth : list cmove)
    (maxMove n_combi : nat) (prev : list cmove) : res (option cmove) :=
  csearch (caccept_12_slow cb1 cb2 cl1 cl2) auth (maxMove + 1 - n_combi) n_combi prev.

Definition cfind_label (y : list nat) (i : nat) : res nat :=
  match filter (fun k => nth k y 0 =? i) (seq (i + 1) (length y - (i + 1))) with
  | [] => Err IndexError
  | j :: _ => Ok j
  end.

Definition cconjugate_found (A : cmove) (G : option cmove) : res cmove :=
  match G with
  | Some g => Ok (cconjugate A g)
  | None => Err TypeError
  end.

(** The column [A * y] for the matrix of the index list [a]. *)
Definition act (a : perm) (y : list nat) : list nat := map (fun k => nth k y 0) a.

Definition corner_pos_body (switcher : cmove) (c1 c2 : Z) (auth : list cmove)
    (st : cmove * list nat) (i : nat) : res (cmove * list nat) :=
  let '(res, y) := st in
  e <- crow_eq y i (Z.of_nat i) ;;
  if e then Ok (res, y)
  else
    j <- cfind_label y i ;;
    G <- csend_8 c1 c2 i j auth 5 1 cprev0 ;;
    next_move <- cconjugate_found switcher G ;;
    Ok (cmul next_move res, act (c8 next_move) y).

Definition csolve_corner_pos (Y : list nat) (switcher : cmove) (c1 c2 : Z)
    (auth : list cmove) : res cmove :=
  st <- for_each (seq 0 8) (corner_pos_body switcher c1 c2 auth) (cone [], Y) ;;
  Ok (fst st).

Definition corner_ori_body (flipper : cmove) (c2 : Z) (auth : list cmove)
    (st : cmove * list nat) (i : nat) : res (cmove * list nat) :=
  let '(res, y) := st in
  e2 <- crow_eq y (3 * i) 2 ;;
  if e2 then
    G <- csend_8_slow 0 c2 0 i auth 5 1 cprev0 ;;
    next_move <- cconjugate_found flipper G ;;
    Ok (cmul next_move res, act (c24 next_move) y)
  else
    e1 <- crow_eq y (3 * i) 1 ;;
    if e1 then
      G <- csend_8_slow 0 c2 0 i auth 5 1 cprev0 ;;
      c <- cconjugate_found flipper G ;;
      let next_move := cpow_body c 2 in
      Ok (cmul next_move res, act (c24 next_move) y)
    else Ok (res, y).

Definition cpivot_corner_cubies (Y : list nat) (flipper : cmove) (c2 : Z)
    (auth : list cmove) : res cmove :=
  st <- for_each (seq 1 7) (corner_ori_body flipper c2 auth) (cone [], Y) ;;
  Ok (fst st).

Fixpoint ctry_switchers (switcher_l : list cmove) (c_l : list (Z * Z * Z))
    (k : nat) (i j : nat) (auth : list cmove) (next_move : option cmove)
    : res (option cmove) :=
  match c_l with
  | [] => Ok next_move
  | (cb1, cb2, cb3) :: c_l' =>
      G <- csend_12 cb1 cb2 cb3 i j auth 3 1 cprev0 ;;
      match G with
      | Some g =>
          match nth_error switcher_l k with
          | Some s => Ok (Some (cconjugate s g))
          | None => Err IndexError
          end
      | None => ctry_switchers switcher_l c_l' (S k) i j auth next_move
      end
  end.

Definition edge_pos_body (switcher_l : list cmove) (c_l : list (Z * Z * Z))
    (auth : list cmove) (st : cmove * list nat * option cmove) (i : nat)
    : res (cmove * list nat * option cmove) :=
  let '(res, y, next_move) := st in
  e <- crow_eq y i (Z.of_nat i) ;;
  if e then Ok (res, y, next_move)
  else
    j <- cfind_label y i ;;
    nm <- ctry_switchers switcher_l c_l 0 i j auth next_move ;;
    match nm with
    | None => Err UnboundLocalError
    | Some next_move =>
        Ok (cmul next_move res, act (e12 next_move) y, Some next_move)
    end.

Definition csolve_edge_pos (Y : list nat) (switcher_l : list cmove)
    (c_l : list (Z * Z * Z)) (auth : list cmove) : res cmove :=
  st <- for_each (seq 0 10) (edge_pos_body switcher_l c_l auth) (cone [], Y, None) ;;
  Ok (fst (fst st)).

Definition edge_ori_body (flipper : cmove) (c2 : Z) (auth : list cmove)
    (st : cmove * list nat) (i : nat) : res (cmove * list nat) :=
  let '(res, y) := st in
  e <- crow_eq y (2 * i) 0 ;;
  if e then Ok (res, y)
  else
    G <- csend_12_slow 0 c2 0 i auth 3 1 cprev0 ;;
    next_move <- cconjugate_found flipper G ;;
    Ok (cmul next_move res, act (e24 next_move) y).

Definition cpivot_edge_cubies (Y : list nat) (flipper : cmove) (c2 : Z)
    (auth : list cmove) : res cmove :=
  st <- for_each (seq 1 11) (edge_ori_body flipper c2 auth) (cone [], Y) ;;
  Ok (fst st).

(** The index list of [M]: the four blocks side by side. *)
Definition cM (c : cmove) : perm :=
  c8 c ++ map (fun k => 8 + k) (e12 c) ++ map (fun k => 20 + k) (c24 c)
  ++ map (fun k => 44 + k) (e24 c).

(** The entries of [X]. *)
Definition cX : list nat :=
  seq 0 8 ++ seq 0 12 ++ concat (repeat (seq 0 3) 8) ++ concat (repeat (seq 0 2) 12).

(** The fundamental moves and the constants of [Kube.py] as index lists,
    read off the matrices. *)
Definition cF : cmove := Eval vm_compute in abstract Kube.F.
Definition cf : cmove := Eval vm_compute in abstract Kube.f.
Definition cR : cmove := Eval vm_compute in abstract Kube.R.
Definition cr : cmove := Eval vm_compute in abstract Kube.r.
Definition cU : cmove := Eval vm_compute in abstract Kube.U.
Definition cu : cmove := Eval vm_compute in abstract Kube.u.
Definition cB : cmove := Eval vm_compute in abstract Kube.B.
Definition cb : cmove := Eval vm_compute in abstract Kube.b.
Definition cL : cmove := Eval vm_compute in abstract Kube.L.
Definition cl : cmove := Eval vm_compute in abstract Kube.l.
Definition cD : cmove := Eval vm_compute in abstract Kube.D.
Definition cd : cmove := Eval vm_compute in abstract Kube.d.

Definition cfund (a : token) : option cmove :=
  if String.eqb a "F" then Some cF
  else if String.eqb a "f" then Some cf
  else if String.eqb a "R" then Some cR
  else if String.eqb a "r" then Some cr
  else if String.eqb a "U" then Some cU
  else if String.eqb a "u" then Some cu
  else if String.eqb a "B" then Some cB
  else if String.eqb a "b" then Some cb
  else if String.eqb a "L" then Some cL
  else if String.eqb a "l" then Some cl
  else if String.eqb a "D" then Some cD
  else if String.eqb a "d" then Some cd
  else None.

Definition cfund_l : list cmove := Eval vm_compute in map abstract Kube.fund_l.
Definition cM0 : cmove := Eval vm_compute in abstract Kube.M0.
Definition cM1 : cmove := Eval vm_compute in abstract Kube.M1.
Definition cM20 : cmove := Eval vm_compute in abstract Kube.M20.
Definition cM21 : cmove := Eval vm_compute in abstract Kube.M21.
Definition cM22 : cmove := Eval vm_compute in abstract Kube.M22.
Definition cM23 : cmove := Eval vm_compute in abstract Kube.M23.
Definition cM31 : cmove := Eval vm_compute in abstract Kube.M31.

Fixpoint creplay (actions : list token) (M : cmove) : res cmove :=
  match actions with
  | [] => Ok M
  | a :: actions' =>
      match cfund a with
      | Some g => creplay actions' (cmul g M)
      | None => Err KeyError
      end
  end.

Definition csolve (state : list nat) : res (list token) :=
  let Y := state in
  let Y1 := firstn (8 - 0) (skipn 0 Y) in
  res1 <- csolve_corner_pos Y1 cM0 1 3 cfund_l ;;
  let Y := act (cM res1) Y in
  let Y2 := firstn (4 * 8 + 12 - (8 + 12)) (skipn (8 + 12) Y) in
  res2 <- cpivot_corner_cubies Y2 cM1 2 cfund_l ;;
  let Y := act (cM res2) Y in
  let Y3 := firstn (8 + 12 - 8) (skipn 8 Y) in
  res3 <- csolve_edge_pos Y3 [cM20; cM21; cM22; cM23]
            [(0, 3, 11); (5, 6, 7); (4, 6, 7); (2, 9, 10)]%Z cfund_l ;;
  let Y := act (cM res3) Y in
  let Y4 := skipn (4 * 8 + 12) Y in
  res4 <- cpivot_edge_cubies Y4 cM31 3 cfund_l ;;
  let res := cmul (cmul (cmul res4 res3) res2) res1 in
  Ok (toks res).

End Fast.

Import Fast.

(** ** The invariants of the cube group *)

Module Group.

Local Open Scope nat_scope.

(** The twist of block [k] of an orientation list with blocks of width [w]. *)
Definition tw (w : nat) (q : perm) (k : nat) : nat := nth (w * k) q 0 mod w.

(** [q] is made of [n] blocks of width [w]: block [k] goes to block [p[k]]
    and is shifted cyclically by its twist. *)
Definition blockb (w n : nat) (p q : perm) : bool :=
  forallb (fun k =>
    forallb (fun r => nth (w * k + r) q 0 =? w * nth k p 0 + (r + tw w q k) mod w)
            (seq 0 w))
    (seq 0 n).

Definition twsum (w n : nat) (q : perm) : nat :=
  list_sum (map (tw w q) (seq 0 n)) mod w.

Definition count_lt (x : nat) (l : list nat) : nat :=
  length (filter (fun y => y <? x) l).

(** The parity of the number of inversions. *)
Fixpoint parity (l : list nat) : bool :=
  match l with
  | [] => false
  | x :: r => xorb (Nat.odd (count_lt x r)) (parity r)
  end.

(** What every reachable configuration satisfies. *)
Definition invb (g : cmove) : bool :=
  cwf g && blockb 3 8 (c8 g) (c24 g) && blockb 2 12 (e12 g) (e24 g)
  && (twsum 3 8 (c24 g) =? 0) && (twsum 2 12 (e24 g) =? 0)
  && Bool.eqb (parity (c8 g)) (parity (e12 g)).

(** Swap the entries at positions [i] and [i + 1]. *)
Fixpoint aswap (i : nat) (y : list nat) : list nat :=
  match i, y with
  | O, a :: b :: r => b :: a :: r
  | S i', a :: r => a :: aswap i' r
  | _, _ => y
  end.

Definition apply_word (w : list nat) (y : list nat) : list nat :=
  fold_left (fun acc i => aswap i acc) w y.

(** One pass of bubble sort on [a :: r] from position [pos]: the positions
    swapped and the list after the pass. *)
Fixpoint bubble_pass (pos : nat) (a : nat) (r : list nat) : list nat * list nat :=
  match r with
  | [] => ([], [a])
  | b :: r' =>
      if b <? a then
        let '(t, l) := bubble_pass (S pos) a r' in (pos :: t, b :: l)
      else
        let '(t, l) := bubble_pass (S pos) b r' in (t, a :: l)
  end.

Fixpoint bubble (fuel : nat) (l : list nat) : list nat :=
  match fuel, l with
  | S fuel', a :: r => let '(t, l') := bubble_pass 0 a r in t ++ bubble fuel' l'
  | _, _ => []
  end.

(** A word of adjacent swaps that turns the identity list into [p]. *)
Definition word_of (p : perm) : list nat := rev (bubble (length p) p).

(** The corner and the edge permutation of a quarter turn are odd. *)
Definition odd_word (n : nat) (p : perm) : bool :=
  Nat.odd (length (word_of p)) && forallb (fun i => i + 1 <? n) (word_of p).

(** The checks on a fundamental move that the step lemma needs. *)
Definition fund_check (f : cmove) : bool :=
  cwf f && blockb 3 8 (c8 f) (c24 f) && blockb 2 12 (e12 f) (e24 f)
  && (twsum 3 8 (c24 f) =? 0) && (twsum 2 12 (e24 f) =? 0).

End Group.
Import Group.

(** ** Checked tables of the searches the phases make *)

Module Tables.

Local Open Scope nat_scope.

Definition cstate (g : cmove) : list nat := act (cM g) cX.

Definition cmove_eqb (a b : cmove) : bool :=
  list_eqb Nat.eqb (c8 a) (c8 b) && list_eqb Nat.eqb (c24 a) (c24 b)
  && list_eqb Nat.eqb (e12 a) (e12 b) && list_eqb Nat.eqb (e24 a) (e24 b)
  && list_eqb String.eqb (toks a) (toks b).

(** Replaying the tokens of [c] gives [c]. *)
Definition crtb (c : cmove) : bool :=
  match creplay (toks c) (cone []) with
  | Ok c' => cmove_eqb c c'
  | Err _ => false
  end.

(** The list [p] sends [j] to [i] and fixes what is before [i]. *)
Definition brings (p : perm) (i j : nat) : bool :=
  (nth i p 0 =? j) && forallb (fun k => nth k p 0 =? k) (seq 0 i).

Definition is_id (n : nat) (p : perm) : bool := list_eqb Nat.eqb p (idp n).

(** Phase 1: the move applied for the defect [(i, j)]. *)
Definition tab1 (i j : nat) : bool :=
  match csend_8 1 3 i j cfund_l 5 1 cprev0 with
  | Ok (Some g) =>
      let n := cconjugate cM0 g in
      cwf n && crtb n && brings (c8 n) i j
  | _ => false
  end.

(** The twists of [q] are [v] at block [i] and 0 at the other blocks
    after the first. *)
Definition twists_at (w n : nat) (q : perm) (i v : nat) : bool :=
  forallb (fun k => tw w q k =? (if k =? i then v else 0)) (seq 1 (n - 1)).

(** Phase 2: the move applied at slot [i], and its square. *)
Definition tab2 (i : nat) : bool :=
  match csend_8_slow 0 2 0 i cfund_l 5 1 cprev0 with
  | Ok (Some g) =>
      let n := cconjugate cM1 g in
      let n2 := cpow_body n 2 in
      cwf n && crtb n && is_id 8 (c8 n) && blockb 3 8 (c8 n) (c24 n)
      && twists_at 3 8 (c24 n) i 1
      && cwf n2 && crtb n2 && is_id 8 (c8 n2) && blockb 3 8 (c8 n2) (c24 n2)
      && twists_at 3 8 (c24 n2) i 2
  | _ => false
  end.

Definition switchers : list cmove := [cM20; cM21; cM22; cM23].
Definition zones : list (Z * Z * Z) :=
  [(0, 3, 11); (5, 6, 7); (4, 6, 7); (2, 9, 10)]%Z.

(** Phase 3: the move applied for the defect [(i, j)]. *)
Definition tab3 (i j : nat) : bool :=
  match ctry_switchers switchers zones 0 i j cfund_l None with
  | Ok (Some n) =>
      cwf n && crtb n && is_id 8 (c8 n) && is_id 24 (c24 n) && brings (e12 n) i j
  | _ => false
  end.

(** Phase 4: the move applied at slot [i]. *)
Definition tab4 (i : nat) : bool :=
  match csend_12_slow 0 3 0 i cfund_l 3 1 cprev0 with
  | Ok (Some g) =>
      let n := cconjugate cM31 g in
      cwf n && crtb n && is_id 8 (c8 n) && is_id 24 (c24 n) && is_id 12 (e12 n)
      && blockb 2 12 (e12 n) (e24 n) && twists_at 2 12 (e24 n) i 1
  | _ => false
  end.

(** The state of a configuration, block by block. *)
Definition blocks (g : cmove) : list nat :=
  c8 g ++ e12 g ++ map (fun k => k mod 3) (c24 g) ++ map (fun k => k mod 2) (e24 g).

End Tables.
Import Tables.

(** ** The relation between the two layers *)

Module Relate.

Local Open Scope nat_scope.

(** A list of numbers as a column. *)
Definition col_of (y : list nat) : matrix := column (map Z.of_nat y).

Definition all_cwf (l : list cmove) : Prop := Forall (fun c => cwf c = true) l.

(** Two results related by [R], or the same exception. *)
Definition res_rel {A B : Type} (R : A -> B -> Prop) (r1 : res A) (r2 : res B) : Prop :=
  match r1, r2 with
  | Ok a, Ok b => R a b
  | Err e1, Err e2 => e1 = e2
  | _, _ => False
  end.

(** The state of a phase loop: the move and the column. *)
Definition st_rel (n : nat) (a : move * matrix) (b : cmove * list nat) : Prop :=
  fst a = embed (fst b) /\ snd a = col_of (snd b) /\
  cwf (fst b) = true /\ length (snd b) = n.

Definition opt_cwf (nm : option cmove) : Prop :=
  forall c, nm = Some c -> cwf c = true.

Definition st3_rel (a : move * matrix * option move)
    (b : cmove * list nat * option cmove) : Prop :=
  fst (fst a) = embed (fst (fst b)) /\ snd (fst a) = col_of (snd (fst b)) /\
  cwf (fst (fst b)) = true /\ length (snd (fst b)) = 12 /\
  snd a = option_map embed (snd b) /\ opt_cwf (snd b).

End Relate.
Import Relate.

(** ** Notions used by the statements *)

Module Spec.

Local Open Scope string_scope.

(** A well-formed move: its four matrices are permutation matrices of
    sizes 8, 24, 12 and 24. *)
Definition wf_move (m : move) : bool :=
  is_perm_matrix 8 (A8 m) && is_perm_matrix 24 (S3 m)
  && is_perm_matrix 12 (A12 m) && is_perm_matrix 24 (S2 m).

(** The 12 quarter-turn symbols. *)
Definition quarter_turns : list token :=
  ["F"; "f"; "R"; "r"; "U"; "u"; "B"; "b"; "L"; "l"; "D"; "d"].

Definition quarter_turn (t : token) : bool :=
  existsb (String.eqb t) quarter_turns.

(** The move acts as the identity: identity permutations, no twist. *)
Definition acts_as_identity (m : move) : Prop :=
  A8 m = eye 8 /\ S3 m = eye 24 /\ A12 m = eye 12 /\ S2 m = eye 24.

(** [m] composed with itself [n] times by [__mul__], for [n >= 1]:
    [compose_n m k] has [k + 1] factors. *)
Fixpoint compose_n (m : move) (k : nat) : move :=
  match k with
  | O => m
  | S k' => compose_n m k' * m
  end.

(** The direction of a quarter turn flipped, after the words of the
    specification (clockwise <-> counter-clockwise). *)
Definition flip_direction (t : token) : token :=
  if String.eqb t "F" then "f" else if String.eqb t "f" then "F"
  else if String.eqb t "R" then "r" else if String.eqb t "r" then "R"
  else if String.eqb t "U" then "u" else if String.eqb t "u" then "U"
  else if String.eqb t "B" then "b" else if String.eqb t "b" then "B"
  else if String.eqb t "L" then "l" else if String.eqb t "l" then "L"
  else if String.eqb t "D" then "d" else if String.eqb t "d" then "D"
  else t.

(** [r] is an inverse of [m] after the words of the specification: a move
    undoing [m] (well-formed, the products on both sides acting as the
    identity) whose token list is that of [m] reversed with every
    direction flipped. *)
Definition inverse_of (m r : move) : Prop :=
  wf_move r = true /\
  acts_as_identity (m * r) /\ acts_as_identity (r * m) /\
  decompo r = map flip_direction (rev (decompo m)).

(** The moves built from the 12 fundamental generators by composition,
    inverse and integer powers. *)
Inductive built : move -> Prop :=
| built_fund (a : token) (g : move) : Kube.fund a = Some g -> built g
| built_mul (m1 m2 : move) : built m1 -> built m2 -> built (m1 * m2)
| built_pow (m m' : move) (expo : Z) : built m -> pow m expo = Ok m' -> built m'.

(** The moves the searches can build with [n] factors: the depth-1
    candidates are [m * g] for [m] the identity or an authorized move and
    [g] the identity of [prev]; a deeper candidate puts an authorized move
    on a candidate of the depth before. *)
Inductive expressible (auth : list move) : nat -> move -> Prop :=
| expressible_identity : expressible auth 1 (move_of_seq [] * move_of_seq [])
| expressible_first (m : move) :
    In m auth -> expressible auth 1 (m * move_of_seq [])
| expressible_next (n : nat) (m g : move) :
    In m auth -> expressible auth n g -> expressible auth (S n) (m * g).

(** What a query may rely on: the authorized moves have matrices of the
    right height and a non-empty token list. *)
Definition authorized_ok (m : move) : Prop :=
  nrows (A8 m) = 8%nat /\ nrows (A12 m) = 12%nat /\ has_tokens m = true.

(** The first token of [m] against the last token of [g]: [gl] is the
    face-inverse of [m0], or the same quarter turn. *)
Definition pruned (m g : move) : bool :=
  match hd_error (decompo m), last_error (decompo g) with
  | Some m0, Some gl => String.eqb gl (flip_direction m0) || String.eqb gl m0
  | _, _ => false
  end.

(** *** Auxiliary predicates of the proofs *)

Definition fund_table : list (token * move) :=
  [("F", Kube.F); ("f", Kube.f); ("R", Kube.R); ("r", Kube.r);
   ("U", Kube.U); ("u", Kube.u); ("B", Kube.B); ("b", Kube.b);
   ("L", Kube.L); ("l", Kube.l); ("D", Kube.D); ("d", Kube.d)].

(** The round trip: replaying the tokens of [m] gives [m]. *)
Definition round_trip (m : move) : Prop :=
  wf_move m = true /\ Kube.replay (decompo m) (move_of_seq []) = Ok m.

(** The condition of the source as a boolean, on moves with tokens. *)
Definition cancelb (m g : move) : bool :=
  match decompo m, last_error (decompo g) with
  | m0 :: _, Some gl =>
      (String.eqb (upper m0) m0 && String.eqb gl (lower m0))
      || (String.eqb (lower m0) m0 && String.eqb gl (upper m0))
      || String.eqb m0 gl
  | _, _ => false
  end.

(** The candidates a search builds at depth [d]: at depth 1 the products
    [f * move(seq = [])] for [f] the identity or an authorized move; at
    depth [d + 1] the products [m * g] of an authorized move and a
    candidate [g] of depth [d] that has tokens and whose last token does
    not cancel the first token of [m] (the condition of the source). *)
Inductive explored (auth : list move) : nat -> move -> Prop :=
| explored_first (f : move) :
    In f (move_of_seq [] :: auth) -> explored auth 1 (f * move_of_seq [])
| explored_next (d : nat) (m g : move) :
    In m auth -> explored auth d g -> has_tokens g = true -> cancelb m g = false ->
    explored auth (S d) (m * g).

Definition shape_ok (m : move) : Prop :=
  nrows (A8 m) = 8 /\ nrows (A12 m) = 12.

(** What the loop holds of [prev] when it enters depth [n_combi]. *)
Definition prev_inv (auth : list move) (n_combi : nat) (prev : list move) : Prop :=
  (n_combi = 1 /\ prev = prev0) \/
  (1 < n_combi /\
   forall g, In g prev <-> explored auth (n_combi - 1) g /\ has_tokens g = true).

(** The corner matrices that the products of [F] reach. *)
Definition F_orbit : list matrix :=
  [eye 8; A8 Kube.F; mmul (A8 Kube.F) (A8 Kube.F);
   mmul (A8 Kube.F) (mmul (A8 Kube.F) (A8 Kube.F))].

End Spec.

Import Spec.

(** ** Further notions used by the statements *)

Module More.

Local Open Scope nat_scope.

(** Two moves act alike: the same four matrices (the token lists may
    differ). *)
Definition same_action (a b : move) : Prop :=
  A8 a = A8 b /\ S3 a = S3 b /\ A12 a = A12 b /\ S2 a = S2 b.

(** The index read at row [k] after rows [i] and [j] are exchanged. *)
Definition exchanged (i j k : nat) : nat :=
  if k =? i then j else if k =? j then i else k.

(** The index read at row [k] after the contents of slots [a], [b], [c],
    [d] have moved along the cycle [a -> b -> c -> d -> a]. *)
Definition cycled (a b c d k : nat) : nat :=
  if k =? b then a else if k =? c then b else if k =? d then c
  else if k =? a then d else k.

(** The index list of [T(N, i, j)]. *)
Definition swapl (N i j : nat) : perm := map (exchanged i j) (seq 0 N).

(** The index list of [T(N, a, d) * T(N, a, c) * T(N, a, b)]. *)
Definition cycle_list (N a b c d : nat) : perm :=
  pmul (pmul (swapl N a d) (swapl N a c)) (swapl N a b).

(** A matrix of [r] rows of length [c]. *)
Definition is_mat (r c : nat) (A : matrix) : Prop :=
  length A = r /\ forall a, a < r -> length (nth a A []) = c.

(** The number of tokens of a move, [len(m.decompo)]. *)
Definition len (m : move) : nat := length (decompo m).

End More.
Import More.

(** ** Orientation columns with given twists *)

Module Twists.

Local Open Scope nat_scope.

(** The orientation rows of cubies with twists [ts]: the cubie with twist
    [t] shows [(0 + t) mod w, (1 + t) mod w, ...]. *)
Definition twist_rows (w : nat) (ts : list nat) : list nat :=
  flat_map (fun t => map (fun r => (r + t) mod w) (seq 0 w)) ts.

(** The orientation list of cubies in place with twists [ts]. *)
Definition twist_list (w : nat) (ts : list nat) : perm :=
  flat_map (fun k => map (fun r => w * k + (r + nth k ts 0) mod w) (seq 0 w))
           (seq 0 (length ts)).

(** All lists of length [n] over [0 .. w-1]. *)
Fixpoint all_lists (w n : nat) : list (list nat) :=
  match n with
  | O => [[]]
  | S n' => flat_map (fun t => map (cons t) (all_lists w n')) (seq 0 w)
  end.

Definition twist_ok (w n : nat) (ts : list nat) : bool :=
  is_perm (w * n) (twist_list w ts) && blockb w n (idp n) (twist_list w ts)
  && list_eqb Nat.eqb (map (fun k => k mod w) (twist_list w ts)) (twist_rows w ts)
  && list_eqb Nat.eqb (map (tw w (twist_list w ts)) (seq 0 n)) ts.

End Twists.
Import Twists.

(** ** [Kube.rand_move] and the key handler of [mvts.py] *)

Module Mvts.

Local Open Scope string_scope.

(** The list that [rand_move] draws from and that [keyboard] tests the
    key against (the same list in both). *)
Definition letters : list token :=
  ["F"; "f"; "B"; "b"; "R"; "r"; "U"; "u"; "L"; "l"; "D"; "d"].

(** [Kube.rand_move(num_move)]:
    [[rd.choice(letters) for i in range(num_move)]].  [rd.choice(seq)] is
    [seq[int(random() * len(seq))]]; [draw i] is that index at the [i]-th
    call, a number below 12. *)
Definition rand_move (draw : nat -> nat) (num_move : nat) : list token :=
  map (fun i => nth (draw i) letters "") (seq 0 num_move).

(** The globals that [keyboard] reads and writes. *)
Record ui : Type := mkui {
  actions : list token;
  mesg1 : string
}.

(** What a call of [keyboard] ends in: it returns, [sys.exit()] ends the
    program, or an exception of the solver escapes. *)
Inductive key_outcome : Type :=
| Continue (u : ui)
| Exit
| Fail (e : exn).

(** [keyboard(key, x, y)]; [x] and [y] are not used. *)
Definition keyboard (draw : nat -> nat) (key : string) (u : ui) : key_outcome :=
  if (String.eqb key (String "027"%char "") || String.eqb key "q")%bool then Exit
  else
    let actions1 :=
      if existsb (String.eqb key) letters then (actions u ++ [key])%list
      else actions u in
    let '(actions2, mesg) :=
      if String.eqb key "a"
      then ((actions1 ++ rand_move draw 20)%list, "randomly moving....")
      else (actions1, mesg1 u) in
    if String.eqb key "s" then
      match Kube.move_list_to_state actions2 with
      | Err e => Fail e
      | Ok state =>
          match Kube.solve state with
          | Err e => Fail e
          | Ok seq => Continue (mkui (actions2 ++ seq)%list "I found the solution!...")
          end
      end
    else Continue (mkui actions2 mesg).

End Mvts.
Import Mvts.

(** ** The searches under the limits of the interpreter *)

Module Limits.

Local Open Scope nat_scope.
Local Open Scope move_scope.

(** How a call ends on an interpreter that allows a bounded number of
    nested calls and holds a bounded number of moves in memory: as in
    [Utilities] ([Done r], where [r] may be an exception of the program),
    or stopped by the interpreter with [RuntimeError: maximum recursion
    depth exceeded] ([RecursionLimit]) or with [MemoryError]
    ([OutOfMemory]). *)
Inductive limited (A : Type) : Type :=
| Done (r : res A)
| RecursionLimit
| OutOfMemory.
Arguments Done {A} r.
Arguments RecursionLimit {A}.
Arguments OutOfMemory {A}.

(** [for g in prev: ...] for one [m].  [room] is the number of moves that
    still fit in memory: every [m*g] takes one, and the moves stay in
    [cur], which every call of the search keeps until it returns.  The
    result carries the room that is left. *)
Fixpoint extend_within (room n_combi : nat) (m : move) (prev : list move)
    : limited (list move * nat) :=
  match prev with
  | [] => Done (Ok ([], room))
  | g :: prev' =>
      match (if n_combi =? 1 then Ok false else cancels m g) with
      | Err e => Done (Err e)
      | Ok true => extend_within room n_combi m prev'
      | Ok false =>
          match room with
          | O => OutOfMemory
          | S room' =>
              match extend_within room' n_combi m prev' with
              | Done (Ok (rest, room'')) => Done (Ok (m * g :: rest, room''))
              | stopped => stopped
              end
          end
      end
  end.

(** [for m in fact: for g in prev: ...], the list [cur]. *)
Fixpoint candidates_within (room n_combi : nat) (fact prev : list move)
    : limited (list move * nat) :=
  match fact with
  | [] => Done (Ok ([], room))
  | m :: fact' =>
      match extend_within room n_combi m prev with
      | Done (Ok (a, room')) =>
          match candidates_within room' n_combi fact' prev with
          | Done (Ok (b, room'')) => Done (Ok (a ++ b, room''))
          | stopped => stopped
          end
      | stopped => stopped
      end
  end.

(** The body that [send_8], [send_8_slow], [send_12] and [send_12_slow]
    share, as a recursion of the interpreter: [frames] is the number of
    nested calls of the search that the stack still takes (each with what
    its body needs for the calls it makes), and a call is one frame deeper
    than its caller.  [left] is [maxMove + 1 - n_combi] as in [search]. *)
Section LimitedSearch.

Variable accept : move -> res bool.
Variable auth : list move.

Fixpoint search_within (frames room left n_combi : nat) (prev : list move)
    : limited (option move) :=
  match frames with
  | O => RecursionLimit
  | S frames' =>
      match left with
      | O => Done (Ok None)
      | S left' =>
          let fact := if n_combi =? 1 then move_of_seq [] :: auth else auth in
          match candidates_within room n_combi fact prev with
          | Done (Ok (cur, room')) =>
              match first_accepted accept cur with
              | Ok (Some m) => Done (Ok (Some m))
              | Ok None =>
                  search_within frames' room' left' (n_combi + 1)
                    (filter has_tokens cur)
              | Err e => Done (Err e)
              end
          | Done (Err e) => Done (Err e)
          | RecursionLimit => RecursionLimit
          | OutOfMemory => OutOfMemory
          end
      end
  end.

End LimitedSearch.

Definition send_8_within (frames room : nat) (cb1 cb2 : Z) (cl1 cl2 : nat)
    (auth : list move) (maxMove n_combi : nat) (prev : list move)
    : limited (option move) :=
  search_within (accept_8 cb1 cb2 cl1 cl2) auth frames room
    (maxMove + 1 - n_combi) n_combi prev.

Definition send_8_slow_within (frames room : nat) (cb1 cb2 : Z) (cl1 cl2 : nat)
    (auth : list move) (maxMove n_combi : nat) (prev : list move)
    : limited (option move) :=
  search_within (accept_8_slow cb1 cb2 cl1 cl2) auth frames room
    (maxMove + 1 - n_combi) n_combi prev.

Definition send_12_within (frames room : nat) (cb1 cb2 cb3 : Z) (cl1 cl2 : nat)
    (auth : list move) (maxMove n_combi : nat) (prev : list move)
    : limited (option move) :=
  search_within (accept_12 cb1 cb2 cb3 cl1 cl2) auth frames room
    (maxMove + 1 - n_combi) n_combi prev.

Definition send_12_slow_within (frames room : nat) (cb1 cb2 : Z) (cl1 cl2 : nat)
    (auth : list move) (maxMove n_combi : nat) (prev : list move)
    : limited (option move) :=
  search_within (accept_12_slow cb1 cb2 cl1 cl2) auth frames room
    (maxMove + 1 - n_combi) n_combi prev.

(** The number of moves that [left] depths build at most from [p] previous
    candidates and [a] authorized moves: every factor on every previous
    candidate, the factors being one more at the first depth. *)
Fixpoint work (a p left : nat) (first : bool) : nat :=
  match left with
  | O => 0
  | S left' =>
      let c := ((if first then S a else a) * p)%nat in
      c + work a c left' false
  end.

(** For a search called with its defaults and [a] authorized moves:
    [(a+1) * (1 + a + ... + a^(maxMove-1))]. *)
Definition search_work (a maxMove : nat) : nat := work a 1 maxMove true.

(** The outcome of a search bounded by [maxMove] under the test [accept]:
    the call returns (no exception of the program, not stopped by the
    interpreter); a returned move passes the test and is a candidate of a
    depth [d <= maxMove] such that no candidate of a depth before [d]
    passes the test; [None] comes out only when no candidate of any depth
    up to [maxMove] passes the test, and in particular comes out when no
    product of at most [maxMove] authorized moves passes it. *)
Definition search_outcome (auth : list move) (maxMove : nat)
    (accept : move -> res bool) (r : limited (option move)) : Prop :=
  exists r0, r = Done (Ok r0) /\
    (forall m, r0 = Some m ->
       accept m = Ok true /\
       exists d, 1 <= d <= maxMove /\ explored auth d m /\
         forall d' m', 1 <= d' < d -> explored auth d' m' -> accept m' = Ok false) /\
    (r0 = None ->
       forall d m, 1 <= d <= maxMove -> explored auth d m -> accept m = Ok false) /\
    ((forall n m, 1 <= n <= maxMove -> expressible auth n m -> accept m = Ok false) ->
     r0 = None).

End Limits.
Import Limits.

(** * Part II: properties *)

(** ** The error monad *)

Lemma bind_ok {A B : Type} (c : res A) (k : A -> res B) (b : B) :
  bind c k = Ok b -> exists a, c = Ok a /\ k a = Ok b.
Proof.
  destruct c as [a | e]; simpl; intros H; [eauto | discriminate].
Qed.

Ltac inv_bind H :=
  let a := fresh "a" in
  let Ha := fresh "Ha" in
  apply bind_ok in H; destruct H as (a & Ha & H).

(** ** Permutation lists and their matrices *)

Module PermFacts.

Local Open Scope nat_scope.

Lemma is_perm_spec n p :
  is_perm n p = true <->
  length p = n /\ Forall (fun k => k < n) p /\ NoDup p.
Proof.
  unfold is_perm. rewrite !andb_true_iff, Nat.eqb_eq, forallb_forall, Forall_forall.
  assert (HN : nodupb p = true <-> NoDup p).
  { induction p as [| x p IH]; simpl.
    - split; [constructor | reflexivity].
    - rewrite andb_true_iff, negb_true_iff, IH. split.
      + intros [H1 H2]. constructor; [| assumption].
        intros Hin. assert (existsb (Nat.eqb x) p = true).
        { apply existsb_exists. exists x. split; [assumption | apply Nat.eqb_refl]. }
        congruence.
      + intros H. inversion H; subst. split; [| assumption].
        destruct (existsb (Nat.eqb x) p) eqn:E; [| reflexivity].
        apply existsb_exists in E. destruct E as (y & Hy & E).
        apply Nat.eqb_eq in E. subst. contradiction. }
  rewrite HN. split.
  - intros [[H1 H2] H3]. repeat split; try assumption.
    intros x Hx. apply Nat.ltb_lt. auto.
  - intros (H1 & H2 & H3). repeat split; try assumption.
    intros x Hx. apply Nat.ltb_lt. auto.
Qed.

Lemma list_eqb_eq (l1 l2 : list (list Z)) :
  list_eqb (list_eqb Z.eqb) l1 l2 = true -> l1 = l2.
Proof.
  assert (H0 : forall r1 r2 : list Z, list_eqb Z.eqb r1 r2 = true -> r1 = r2).
  { induction r1 as [| x r1 IH]; destruct r2 as [| y r2]; simpl; try discriminate; auto.
    intros H. apply andb_true_iff in H. destruct H as [H1 H2].
    apply Z.eqb_eq in H1. f_equal; auto. }
  revert l2. induction l1 as [| x l1 IH]; destruct l2 as [| y l2]; simpl; try discriminate; auto.
  intros H. apply andb_true_iff in H. destruct H as [H1 H2]. f_equal; auto.
Qed.

Lemma is_perm_matrix_spec n A :
  is_perm_matrix n A = true -> A = pm n (unpm A) /\ is_perm n (unpm A) = true.
Proof.
  unfold is_perm_matrix. intros H. apply andb_true_iff in H. destruct H as [H1 H2].
  split; [apply list_eqb_eq; assumption | assumption].
Qed.

Lemma nth_map_lt {X Y : Type} (f : X -> Y) (l : list X) (i : nat) (dx : X) (dy : Y) :
  i < length l -> nth i (map f l) dy = f (nth i l dx).
Proof.
  revert i. induction l as [| x l IH]; simpl; intros i H; [lia |].
  destruct i; [reflexivity | apply IH; lia].
Qed.

Lemma nth_pmul a b i :
  i < length a -> nth i (pmul a b) 0 = nth (nth i a 0) b 0.
Proof.
  intros H. unfold pmul. apply (nth_map_lt (fun k => nth k b 0)). assumption.
Qed.

Lemma length_pmul a b : length (pmul a b) = length a.
Proof. apply length_map. Qed.

Lemma pmul_assoc a b c :
  Forall (fun k => k < length b) a -> pmul (pmul a b) c = pmul a (pmul b c).
Proof.
  intros H. unfold pmul at 1 2 3. rewrite map_map. apply map_ext_in.
  intros k Hk. rewrite Forall_forall in H. symmetry. apply nth_pmul. auto.
Qed.

Lemma pmul_idp_r a n :
  Forall (fun k => k < n) a -> pmul a (idp n) = a.
Proof.
  intros H. unfold pmul, idp. rewrite <- (map_id a) at 2. apply map_ext_in.
  intros k Hk. rewrite Forall_forall in H. rewrite seq_nth; auto.
Qed.

Lemma pmul_idp_l a : pmul (idp (length a)) a = a.
Proof.
  unfold pmul, idp. apply nth_ext with (d := 0) (d' := 0).
  - rewrite length_map, length_seq. reflexivity.
  - intros i Hi. rewrite length_map, length_seq in Hi.
    rewrite (nth_map_lt (fun k => nth k a 0) _ _ 0) by (rewrite length_seq; assumption).
    rewrite seq_nth; auto.
Qed.

Lemma pmul_idp_l' n a : length a = n -> pmul (idp n) a = a.
Proof. intros <-. apply pmul_idp_l. Qed.

Lemma index_of_lt x l : In x l -> index_of x l < length l.
Proof.
  induction l as [| y l IH]; simpl; [tauto |].
  intros H. destruct (Nat.eqb_spec x y); [lia |].
  destruct H as [H | H]; [congruence | apply IH in H; lia].
Qed.

Lemma nth_index_of x l : In x l -> nth (index_of x l) l 0 = x.
Proof.
  induction l as [| y l IH]; simpl; [tauto |].
  intros H. destruct (Nat.eqb_spec x y); [auto |].
  destruct H as [H | H]; [congruence | auto].
Qed.

Lemma index_of_nth i l : NoDup l -> i < length l -> index_of (nth i l 0) l = i.
Proof.
  revert i. induction l as [| y l IH]; simpl; intros i Hd Hi; [lia |].
  inversion Hd; subst. destruct i as [| i].
  - rewrite Nat.eqb_refl. reflexivity.
  - destruct (Nat.eqb_spec (nth i l 0) y) as [E | E].
    + exfalso. apply H1. rewrite <- E. apply nth_In. lia.
    + f_equal. apply IH; [assumption | lia].
Qed.

(** A duplicate-free list of [n] numbers below [n] contains each of them. *)
Lemma perm_surj n p k :
  is_perm n p = true -> k < n -> In k p.
Proof.
  intros H Hk. apply is_perm_spec in H. destruct H as (Hl & Hb & Hd).
  assert (Hincl : incl (seq 0 n) p).
  { apply NoDup_length_incl; [assumption | rewrite length_seq; lia |].
    intros x Hx. apply in_seq. rewrite Forall_forall in Hb. apply Hb in Hx. lia. }
  apply Hincl. apply in_seq. lia.
Qed.

Lemma pmul_pinv_r n p : is_perm n p = true -> pmul (pinv p) p = idp n.
Proof.
  intros H. pose proof H as H'. apply is_perm_spec in H'. destruct H' as (Hl & Hb & Hd).
  unfold pinv, pmul. rewrite map_map, Hl. unfold idp.
  rewrite <- (map_id (seq 0 n)) at 2. apply map_ext_in.
  intros k Hk. apply in_seq in Hk. apply nth_index_of. eapply perm_surj; eauto. lia.
Qed.

Lemma pmul_pinv_l n p : is_perm n p = true -> pmul p (pinv p) = idp n.
Proof.
  intros H. pose proof H as H'. apply is_perm_spec in H'. destruct H' as (Hl & Hb & Hd).
  apply nth_ext with (d := 0) (d' := 0).
  - rewrite length_pmul. unfold idp. rewrite length_seq. assumption.
  - intros i Hi. rewrite length_pmul in Hi. rewrite nth_pmul by assumption.
    unfold pinv, idp. rewrite Forall_forall in Hb.
    assert (Hn : nth i p 0 < n) by (apply Hb, nth_In; assumption).
    rewrite (nth_map_lt (fun k => index_of k p) _ _ 0) by (rewrite length_seq; lia).
    rewrite seq_nth by lia. simpl.
    rewrite index_of_nth by assumption. rewrite seq_nth by lia. reflexivity.
Qed.

Lemma is_perm_idp n : is_perm n (idp n) = true.
Proof.
  apply is_perm_spec. unfold idp. rewrite length_seq. repeat split.
  - apply Forall_forall. intros x Hx. apply in_seq in Hx. lia.
  - apply seq_NoDup.
Qed.

Lemma is_perm_pmul n a b :
  is_perm n a = true -> is_perm n b = true -> is_perm n (pmul a b) = true.
Proof.
  intros Ha Hb. pose proof Ha as Ha'. pose proof Hb as Hb'.
  apply is_perm_spec in Ha'. destruct Ha' as (Hla & Hba & Hda).
  apply is_perm_spec in Hb'. destruct Hb' as (Hlb & Hbb & Hdb).
  apply is_perm_spec. rewrite length_pmul. rewrite Forall_forall in *. repeat split.
  - assumption.
  - intros x Hx. unfold pmul in Hx. apply in_map_iff in Hx.
    destruct Hx as (k & <- & Hk). apply Hbb, nth_In. rewrite Hlb. auto.
  - unfold pmul. apply Finite.Injective_map_NoDup_in; [| assumption].
    intros x y Hx Hy E. apply (proj1 (NoDup_nth b 0) Hdb); rewrite ?Hlb; auto.
Qed.

Lemma is_perm_pinv n p : is_perm n p = true -> is_perm n (pinv p) = true.
Proof.
  intros H. pose proof H as H'. apply is_perm_spec in H'. destruct H' as (Hl & Hb & Hd).
  apply is_perm_spec. unfold pinv. rewrite length_map, length_seq. repeat split.
  - assumption.
  - apply Forall_forall. intros x Hx. apply in_map_iff in Hx.
    destruct Hx as (k & <- & Hk). apply in_seq in Hk. rewrite <- Hl.
    apply index_of_lt. eapply perm_surj; eauto. lia.
  - apply Finite.Injective_map_NoDup_in; [| apply seq_NoDup].
    intros x y Hx Hy E. apply in_seq in Hx. apply in_seq in Hy.
    rewrite <- (nth_index_of x p), <- (nth_index_of y p), E; auto;
      eapply perm_surj; eauto; lia.
Qed.

End PermFacts.

(** ** Matrices of index lists *)

Module MatrixFacts.

Import PermFacts.
Local Open Scope nat_scope.

Lemma length_unit_row n k : length (unit_row n k) = n.
Proof. unfold unit_row. rewrite length_map, length_seq. reflexivity. Qed.

Lemma nth_unit_row n k j :
  j < n -> nth j (unit_row n k) 0%Z = if k =? j then 1%Z else 0%Z.
Proof.
  intros H. unfold unit_row.
  rewrite (nth_map_lt (fun j => if k =? j then 1%Z else 0%Z) _ _ 0) by (rewrite length_seq; lia).
  rewrite seq_nth by lia. reflexivity.
Qed.

Lemma dot_zero_row k v n s :
  k < s -> dot (map (fun j => if k =? j then 1%Z else 0%Z) (seq s n)) v = 0%Z.
Proof.
  revert s v. induction n as [| n IH]; intros s v H; simpl; [reflexivity |].
  destruct v as [| b v]; [reflexivity |].
  destruct (Nat.eqb_spec k s); [lia |]. rewrite IH by lia. reflexivity.
Qed.

Lemma dot_unit_seq k v n s :
  s <= k < s + n ->
  dot (map (fun j => if k =? j then 1%Z else 0%Z) (seq s n)) v = nth (k - s) v 0%Z.
Proof.
  revert s v. induction n as [| n IH]; intros s v H; simpl; [lia |].
  destruct v as [| b v]; [destruct (k - s); reflexivity |].
  destruct (Nat.eqb_spec k s) as [E | E].
  - subst. rewrite dot_zero_row by lia. rewrite Nat.sub_diag. cbn [nth]. lia.
  - rewrite IH by lia. replace (k - s) with (S (k - S s)) by lia. reflexivity.
Qed.

Lemma dot_unit_row n k v : k < n -> dot (unit_row n k) v = nth k v 0%Z.
Proof.
  intros H. unfold unit_row. rewrite dot_unit_seq by lia. f_equal. lia.
Qed.

Lemma nth_col j k (B : matrix) : nth k (col j B) 0%Z = nth j (nth k B []) 0%Z.
Proof.
  unfold col. destruct (Nat.lt_ge_cases k (length B)) as [H | H].
  - apply (nth_map_lt (fun r => nth j r 0%Z)). assumption.
  - rewrite (nth_overflow (map _ B)) by (rewrite length_map; assumption).
    rewrite (nth_overflow B) by assumption. destruct j; reflexivity.
Qed.

Lemma map_nth_seq (r : list Z) : map (fun j => nth j r 0%Z) (seq 0 (length r)) = r.
Proof.
  apply nth_ext with (d := 0%Z) (d' := 0%Z).
  - rewrite length_map, length_seq. reflexivity.
  - intros i Hi. rewrite length_map, length_seq in Hi.
    rewrite (nth_map_lt (fun j => nth j r 0%Z) _ _ 0) by (rewrite length_seq; assumption).
    rewrite seq_nth by assumption. reflexivity.
Qed.

(** Multiplying by the matrix of an index list selects rows. *)
Lemma mmul_pm n p (B : matrix) :
  Forall (fun k => k < n) p ->
  (forall k, k < n -> length (nth k B []) = ncols B) ->
  mmul (pm n p) B = map (fun k => nth k B []) p.
Proof.
  intros Hp HB. unfold mmul, pm. rewrite map_map. apply map_ext_in.
  intros k Hk. rewrite Forall_forall in Hp. specialize (Hp k Hk).
  rewrite <- (map_nth_seq (nth k B [])) at 1. rewrite (HB k Hp).
  apply map_ext. intros j. rewrite dot_unit_row by assumption. apply nth_col.
Qed.

Lemma ncols_pm n p : p <> [] -> ncols (pm n p) = n.
Proof.
  destruct p; [congruence |]. intros _. unfold ncols. simpl. apply length_unit_row.
Qed.

Lemma nth_pm n p k : k < length p -> nth k (pm n p) [] = unit_row n (nth k p 0).
Proof. intros H. unfold pm. apply (nth_map_lt (unit_row n)). assumption. Qed.

Lemma mmul_pm_pm n p q :
  Forall (fun k => k < n) p -> length q = n ->
  mmul (pm n p) (pm n q) = pm n (pmul p q).
Proof.
  intros Hp Hq. destruct p as [| k0 p']; [reflexivity |].
  assert (Hn : 0 < n) by (inversion Hp; lia).
  assert (Hq0 : q <> []) by (destruct q; simpl in *; [lia | congruence]).
  rewrite (@mmul_pm n); try assumption.
  - unfold pm, pmul. rewrite map_map. apply map_ext_in. intros k Hk.
    rewrite Forall_forall in Hp. fold (pm n q). apply nth_pm. rewrite Hq. auto.
  - intros k Hk. rewrite ncols_pm by assumption. rewrite nth_pm by lia.
    apply length_unit_row.
Qed.

Lemma nth_column (v : list Z) k : k < length v -> nth k (column v) [] = [nth k v 0%Z].
Proof. intros H. unfold column. apply (nth_map_lt (fun x => [x])). assumption. Qed.

(** A matrix of an index list times a column. *)
Lemma mmul_pm_column n p (v : list Z) :
  Forall (fun k => k < n) p -> length v = n ->
  mmul (pm n p) (column v) = column (map (fun k => nth k v 0%Z) p).
Proof.
  intros Hp Hv. destruct p as [| k0 p']; [reflexivity |].
  assert (Hn : 0 < n) by (inversion Hp; lia).
  rewrite (@mmul_pm n); try assumption.
  - unfold column. rewrite map_map. apply map_ext_in. intros k Hk.
    rewrite Forall_forall in Hp. fold (column v). apply nth_column. rewrite Hv. auto.
  - intros k Hk. rewrite nth_column by lia. destruct v; simpl in *; [lia | reflexivity].
Qed.

Lemma eye_pm n : eye n = pm n (idp n).
Proof. reflexivity. Qed.

Lemma col_pm n p j :
  j < n -> col j (pm n p) = map (fun k => if k =? j then 1%Z else 0%Z) p.
Proof.
  intros H. unfold col, pm. rewrite map_map. apply map_ext. intros k.
  apply nth_unit_row. assumption.
Qed.

(** The transpose of a permutation matrix is the matrix of the inverse list. *)
Lemma transpose_pm n p :
  is_perm n p = true -> transpose (pm n p) = pm n (pinv p).
Proof.
  intros H. pose proof H as H'. apply is_perm_spec in H'. destruct H' as (Hl & Hb & Hd).
  destruct (Nat.eq_dec n 0) as [-> | Hn].
  { destruct p; [reflexivity | discriminate]. }
  assert (Hp0 : p <> []) by (destruct p; simpl in *; [lia | congruence]).
  unfold transpose. rewrite ncols_pm by assumption.
  unfold pm at 2, pinv. rewrite map_map, Hl. apply map_ext_in.
  intros j Hj. apply in_seq in Hj. rewrite col_pm by lia.
  apply nth_ext with (d := 0%Z) (d' := 0%Z).
  - rewrite length_map, length_unit_row. assumption.
  - intros i Hi. rewrite length_map in Hi.
    rewrite (nth_map_lt (fun k => if k =? j then 1%Z else 0%Z) _ _ 0) by assumption.
    rewrite nth_unit_row by lia.
    destruct (Nat.eqb_spec (nth i p 0) j) as [E | E];
      destruct (Nat.eqb_spec (index_of j p) i) as [E' | E']; try reflexivity; exfalso.
    + apply E'. rewrite <- E. apply index_of_nth; assumption.
    + apply E. rewrite <- E'. apply nth_index_of. eapply perm_surj; eauto. lia.
Qed.

Lemma unit_row_app_l n m k :
  k < n -> unit_row n k ++ repeat 0%Z m = unit_row (n + m) k.
Proof.
  intros H. unfold unit_row. rewrite seq_app, map_app. f_equal. simpl.
  apply nth_ext with (d := 0%Z) (d' := 0%Z).
  - rewrite repeat_length, length_map, length_seq. reflexivity.
  - intros i Hi. rewrite repeat_length in Hi. rewrite nth_repeat.
    rewrite (nth_map_lt (fun j => if k =? j then 1%Z else 0%Z) _ _ 0) by (rewrite length_seq; lia).
    rewrite seq_nth by lia. destruct (Nat.eqb_spec k (n + i)); [lia | reflexivity].
Qed.

Lemma seq_add_map n m : seq n m = map (fun j => n + j) (seq 0 m).
Proof.
  apply nth_ext with (d := 0) (d' := 0).
  - rewrite length_map, !length_seq. reflexivity.
  - intros i Hi. rewrite length_seq in Hi.
    rewrite (nth_map_lt (fun j => n + j) _ _ 0) by (rewrite length_seq; assumption).
    rewrite !seq_nth by assumption. reflexivity.
Qed.

Lemma unit_row_app_r n m k :
  repeat 0%Z n ++ unit_row m k = unit_row (n + m) (n + k).
Proof.
  unfold unit_row. rewrite seq_app, map_app. simpl. f_equal.
  - apply nth_ext with (d := 0%Z) (d' := 0%Z).
    + rewrite repeat_length, length_map, length_seq. reflexivity.
    + intros i Hi. rewrite repeat_length in Hi. rewrite nth_repeat.
      rewrite (nth_map_lt (fun j => if n + k =? j then 1%Z else 0%Z) _ _ 0) by (rewrite length_seq; lia).
      rewrite seq_nth by lia. destruct (Nat.eqb_spec (n + k) (0 + i)); [lia | reflexivity].
  - rewrite (seq_add_map n m), map_map. apply map_ext. intros j.
    destruct (Nat.eqb_spec k j); destruct (Nat.eqb_spec (n + k) (n + j)); try reflexivity; lia.
Qed.

Lemma block_diag_pm n m p q :
  Forall (fun k => k < n) p -> p <> [] -> q <> [] ->
  block_diag (pm n p) (pm m q) = pm (n + m) (p ++ map (fun k => n + k) q).
Proof.
  intros Hp Hp0 Hq0. unfold block_diag. rewrite !ncols_pm by assumption.
  unfold pm. rewrite map_app, !map_map. f_equal.
  - apply map_ext_in. intros k Hk. rewrite Forall_forall in Hp.
    apply unit_row_app_l. auto.
  - apply map_ext. intros k. apply unit_row_app_r.
Qed.

End MatrixFacts.

(** ** The move algebra on well-formed moves *)

Module MoveFacts.

Import PermFacts MatrixFacts.
Local Open Scope nat_scope.

Lemma row_index_unit_row n k : k < n -> row_index (unit_row n k) = k.
Proof.
  intros H. unfold unit_row.
  assert (G : forall m s, s <= k < s + m ->
            row_index (map (fun j => if k =? j then 1%Z else 0%Z) (seq s m)) = k - s).
  { induction m as [| m IH]; intros s Hs; simpl; [lia |].
    destruct (Nat.eqb_spec k s) as [E | E]; simpl.
    - lia.
    - rewrite IH by lia. lia. }
  rewrite G by lia. lia.
Qed.

Lemma unpm_pm n p : Forall (fun k => k < n) p -> unpm (pm n p) = p.
Proof.
  intros H. unfold unpm, pm. rewrite map_map. rewrite <- (map_id p) at 2.
  apply map_ext_in. intros k Hk. rewrite Forall_forall in H.
  apply row_index_unit_row. auto.
Qed.

Lemma list_eqb_refl (A : matrix) : list_eqb (list_eqb Z.eqb) A A = true.
Proof.
  assert (H0 : forall r : list Z, list_eqb Z.eqb r r = true).
  { induction r as [| x r IH]; simpl; [reflexivity |]. rewrite Z.eqb_refl. assumption. }
  induction A as [| r A IH]; simpl; [reflexivity |]. rewrite H0. assumption.
Qed.

Lemma is_perm_matrix_pm n p : is_perm n p = true -> is_perm_matrix n (pm n p) = true.
Proof.
  intros H. pose proof H as H'. apply is_perm_spec in H'. destruct H' as (Hl & Hb & Hd).
  unfold is_perm_matrix. rewrite unpm_pm by assumption.
  rewrite list_eqb_refl, H. reflexivity.
Qed.

Lemma cwf_spec c :
  cwf c = true <->
  is_perm 8 (c8 c) = true /\ is_perm 24 (c24 c) = true /\
  is_perm 12 (e12 c) = true /\ is_perm 24 (e24 c) = true.
Proof. unfold cwf. rewrite !andb_true_iff. tauto. Qed.

Lemma is_perm_bound n p : is_perm n p = true -> Forall (fun k => k < n) p.
Proof. intros H. apply is_perm_spec in H. tauto. Qed.

Lemma is_perm_length n p : is_perm n p = true -> length p = n.
Proof. intros H. apply is_perm_spec in H. tauto. Qed.

Create HintDb perm.
#[local] Hint Resolve is_perm_bound is_perm_length is_perm_pmul is_perm_pinv is_perm_idp : perm.

(** Every well-formed move is the image of a well-formed index move. *)
Lemma wf_move_embed m :
  wf_move m = true -> m = embed (abstract m) /\ cwf (abstract m) = true.
Proof.
  unfold wf_move. rewrite !andb_true_iff. intros [[[H1 H2] H3] H4].
  apply is_perm_matrix_spec in H1, H2, H3, H4.
  destruct H1 as [E1 P1], H2 as [E2 P2], H3 as [E3 P3], H4 as [E4 P4].
  split.
  - destruct m as [a s3 a12 s2 d]. unfold embed, abstract. simpl in *. congruence.
  - apply cwf_spec. unfold abstract. simpl. auto.
Qed.

Lemma wf_move_of_embed c : cwf c = true -> wf_move (embed c) = true.
Proof.
  intros H. apply cwf_spec in H. destruct H as (H1 & H2 & H3 & H4).
  unfold wf_move, embed. simpl. rewrite !is_perm_matrix_pm by assumption. reflexivity.
Qed.

Lemma embed_cone s : embed (cone s) = move_of_seq s.
Proof. reflexivity. Qed.

Lemma cwf_cone s : cwf (cone s) = true.
Proof. reflexivity. Qed.

Lemma embed_cmul a b :
  cwf a = true -> cwf b = true -> embed (cmul a b) = (embed a * embed b)%move.
Proof.
  intros Ha Hb. apply cwf_spec in Ha, Hb.
  destruct Ha as (A1 & A2 & A3 & A4), Hb as (B1 & B2 & B3 & B4).
  unfold embed, cmul, mul, move_of_matrices. simpl.
  rewrite !mmul_pm_pm; auto with perm.
Qed.

Lemma cwf_cmul a b : cwf a = true -> cwf b = true -> cwf (cmul a b) = true.
Proof.
  intros Ha Hb. apply cwf_spec in Ha, Hb. apply cwf_spec.
  destruct Ha as (A1 & A2 & A3 & A4), Hb as (B1 & B2 & B3 & B4).
  unfold cmul. simpl. auto 6 with perm.
Qed.

Lemma is_perm_ppow_pos n p k : is_perm n p = true -> is_perm n (ppow_pos p k) = true.
Proof. intros H. induction k; simpl; auto with perm. Qed.

Lemma is_perm_ppow n p k : is_perm n p = true -> is_perm n (ppow p k) = true.
Proof.
  intros H. unfold ppow. destruct (k =? 0)%Z.
  - rewrite (is_perm_length _ _ H). apply is_perm_idp.
  - destruct (k <? 0)%Z; apply is_perm_ppow_pos; auto with perm.
Qed.

Lemma mpow_pos_pm n p k :
  is_perm n p = true -> mpow_pos (pm n p) k = pm n (ppow_pos p k).
Proof.
  intros H. induction k as [| k IH]; simpl; [reflexivity |].
  rewrite IH. apply mmul_pm_pm; auto with perm.
  apply is_perm_bound. apply is_perm_ppow_pos. assumption.
Qed.

Lemma mpow_pm n p k :
  is_perm n p = true -> mpow (pm n p) k = pm n (ppow p k).
Proof.
  intros H. unfold mpow, ppow, nrows, minv, pm at 1.
  rewrite length_map, (is_perm_length _ _ H).
  destruct (k =? 0)%Z; [reflexivity |].
  destruct (k <? 0)%Z.
  - fold (pm n p). rewrite transpose_pm by assumption.
    apply mpow_pos_pm. auto with perm.
  - apply mpow_pos_pm. assumption.
Qed.

Lemma embed_cpow_body a k :
  cwf a = true -> embed (cpow_body a k) = pow_body (embed a) k.
Proof.
  intros Ha. apply cwf_spec in Ha. destruct Ha as (A1 & A2 & A3 & A4).
  unfold cpow_body, pow_body. destruct (k =? 0)%Z; [reflexivity |].
  unfold embed, move_of_matrices. simpl. rewrite !mpow_pm by assumption. reflexivity.
Qed.

Lemma cwf_cpow_body a k : cwf a = true -> cwf (cpow_body a k) = true.
Proof.
  intros Ha. unfold cpow_body. destruct (k =? 0)%Z; [reflexivity |].
  apply cwf_spec in Ha. destruct Ha as (A1 & A2 & A3 & A4).
  apply cwf_spec. simpl. auto using is_perm_ppow.
Qed.

Lemma wf_move_mul a b : wf_move a = true -> wf_move b = true -> wf_move (a * b)%move = true.
Proof.
  intros Ha Hb. apply wf_move_embed in Ha, Hb.
  destruct Ha as [Ea Ha], Hb as [Eb Hb]. rewrite Ea, Eb.
  rewrite <- embed_cmul by assumption. apply wf_move_of_embed, cwf_cmul; assumption.
Qed.

Lemma wf_move_pow_body a k : wf_move a = true -> wf_move (pow_body a k) = true.
Proof.
  intros Ha. apply wf_move_embed in Ha. destruct Ha as [Ea Ha]. rewrite Ea.
  rewrite <- embed_cpow_body by assumption. apply wf_move_of_embed, cwf_cpow_body; assumption.
Qed.

Lemma wf_move_of_seq s : wf_move (move_of_seq s) = true.
Proof. reflexivity. Qed.

(** The algebra laws, on the index lists. *)

Lemma cmul_assoc a b c :
  cwf a = true -> cwf b = true -> cmul (cmul a b) c = cmul a (cmul b c).
Proof.
  intros Ha Hb. apply cwf_spec in Ha, Hb.
  destruct Ha as (A1 & A2 & A3 & A4), Hb as (B1 & B2 & B3 & B4).
  unfold cmul. simpl. rewrite app_assoc.
  rewrite !pmul_assoc; try reflexivity.
  - rewrite (is_perm_length _ _ B4). auto with perm.
  - rewrite (is_perm_length _ _ B3). auto with perm.
  - rewrite (is_perm_length _ _ B2). auto with perm.
  - rewrite (is_perm_length _ _ B1). auto with perm.
Qed.

Lemma cmul_cone_r a : cwf a = true -> cmul a (cone []) = a.
Proof.
  intros Ha. apply cwf_spec in Ha. destruct Ha as (A1 & A2 & A3 & A4).
  destruct a as [p8 p24 q12 q24 t]. unfold cmul, cone.
  cbn [c8 c24 e12 e24 toks] in *.
  rewrite !pmul_idp_r by auto with perm. reflexivity.
Qed.

Lemma cmul_cone_l a : cwf a = true -> cmul (cone []) a = a.
Proof.
  intros Ha. apply cwf_spec in Ha. destruct Ha as (A1 & A2 & A3 & A4).
  destruct a as [p8 p24 q12 q24 t]. unfold cmul, cone.
  cbn [c8 c24 e12 e24 toks] in *. rewrite app_nil_r.
  rewrite !pmul_idp_l' by auto with perm. reflexivity.
Qed.

(** The transpose is the two-sided inverse of a permutation matrix. *)
Lemma minv_correct n A :
  is_perm_matrix n A = true ->
  mmul A (minv A) = eye n /\ mmul (minv A) A = eye n.
Proof.
  intros H. apply is_perm_matrix_spec in H. destruct H as [E P].
  revert E P. generalize (unpm A). intros p E P. subst A.
  unfold minv. rewrite transpose_pm by assumption.
  rewrite !mmul_pm_pm by auto with perm.
  rewrite (pmul_pinv_l _ _ P), (pmul_pinv_r _ _ P). split; reflexivity.
Qed.

End MoveFacts.

(** ** Laws of [__mul__] and [__pow__] on well-formed moves *)

Module Algebra.

Import PermFacts MatrixFacts MoveFacts.
Local Open Scope move_scope.

Lemma mul_assoc a b c :
  wf_move a = true -> wf_move b = true -> wf_move c = true ->
  (a * b) * c = a * (b * c).
Proof.
  intros Ha Hb Hc. apply wf_move_embed in Ha, Hb, Hc.
  destruct Ha as [Ea Ha], Hb as [Eb Hb], Hc as [Ec Hc]. rewrite Ea, Eb, Ec.
  rewrite <- !embed_cmul; auto using cwf_cmul.
  rewrite cmul_assoc by assumption. reflexivity.
Qed.

Lemma mul_one_r a : wf_move a = true -> a * move_of_seq [] = a.
Proof.
  intros Ha. apply wf_move_embed in Ha. destruct Ha as [Ea Ha]. rewrite Ea.
  rewrite <- embed_cone, <- embed_cmul; auto using cwf_cone.
  rewrite cmul_cone_r by assumption. reflexivity.
Qed.

Lemma mul_one_l a : wf_move a = true -> move_of_seq [] * a = a.
Proof.
  intros Ha. apply wf_move_embed in Ha. destruct Ha as [Ea Ha]. rewrite Ea.
  rewrite <- embed_cone, <- embed_cmul; auto using cwf_cone.
  rewrite cmul_cone_l by assumption. reflexivity.
Qed.

Lemma ppow_inv p : ppow p (-1) = pinv p.
Proof. reflexivity. Qed.

Lemma pinv_pmul n a b :
  is_perm n a = true -> is_perm n b = true ->
  pinv (pmul a b) = pmul (pinv b) (pinv a).
Proof.
  intros Ha Hb.
  assert (Hc : is_perm n (pmul a b) = true) by (apply is_perm_pmul; assumption).
  assert (Hx : is_perm n (pmul (pinv b) (pinv a)) = true)
    by (apply is_perm_pmul; apply is_perm_pinv; assumption).
  assert (Hia := is_perm_pinv _ _ Ha). assert (Hib := is_perm_pinv _ _ Hb).
  assert (Hic := is_perm_pinv _ _ Hc).
  assert (L : forall x y, is_perm n x = true -> is_perm n y = true ->
              Forall (fun k => (k < length y)%nat) x).
  { intros x y Hx' Hy'. rewrite (is_perm_length _ _ Hy'). apply is_perm_bound. assumption. }
  assert (E : pmul (pmul a b) (pmul (pinv b) (pinv a)) = idp n).
  { rewrite pmul_assoc by eauto. rewrite <- (pmul_assoc b) by eauto.
    rewrite (pmul_pinv_l _ _ Hb). rewrite (pmul_idp_l' n) by (apply is_perm_length; assumption).
    apply pmul_pinv_l. assumption. }
  rewrite <- (pmul_idp_l' n (pmul (pinv b) (pinv a))) by (apply is_perm_length; assumption).
  rewrite <- (pmul_pinv_r _ _ Hc).
  rewrite pmul_assoc by eauto. rewrite E.
  symmetry. apply pmul_idp_r. apply is_perm_bound. assumption.
Qed.

Lemma inverse_seq_app d1 d2 :
  inverse_seq (d1 ++ d2) = (inverse_seq d2 ++ inverse_seq d1)%list.
Proof. unfold inverse_seq. rewrite rev_app_distr, map_app. reflexivity. Qed.

Lemma cinv_cmul a b :
  cwf a = true -> cwf b = true ->
  cpow_body (cmul a b) (-1) = cmul (cpow_body b (-1)) (cpow_body a (-1)).
Proof.
  intros Ha Hb. apply cwf_spec in Ha, Hb.
  destruct Ha as (A1 & A2 & A3 & A4), Hb as (B1 & B2 & B3 & B4).
  unfold cpow_body, cmul. cbn [Z.eqb c8 c24 e12 e24 toks]. rewrite !ppow_inv.
  rewrite (pinv_pmul 8), (pinv_pmul 24 (c24 a)), (pinv_pmul 12), (pinv_pmul 24 (e24 a))
    by assumption.
  rewrite inverse_seq_app. reflexivity.
Qed.

Lemma inv_mul a b :
  wf_move a = true -> wf_move b = true ->
  (a * b) ** (-1) = b ** (-1) * a ** (-1).
Proof.
  intros Ha Hb. apply wf_move_embed in Ha, Hb.
  destruct Ha as [Ea Ha], Hb as [Eb Hb]. rewrite Ea, Eb.
  rewrite <- embed_cmul, <- !embed_cpow_body, <- embed_cmul;
    auto using cwf_cmul, cwf_cpow_body.
  rewrite cinv_cmul by assumption. reflexivity.
Qed.

Lemma mul_inv_r a : wf_move a = true -> acts_as_identity (a * a ** (-1)).
Proof.
  intros Ha. unfold wf_move in Ha. rewrite !andb_true_iff in Ha.
  destruct Ha as [[[H1 H2] H3] H4].
  unfold acts_as_identity, mul, pow_body, move_of_matrices. cbn [Z.eqb A8 S3 A12 S2].
  change (mpow ?A (-1)) with (minv A).
  repeat split; eapply minv_correct; eassumption.
Qed.

End Algebra.

(** ** Replaying token lists *)

Module Replay.

Import PermFacts MatrixFacts MoveFacts Algebra.
Local Open Scope move_scope.
Local Open Scope string_scope.

Lemma fund_cases a g : Kube.fund a = Some g -> In (a, g) fund_table.
Proof.
  unfold Kube.fund, fund_table. intros H.
  repeat match type of H with
         | (if String.eqb a ?s then _ else _) = _ =>
             destruct (String.eqb_spec a s);
             [subst a; injection H as <-; simpl; tauto |]
         end.
  discriminate.
Qed.

Ltac fund_case H :=
  apply fund_cases in H; unfold fund_table in H; simpl in H;
  repeat (destruct H as [H | H]; [injection H as <- <- |]); [.. | contradiction].

Lemma fund_wf a g : Kube.fund a = Some g -> wf_move g = true.
Proof. intros H. fund_case H; vm_compute; reflexivity. Qed.

Lemma fund_decompo a g : Kube.fund a = Some g -> decompo g = [a].
Proof. intros H. fund_case H; reflexivity. Qed.

Lemma fund_flip a g :
  Kube.fund a = Some g -> Kube.fund (flip_token a) = Some (g ** (-1)).
Proof. intros H. fund_case H; vm_compute; reflexivity. Qed.

Lemma fund_quarter_turn a : quarter_turn a = true <-> exists g, Kube.fund a = Some g.
Proof.
  split.
  - unfold quarter_turn, quarter_turns. cbn [existsb]. unfold Kube.fund. intros H.
    repeat match goal with
           | |- context [String.eqb a ?s] =>
               destruct (String.eqb_spec a s); [eexists; reflexivity |]
           end.
    discriminate.
  - intros [g H]. fund_case H; reflexivity.
Qed.

Lemma replay_app t1 t2 b :
  Kube.replay (t1 ++ t2) b = bind (Kube.replay t1 b) (Kube.replay t2).
Proof.
  revert b. induction t1 as [| a t1 IH]; intros b; simpl; [reflexivity |].
  destruct (Kube.fund a); [apply IH | reflexivity].
Qed.

Lemma replay_wf ts b x :
  wf_move b = true -> Kube.replay ts b = Ok x -> wf_move x = true.
Proof.
  revert b. induction ts as [| a ts IH]; intros b Hb H; simpl in H.
  - injection H as <-. assumption.
  - destruct (Kube.fund a) as [g |] eqn:E; [| discriminate].
    apply (IH (g * b)); [| assumption]. apply wf_move_mul; eauto using fund_wf.
Qed.

(** Replaying on top of [b] multiplies the replayed move by [b]. *)
Lemma replay_mul ts c b x :
  wf_move c = true -> wf_move b = true ->
  Kube.replay ts c = Ok x -> Kube.replay ts (c * b) = Ok (x * b).
Proof.
  revert c. induction ts as [| a ts IH]; intros c Hc Hb H; simpl in *.
  - injection H as <-. reflexivity.
  - destruct (Kube.fund a) as [g |] eqn:E; [| discriminate].
    rewrite <- mul_assoc by eauto using fund_wf.
    apply IH; auto. apply wf_move_mul; eauto using fund_wf.
Qed.

Lemma replay_from ts b x :
  wf_move b = true ->
  Kube.replay ts (move_of_seq []) = Ok x -> Kube.replay ts b = Ok (x * b).
Proof.
  intros Hb H. rewrite <- (mul_one_l b) at 1 by assumption.
  apply replay_mul; auto.
Qed.

Lemma round_trip_one : round_trip (move_of_seq []).
Proof. split; reflexivity. Qed.

Lemma round_trip_fund a g : Kube.fund a = Some g -> round_trip g.
Proof.
  intros H. split; [eapply fund_wf; eassumption |].
  rewrite (fund_decompo _ _ H). simpl. rewrite H.
  rewrite mul_one_r by (eapply fund_wf; eassumption). reflexivity.
Qed.

Lemma round_trip_mul a b : round_trip a -> round_trip b -> round_trip (a * b).
Proof.
  intros [Wa Ra] [Wb Rb]. split; [apply wf_move_mul; assumption |].
  change (decompo (a * b)) with (decompo b ++ decompo a)%list.
  rewrite replay_app, Rb. simpl. apply replay_from; assumption.
Qed.

Lemma round_trip_inv_aux d :
  forall m, Kube.replay d (move_of_seq []) = Ok m ->
  Kube.replay (inverse_seq d) (move_of_seq []) = Ok (m ** (-1)).
Proof.
  induction d as [| a d IH] using rev_ind; intros m H.
  - injection H as <-. reflexivity.
  - rewrite replay_app in H. inv_bind H. simpl in H.
    destruct (Kube.fund a) as [g |] eqn:E; [| discriminate]. injection H as <-.
    assert (Wa : wf_move a0 = true) by (eapply replay_wf; [| eassumption]; reflexivity).
    rewrite inverse_seq_app. simpl. rewrite (fund_flip _ _ E).
    rewrite mul_one_r by (apply wf_move_pow_body; eapply fund_wf; eassumption).
    rewrite inv_mul by eauto using fund_wf.
    apply replay_from; [apply wf_move_pow_body; eapply fund_wf; eassumption |].
    apply IH. assumption.
Qed.

Lemma round_trip_inv m : round_trip m -> round_trip (m ** (-1)).
Proof.
  intros [W R]. split; [apply wf_move_pow_body; assumption |].
  apply round_trip_inv_aux. assumption.
Qed.

Lemma round_trip_compose_n m k : round_trip m -> round_trip (compose_n m k).
Proof.
  intros H. induction k; simpl; [assumption | apply round_trip_mul; assumption].
Qed.

Lemma repeat_seq_comm (d : list token) n :
  (d ++ repeat_seq d n = repeat_seq d n ++ d)%list.
Proof.
  induction n as [| n IH]; simpl; [rewrite app_nil_r; reflexivity |].
  rewrite app_assoc, IH. reflexivity.
Qed.

Lemma compose_n_fields m k :
  A8 (compose_n m k) = mpow_pos (A8 m) k /\
  S3 (compose_n m k) = mpow_pos (S3 m) k /\
  A12 (compose_n m k) = mpow_pos (A12 m) k /\
  S2 (compose_n m k) = mpow_pos (S2 m) k /\
  decompo (compose_n m k) = repeat_seq (decompo m) (S k).
Proof.
  induction k as [| k (I1 & I2 & I3 & I4 & I5)]; [simpl; tauto |].
  cbn [compose_n mul move_of_matrices A8 S3 A12 S2 decompo mpow_pos].
  rewrite I1, I2, I3, I4, I5. repeat split.
  rewrite repeat_seq_comm. reflexivity.
Qed.

(** [m ** n] for [n >= 1] is the [n]-fold product of [m]. *)
Lemma pow_body_pos m n :
  (1 <= n)%Z -> m ** n = compose_n m (Z.to_nat n - 1).
Proof.
  intros H. unfold pow_body.
  destruct (Z.eqb_spec n 0); [lia |]. destruct (Z.eqb_spec n (-1)); [lia |].
  unfold move_of_matrices, mpow.
  destruct (Z.eqb_spec n 0); [lia |]. destruct (Z.ltb_spec n 0); [lia |].
  set (k := (Z.to_nat n - 1)%nat).
  assert (E : Z.to_nat n = S k) by lia. rewrite E. clearbody k.
  destruct (compose_n_fields m k) as (I1 & I2 & I3 & I4 & I5).
  destruct (compose_n m k) as [a s3 a12 s2 dd].
  cbn [A8 S3 A12 S2 decompo] in *. subst. reflexivity.
Qed.

Lemma round_trip_pow m m' expo : round_trip m -> pow m expo = Ok m' -> round_trip m'.
Proof.
  intros Hm H. unfold pow in H. destruct (Z.gtb_spec expo (-2)); [| discriminate].
  injection H as <-.
  destruct (Z.eq_dec expo 0) as [-> | N0]; [apply round_trip_one |].
  destruct (Z.eq_dec expo (-1)) as [-> | N1]; [apply round_trip_inv; assumption |].
  rewrite pow_body_pos by lia. apply round_trip_compose_n. assumption.
Qed.

Lemma built_round_trip m : built m -> round_trip m.
Proof.
  induction 1; eauto using round_trip_fund, round_trip_mul, round_trip_pow.
Qed.

End Replay.

(** ** The claims on the move algebra *)

Import PermFacts MatrixFacts MoveFacts Algebra Replay.

Lemma pow_guard_passes m expo : (-2 < expo)%Z -> pow m expo = Ok (pow_body m expo).
Proof.
  intros H. unfold pow. destruct (Z.gtb_spec expo (-2)); [reflexivity | lia].
Qed.

Lemma flip_token_quarter_turn t :
  quarter_turn t = true -> flip_token t = flip_direction t.
Proof.
  unfold quarter_turn, quarter_turns. cbn [existsb]. intros H.
  repeat match type of H with
         | (String.eqb t ?s || _)%bool = true =>
             destruct (String.eqb_spec t s); [subst t; reflexivity | simpl in H]
         end.
  discriminate.
Qed.

Module InverseFacts.

Local Open Scope nat_scope.

#[local] Hint Resolve is_perm_bound is_perm_length is_perm_pmul is_perm_pinv is_perm_idp
  : perm.

Lemma pm_inj n p q :
  Forall (fun k => k < n) p -> Forall (fun k => k < n) q -> pm n p = pm n q -> p = q.
Proof.
  intros Hp Hq E. rewrite <- (unpm_pm n p), <- (unpm_pm n q) by assumption.
  rewrite E. reflexivity.
Qed.

Lemma embed_acts_as_identity c :
  cwf c = true ->
  (acts_as_identity (embed c) <->
   c8 c = idp 8 /\ c24 c = idp 24 /\ e12 c = idp 12 /\ e24 c = idp 24).
Proof.
  intros W. pose proof W as W'. apply cwf_spec in W'. destruct W' as (P1 & P2 & P3 & P4).
  unfold acts_as_identity, embed. cbn [A8 S3 A12 S2]. rewrite !eye_pm.
  split.
  - intros (E1 & E2 & E3 & E4).
    apply pm_inj in E1, E2, E3, E4; auto with perm.
  - intros (-> & -> & -> & ->). repeat split.
Qed.

Lemma embed_same_action a b :
  cwf a = true -> cwf b = true ->
  (same_action (embed a) (embed b) <->
   c8 a = c8 b /\ c24 a = c24 b /\ e12 a = e12 b /\ e24 a = e24 b).
Proof.
  intros Wa Wb. apply cwf_spec in Wa, Wb.
  destruct Wa as (P1 & P2 & P3 & P4), Wb as (Q1 & Q2 & Q3 & Q4).
  unfold same_action, embed. cbn [A8 S3 A12 S2]. split.
  - intros (E1 & E2 & E3 & E4).
    apply pm_inj in E1, E2, E3, E4; auto with perm.
  - intros (-> & -> & -> & ->). repeat split.
Qed.

Lemma passoc n a b c :
  is_perm n a = true -> is_perm n b = true -> pmul (pmul a b) c = pmul a (pmul b c).
Proof.
  intros Ha Hb. apply pmul_assoc. rewrite (is_perm_length _ _ Hb). auto with perm.
Qed.

Lemma mul_inv_l a : wf_move a = true -> acts_as_identity (a ** (-1) * a).
Proof.
  intros Ha. unfold wf_move in Ha. rewrite !andb_true_iff in Ha.
  destruct Ha as [[[H1 H2] H3] H4].
  unfold acts_as_identity, mul, pow_body, move_of_matrices. cbn [Z.eqb A8 S3 A12 S2].
  change (mpow ?A (-1)) with (minv A).
  repeat split; eapply minv_correct; eassumption.
Qed.

Lemma pleft_right_inverse n r a r' :
  is_perm n r = true -> is_perm n a = true -> is_perm n r' = true ->
  pmul r a = idp n -> pmul a r' = idp n -> r' = r.
Proof.
  intros Hr Ha Hr' E1 E2.
  rewrite <- (pmul_idp_l' n r') by auto with perm.
  rewrite <- E1, (passoc n) by assumption.
  rewrite E2. apply pmul_idp_r. auto with perm.
Qed.

(** A right inverse of a well-formed move acts as any left inverse. *)
Lemma inverse_action_unique m r r' :
  wf_move m = true -> wf_move r = true -> wf_move r' = true ->
  acts_as_identity (r * m) -> acts_as_identity (m * r') -> same_action r' r.
Proof.
  intros Wm Wr Wr' L R.
  apply wf_move_embed in Wm, Wr, Wr'.
  destruct Wm as [Em Cm], Wr as [Er Cr], Wr' as [Er' Cr'].
  set (cm := abstract m) in *. set (cr := abstract r) in *. set (cr' := abstract r') in *.
  clearbody cm cr cr'. subst m r r'.
  rewrite <- embed_cmul in L, R by assumption.
  apply embed_acts_as_identity in L, R; try (apply cwf_cmul; assumption).
  apply embed_same_action; try assumption.
  apply cwf_spec in Cm, Cr, Cr'.
  destruct Cm as (M1 & M2 & M3 & M4), Cr as (R1 & R2 & R3 & R4),
    Cr' as (Q1 & Q2 & Q3 & Q4).
  unfold cmul in L, R. cbn [c8 c24 e12 e24] in L, R.
  destruct L as (L1 & L2 & L3 & L4), R as (N1 & N2 & N3 & N4).
  repeat split.
  - exact (pleft_right_inverse 8 _ _ _ R1 M1 Q1 L1 N1).
  - exact (pleft_right_inverse 24 _ _ _ R2 M2 Q2 L2 N2).
  - exact (pleft_right_inverse 12 _ _ _ R3 M3 Q3 L3 N3).
  - exact (pleft_right_inverse 24 _ _ _ R4 M4 Q4 L4 N4).
Qed.

Lemma pow_inverse_of m :
  wf_move m = true ->
  Forall (fun t => quarter_turn t = true) (decompo m) ->
  inverse_of m (m ** (-1)).
Proof.
  intros W Hq. unfold inverse_of. split; [apply wf_move_pow_body; assumption |].
  split; [apply mul_inv_r; assumption |]. split; [apply mul_inv_l; assumption |].
  unfold pow_body, move_of_matrices. cbn [Z.eqb Pos.eqb decompo].
  unfold inverse_seq. apply map_ext_in. intros t Ht.
  apply flip_token_quarter_turn. rewrite Forall_forall in Hq. apply Hq.
  apply in_rev. assumption.
Qed.

End InverseFacts.

Import InverseFacts.

(** C7. [m ** 0] is the identity move with no token.  On a well-formed move
    whose tokens are quarter-turn symbols, [m ** (-1)] is the inverse of
    the specification: a well-formed move that undoes [m] on both sides,
    with the tokens of [m] reversed and flipped, and every well-formed move
    that undoes [m] has its four matrices.  [m ** n] for [n >= 1] is [m]
    multiplied [n] times by [__mul__]; and an exponent below -1 raises
    [ValueError], no product being formed. *)
Theorem power_cases (m : move) :
  wf_move m = true ->
  Forall (fun t => quarter_turn t = true) (decompo m) ->
  pow m 0 = Ok (move_of_seq []) /\
  (exists r : move,
     pow m (-1) = Ok r /\ inverse_of m r /\
     forall r' : move,
       wf_move r' = true -> acts_as_identity (m * r') -> same_action r' r) /\
  (forall n : Z, (1 <= n)%Z -> pow m n = Ok (compose_n m (Z.to_nat n - 1))) /\
  (forall n : Z, (n < -1)%Z -> pow m n = Err ValueError).
Proof.
  intros W Hq. split; [| split; [| split]].
  - rewrite pow_guard_passes by lia. reflexivity.
  - exists (m ** (-1)). pose proof (pow_inverse_of m W Hq) as I.
    split; [apply pow_guard_passes; lia |]. split; [exact I |].
    intros r' W' R. destruct I as (Wr & _ & L & _).
    exact (inverse_action_unique m _ r' W Wr W' L R).
  - intros n Hn. rewrite pow_guard_passes by lia. rewrite pow_body_pos by assumption.
    reflexivity.
  - intros n Hn. unfold pow. destruct (Z.gtb_spec n (-2)); [lia | reflexivity].
Qed.

Lemma power_cases_witness :
  wf_move Kube.F = true /\
  Forall (fun t => quarter_turn t = true) (decompo Kube.F) /\
  pow Kube.F 0 = Ok (move_of_seq []) /\
  (exists r : move,
     pow Kube.F (-1) = Ok r /\ inverse_of Kube.F r /\
     forall r' : move,
       wf_move r' = true -> acts_as_identity (Kube.F * r') -> same_action r' r) /\
  (forall n : Z, (1 <= n)%Z -> pow Kube.F n = Ok (compose_n Kube.F (Z.to_nat n - 1))) /\
  (forall n : Z, (n < -1)%Z -> pow Kube.F n = Err ValueError).
Proof.
  assert (W : wf_move Kube.F = true) by (vm_compute; reflexivity).
  assert (H : Forall (fun t => quarter_turn t = true) (decompo Kube.F)).
  { repeat constructor. }
  split; [exact W |]. split; [exact H | exact (power_cases Kube.F W H)].
Defined.

(** C8. For a well-formed move [m], the product [m * m ** (-1)] has the
    identity permutation matrices for corners and edges and the identity
    orientation matrices. *)
Theorem mul_inverse_identity (m : move) :
  wf_move m = true -> acts_as_identity (m * m ** (-1)).
Proof. apply mul_inv_r. Qed.

Lemma mul_inverse_identity_witness :
  wf_move Kube.M0 = true /\ acts_as_identity (Kube.M0 * Kube.M0 ** (-1)).
Proof.
  assert (H : wf_move Kube.M0 = true) by (vm_compute; reflexivity).
  split; [exact H | exact (mul_inverse_identity Kube.M0 H)].
Defined.

(** C2. Replaying the tokens of a move built from the fundamental moves
    by products, inverses and powers, from the identity, gives the move
    back: its four matrices and its token list. *)
Theorem replay_round_trip (m : move) :
  built m ->
  exists r, Kube.replay (decompo m) (move_of_seq []) = Ok r /\
    A8 r = A8 m /\ A12 r = A12 m /\ S3 r = S3 m /\ S2 r = S2 m /\
    decompo r = decompo m.
Proof.
  intros H. apply built_round_trip in H. destruct H as [_ H].
  exists m. repeat split. assumption.
Qed.

Lemma replay_round_trip_witness :
  built (Kube.F * Kube.r) /\
  exists r, Kube.replay (decompo (Kube.F * Kube.r)) (move_of_seq []) = Ok r /\
    A8 r = A8 (Kube.F * Kube.r) /\ A12 r = A12 (Kube.F * Kube.r) /\
    S3 r = S3 (Kube.F * Kube.r) /\ S2 r = S2 (Kube.F * Kube.r) /\
    decompo r = decompo (Kube.F * Kube.r).
Proof.
  assert (H : built (Kube.F * Kube.r)).
  { apply built_mul.
    - apply (built_fund "F"%string). reflexivity.
    - apply (@built_pow Kube.R Kube.r (-1)%Z).
      + apply (built_fund "R"%string). reflexivity.
      + reflexivity. }
  split; [exact H | exact (replay_round_trip (Kube.F * Kube.r) H)].
Defined.

(** ** The connector search *)

Module SearchFacts.

Local Open Scope nat_scope.
Local Open Scope move_scope.

(** The recursive equation of the source: the guard [n_combi > maxMove],
    the candidates, the test, the recursive call at [n_combi + 1]. *)
Lemma search_unfold accept auth maxMove n_combi prev :
  search accept auth (maxMove + 1 - n_combi) n_combi prev =
  if maxMove <? n_combi then Ok None
  else
    bind (candidates n_combi
            (if n_combi =? 1 then move_of_seq [] :: auth else auth) prev)
      (fun cur =>
         bind (first_accepted accept cur)
           (fun hit =>
              match hit with
              | Some m => Ok (Some m)
              | None =>
                  search accept auth (maxMove + 1 - (n_combi + 1)) (n_combi + 1)
                    (filter has_tokens cur)
              end)).
Proof.
  destruct (Nat.ltb_spec maxMove n_combi) as [H | H].
  - replace (maxMove + 1 - n_combi) with 0 by lia. reflexivity.
  - replace (maxMove + 1 - n_combi) with (S (maxMove + 1 - (n_combi + 1))) by lia.
    reflexivity.
Qed.

Lemma extend_first m prev : extend 1 m prev = Ok (map (mul m) prev).
Proof.
  induction prev as [| g prev IH]; simpl; [reflexivity |].
  simpl in IH. rewrite IH. reflexivity.
Qed.

Lemma candidates_first fact prev :
  candidates 1 fact prev = Ok (flat_map (fun m => map (mul m) prev) fact).
Proof.
  induction fact as [| m fact IH]; [reflexivity |].
  cbn [candidates flat_map]. rewrite extend_first, IH. reflexivity.
Qed.

Lemma first_accepted_sound accept cur m :
  first_accepted accept cur = Ok (Some m) -> In m cur /\ accept m = Ok true.
Proof.
  induction cur as [| x cur IH]; simpl; [discriminate |].
  destruct (accept x) as [[|] |] eqn:E; simpl; try discriminate.
  - intros H. injection H as <-. auto.
  - intros H. apply IH in H. tauto.
Qed.

Lemma first_accepted_none accept cur :
  first_accepted accept cur = Ok None -> forall m, In m cur -> accept m = Ok false.
Proof.
  induction cur as [| x cur IH]; simpl; [tauto |].
  destruct (accept x) as [[|] |] eqn:E; simpl; try discriminate.
  intros H m [<- | Hm]; auto.
Qed.

Lemma first_accepted_total accept cur :
  (forall m, In m cur -> exists t, accept m = Ok t) ->
  exists r, first_accepted accept cur = Ok r.
Proof.
  induction cur as [| x cur IH]; simpl; intros H; [eauto |].
  destruct (H x (or_introl eq_refl)) as [t ->]. simpl.
  destruct t; [eauto |]. apply IH. auto.
Qed.

(** A move returned by a search passed the acceptance test. *)
Lemma search_sound accept auth left n_combi prev m :
  search accept auth left n_combi prev = Ok (Some m) -> accept m = Ok true.
Proof.
  revert n_combi prev. induction left as [| left IH]; intros n_combi prev H; simpl in H;
    [discriminate |].
  inv_bind H. inv_bind H. destruct a0 as [m' |].
  - injection H as <-. apply first_accepted_sound in Ha0. tauto.
  - apply IH in H. assumption.
Qed.

(** The identity is the first candidate of depth 1. *)
Lemma search_identity_first accept auth left :
  accept (move_of_seq [] * move_of_seq []) = Ok true ->
  search accept auth (S left) 1 prev0 = Ok (Some (move_of_seq [])).
Proof.
  intros H. cbn [search Nat.eqb]. rewrite candidates_first.
  cbn [bind flat_map prev0 map app first_accepted]. rewrite H. reflexivity.
Qed.

Lemma nth_error_column_range n cl :
  cl < n -> nth_error (column (range n)) cl = Some [Z.of_nat cl].
Proof.
  intros H. unfold column, range. rewrite map_map.
  rewrite nth_error_map.
  rewrite (nth_error_nth' _ 0) by (rewrite length_seq; assumption).
  rewrite seq_nth by assumption. reflexivity.
Qed.

Lemma row_eq_range n cl cb :
  cl < n -> row_eq (column (range n)) cl cb = Ok (Z.of_nat cl =? cb)%Z.
Proof. intros H. unfold row_eq. rewrite nth_error_column_range by assumption. reflexivity. Qed.

Lemma in_rows_after_range n cl k :
  cl < k < n -> in_rows_after (column (range n)) cl (Z.of_nat k) = true.
Proof.
  intros H. unfold in_rows_after. apply existsb_exists. exists [Z.of_nat k]. split.
  - unfold column, range. rewrite map_map, skipn_map. apply in_map_iff.
    exists k. split; [reflexivity |]. rewrite skipn_seq. apply in_seq. lia.
  - simpl. rewrite Z.eqb_refl. reflexivity.
Qed.

End SearchFacts.

Import SearchFacts.

(** C10. When the solved configuration already has the required cubies in
    the target slots, each of the four searches returns the identity move
    with the empty token list, whatever the authorized moves, for any
    positive bound; conjugating a well-formed switcher by it gives the
    switcher back. *)
Theorem search_returns_identity (auth : list move) (maxMove : nat) :
  (1 <= maxMove)%nat ->
  (forall cl1 cl2 cb1 cb2, (cl1 < 8)%nat -> (cl2 < 8)%nat ->
     (cb1 = Z.of_nat cl1 /\ cb2 = Z.of_nat cl2) \/
     (cb1 = Z.of_nat cl2 /\ cb2 = Z.of_nat cl1) ->
     send_8 cb1 cb2 cl1 cl2 auth maxMove 1 prev0 = Ok (Some (move_of_seq []))) /\
  (forall cl1 cl2, (cl1 < 8)%nat -> (cl2 < 8)%nat ->
     send_8_slow (Z.of_nat cl1) (Z.of_nat cl2) cl1 cl2 auth maxMove 1 prev0
     = Ok (Some (move_of_seq []))) /\
  (forall cl1 cl2 k, (cl1 < 12)%nat -> (cl2 < 12)%nat -> (cl1 < k < 12)%nat ->
     send_12 (Z.of_nat cl1) (Z.of_nat cl2) (Z.of_nat k) cl1 cl2 auth maxMove 1 prev0
     = Ok (Some (move_of_seq []))) /\
  (forall cl1 cl2, (cl1 < 12)%nat -> (cl2 < 12)%nat ->
     send_12_slow (Z.of_nat cl1) (Z.of_nat cl2) cl1 cl2 auth maxMove 1 prev0
     = Ok (Some (move_of_seq []))) /\
  (forall A, wf_move A = true -> decompo (move_of_seq []) = [] /\
     A8 (conjugate A (move_of_seq [])) = A8 A /\
     S3 (conjugate A (move_of_seq [])) = S3 A /\
     A12 (conjugate A (move_of_seq [])) = A12 A /\
     S2 (conjugate A (move_of_seq [])) = S2 A /\
     decompo (conjugate A (move_of_seq [])) = decompo A).
Proof.
  intros Hm.
  assert (E : (maxMove + 1 - 1 = S (maxMove - 1))%nat) by lia.
  assert (Y8 : mmul (A8 (move_of_seq [] * move_of_seq [])) (column (range 8))
               = column (range 8)) by reflexivity.
  assert (Y12 : mmul (A12 (move_of_seq [] * move_of_seq [])) (column (range 12))
                = column (range 12)) by reflexivity.
  repeat apply conj.
  - intros cl1 cl2 cb1 cb2 H1 H2 H. unfold send_8. rewrite E.
    apply search_identity_first. unfold accept_8. rewrite Y8.
    rewrite !row_eq_range by assumption. unfold orr, andr, bind.
    destruct H as [[-> ->] | [-> ->]]; rewrite !Z.eqb_refl.
    + reflexivity.
    + destruct (Z.of_nat cl1 =? Z.of_nat cl2)%Z;
        destruct (Z.of_nat cl2 =? Z.of_nat cl1)%Z; reflexivity.
  - intros cl1 cl2 H1 H2. unfold send_8_slow. rewrite E.
    apply search_identity_first. unfold accept_8_slow. rewrite Y8.
    rewrite !row_eq_range by assumption. unfold andr, bind.
    rewrite !Z.eqb_refl. reflexivity.
  - intros cl1 cl2 k H1 H2 H3. unfold send_12. rewrite E.
    apply search_identity_first. unfold accept_12. rewrite Y12.
    rewrite !row_eq_range by assumption. unfold andr, bind.
    rewrite !Z.eqb_refl. rewrite in_rows_after_range by assumption. reflexivity.
  - intros cl1 cl2 H1 H2. unfold send_12_slow. rewrite E.
    apply search_identity_first. unfold accept_12_slow. rewrite Y12.
    rewrite !row_eq_range by assumption. unfold andr, bind.
    rewrite !Z.eqb_refl. reflexivity.
  - intros A HA. unfold conjugate.
    change (move_of_seq [] ** (-1)) with (move_of_seq []).
    rewrite mul_one_l, mul_one_r by assumption. tauto.
Qed.

Lemma search_returns_identity_witness :
  (1 <= 5)%nat /\
  send_8 1 3 1 3 Kube.fund_l 5 1 prev0 = Ok (Some (move_of_seq [])).
Proof.
  assert (H : (1 <= 5)%nat) by lia.
  split; [exact H |].
  apply (proj1 (search_returns_identity Kube.fund_l 5 H) 1%nat 3%nat 1%Z 3%Z);
    [lia | lia | left; split; reflexivity].
Defined.

(** ** The candidates of a depth after the first *)

Module PruneFacts.

Local Open Scope nat_scope.
Local Open Scope move_scope.

Lemma last_error_some {X : Type} (l : list X) : l <> [] -> exists x, last_error l = Some x.
Proof.
  induction l as [| a l IH]; [congruence |]. intros _.
  destruct l as [| b l]; [exists a; reflexivity |].
  destruct IH as [x Hx]; [congruence |]. exists x. exact Hx.
Qed.

Lemma cancels_ok m g :
  has_tokens m = true -> has_tokens g = true -> cancels m g = Ok (cancelb m g).
Proof.
  unfold has_tokens, cancels, cancelb. intros Hm Hg.
  destruct (decompo m) as [| m0 dm]; [discriminate |].
  destruct (decompo g) as [| g0 dg] eqn:E; [discriminate |].
  destruct (@last_error_some token (g0 :: dg)) as [gl Hgl]; [congruence |].
  rewrite Hgl. reflexivity.
Qed.

Lemma extend_later n_combi m prev :
  n_combi <> 1 -> has_tokens m = true ->
  Forall (fun g => has_tokens g = true) prev ->
  extend n_combi m prev
  = Ok (flat_map (fun g => if cancelb m g then [] else [m * g]) prev).
Proof.
  intros Hn Hm Hp. induction Hp as [| g prev Hg Hp IH]; [reflexivity |].
  cbn [extend flat_map]. destruct (Nat.eqb_spec n_combi 1); [contradiction |].
  rewrite cancels_ok, IH by assumption. reflexivity.
Qed.

Lemma candidates_later n_combi fact prev :
  n_combi <> 1 ->
  Forall (fun m => has_tokens m = true) fact ->
  Forall (fun g => has_tokens g = true) prev ->
  candidates n_combi fact prev
  = Ok (flat_map (fun m => flat_map (fun g => if cancelb m g then [] else [m * g]) prev)
          fact).
Proof.
  intros Hn Hf Hp. induction Hf as [| m fact Hm Hf IH]; [reflexivity |].
  cbn [candidates flat_map]. rewrite extend_later, IH by assumption. reflexivity.
Qed.

Lemma upper_lower_quarter_turn m0 gl :
  quarter_turn m0 = true ->
  ((String.eqb (upper m0) m0 && String.eqb gl (lower m0))
   || (String.eqb (lower m0) m0 && String.eqb gl (upper m0))
   || String.eqb m0 gl)%bool
  = (String.eqb gl (flip_direction m0) || String.eqb gl m0)%bool.
Proof.
  unfold quarter_turn, quarter_turns. cbn [existsb]. intros H.
  rewrite (String.eqb_sym m0 gl).
  repeat match type of H with
         | (String.eqb m0 ?s || _)%bool = true =>
             destruct (String.eqb_spec m0 s);
             [subst m0; cbn; rewrite ?orb_false_r; reflexivity | simpl in H]
         end.
  discriminate.
Qed.

Lemma flat_map_ext_in {X Y : Type} (f g : X -> list Y) (l : list X) :
  (forall x, In x l -> f x = g x) -> flat_map f l = flat_map g l.
Proof.
  induction l as [| a l IH]; intros H; simpl; [reflexivity |].
  rewrite (H a) by (left; reflexivity). rewrite IH; [reflexivity |].
  intros x Hx. apply H. right. assumption.
Qed.

Lemma cancelb_pruned m g :
  (exists m0, hd_error (decompo m) = Some m0 /\ quarter_turn m0 = true) ->
  cancelb m g = pruned m g.
Proof.
  intros (m0 & H0 & Hq). unfold cancelb, pruned.
  destruct (decompo m) as [| x dm]; [discriminate |]. injection H0 as ->.
  cbn [hd_error]. destruct (last_error (decompo g)) as [gl |]; [| reflexivity].
  apply upper_lower_quarter_turn. assumption.
Qed.

End PruneFacts.

Import PruneFacts.

(** C5, as amended.  At a depth after the first, the candidate list holds
    the product [m * g] of an authorized move and a surviving candidate,
    in the order of the two loops, exactly when the last token of [g] is
    neither the face-inverse of the first token of [m] nor that same
    token. *)
Theorem candidates_pruning (n_combi : nat) (fact prev : list move) :
  n_combi <> 1%nat ->
  Forall (fun m => exists m0, hd_error (decompo m) = Some m0 /\ quarter_turn m0 = true)
         fact ->
  Forall (fun g => has_tokens g = true) prev ->
  candidates n_combi fact prev
  = Ok (flat_map (fun m => flat_map (fun g => if pruned m g then [] else [m * g]) prev)
          fact).
Proof.
  intros Hn Hf Hp. rewrite candidates_later; try assumption.
  - f_equal. apply flat_map_ext_in. intros m Hm. apply flat_map_ext. intros g.
    rewrite Forall_forall in Hf. rewrite cancelb_pruned by auto. reflexivity.
  - eapply Forall_impl; [| exact Hf]. intros m (m0 & H0 & _).
    unfold has_tokens. destruct (decompo m); [discriminate | reflexivity].
Qed.

Lemma candidates_pruning_witness :
  candidates 2 [Kube.F; Kube.u] [Kube.F; Kube.U; Kube.R]
  = Ok [Kube.F * Kube.U; Kube.F * Kube.R; Kube.u * Kube.F; Kube.u * Kube.R].
Proof.
  refine (candidates_pruning 2 [Kube.F; Kube.u] [Kube.F; Kube.U; Kube.R] _ _ _).
  - discriminate.
  - repeat constructor; eexists; (split; [reflexivity | reflexivity]).
  - repeat constructor.
Defined.

(** C5 as stated fails: with [m = g = F] the product is not a candidate
    although "F" is not the face-inverse of "F". *)
Lemma only_inverse_pruned_fails :
  ~ (forall (n_combi : nat) (m g : move) (m0 gl : token) (cur : list move),
       (1 < n_combi)%nat ->
       hd_error (decompo m) = Some m0 -> last_error (decompo g) = Some gl ->
       candidates n_combi [m] [g] = Ok cur ->
       (In (m * g) cur <-> m0 <> flip_direction gl)).
Proof.
  intros H.
  specialize (H 2%nat Kube.F Kube.F "F"%string "F"%string []).
  assert (E : In (Kube.F * Kube.F) [] <-> "F"%string <> flip_direction "F"%string).
  { apply H; [lia | reflexivity | reflexivity | reflexivity]. }
  apply E. discriminate.
Qed.

(** ** Termination and outcome of the searches *)

Module OutcomeFacts.

Local Open Scope nat_scope.
Local Open Scope move_scope.

Lemma nrows_mmul A B : nrows (mmul A B) = nrows A.
Proof. unfold nrows, mmul. apply length_map. Qed.

Lemma shape_ok_mul m g : shape_ok m -> shape_ok (m * g).
Proof.
  intros [H1 H2]. unfold shape_ok, mul, move_of_matrices. cbn [A8 A12].
  rewrite !nrows_mmul. tauto.
Qed.

Lemma expressible_shape auth n m :
  Forall authorized_ok auth -> expressible auth n m -> shape_ok m.
Proof.
  intros Ha H. rewrite Forall_forall in Ha.
  destruct H as [| m Hm | n m g Hm Hg].
  - split; reflexivity.
  - apply shape_ok_mul. destruct (Ha m Hm) as (H1 & H2 & _). split; assumption.
  - apply shape_ok_mul. destruct (Ha m Hm) as (H1 & H2 & _). split; assumption.
Qed.

(** The rows of a matrix times a non-empty column are single entries. *)
Lemma nth_error_mmul_column A v cl :
  v <> [] -> cl < nrows A ->
  exists x, nth_error (mmul A (column v)) cl = Some [x].
Proof.
  intros Hv Hcl. unfold mmul. rewrite nth_error_map.
  destruct (nth_error A cl) as [r |] eqn:E.
  - destruct v as [| v0 v]; [congruence |]. simpl. eauto.
  - apply nth_error_None in E. unfold nrows in Hcl. lia.
Qed.

Lemma row_eq_total A v cl cb :
  v <> [] -> cl < nrows A -> exists t, row_eq (mmul A (column v)) cl cb = Ok t.
Proof.
  intros Hv Hcl. destruct (nth_error_mmul_column A v cl Hv Hcl) as [x Hx].
  unfold row_eq. rewrite Hx. eauto.
Qed.

Lemma andr_total a b :
  (exists t, a = Ok t) -> (exists t, b = Ok t) -> exists t, andr a b = Ok t.
Proof. intros [[|] ->] [t ->]; simpl; eauto. Qed.

Lemma orr_total a b :
  (exists t, a = Ok t) -> (exists t, b = Ok t) -> exists t, orr a b = Ok t.
Proof. intros [[|] ->] [t ->]; simpl; eauto. Qed.

Lemma range_nonempty n : 0 < n -> range n <> [].
Proof. destruct n; [lia |]. discriminate. Qed.

Lemma accept_8_total cb1 cb2 cl1 cl2 m :
  cl1 < 8 -> cl2 < 8 -> shape_ok m -> exists t, accept_8 cb1 cb2 cl1 cl2 m = Ok t.
Proof.
  intros H1 H2 [S8 _]. unfold accept_8.
  apply orr_total; apply andr_total; apply row_eq_total;
    try (apply range_nonempty; lia); rewrite S8; assumption.
Qed.

Lemma accept_8_slow_total cb1 cb2 cl1 cl2 m :
  cl1 < 8 -> cl2 < 8 -> shape_ok m -> exists t, accept_8_slow cb1 cb2 cl1 cl2 m = Ok t.
Proof.
  intros H1 H2 [S8 _]. unfold accept_8_slow.
  apply andr_total; apply row_eq_total;
    try (apply range_nonempty; lia); rewrite S8; assumption.
Qed.

Lemma accept_12_total cb1 cb2 cb3 cl1 cl2 m :
  cl1 < 12 -> cl2 < 12 -> shape_ok m -> exists t, accept_12 cb1 cb2 cb3 cl1 cl2 m = Ok t.
Proof.
  intros H1 H2 [_ S12]. unfold accept_12.
  apply andr_total; [apply andr_total; apply row_eq_total;
    try (apply range_nonempty; lia); rewrite S12; assumption | eauto].
Qed.

Lemma accept_12_slow_total cb1 cb2 cl1 cl2 m :
  cl1 < 12 -> cl2 < 12 -> shape_ok m -> exists t, accept_12_slow cb1 cb2 cl1 cl2 m = Ok t.
Proof.
  intros H1 H2 [_ S12]. unfold accept_12_slow.
  apply andr_total; apply row_eq_total;
    try (apply range_nonempty; lia); rewrite S12; assumption.
Qed.

End OutcomeFacts.

Import OutcomeFacts.

Module LimitFacts.

Local Open Scope nat_scope.
Local Open Scope move_scope.

(** *** The limited search agrees with [search] when the limits are not
        reached *)

Lemma extend_count n_combi m prev cur :
  extend n_combi m prev = Ok cur -> length cur <= length prev.
Proof.
  revert cur. induction prev as [| g prev IH]; intros cur H; cbn [extend] in H.
  - injection H as <-. reflexivity.
  - inv_bind H. inv_bind H. injection H as <-.
    specialize (IH _ Ha0). rewrite length_app. cbn [length].
    destruct (n_combi =? 1).
    + injection Ha as <-. cbn [length]. lia.
    + inv_bind Ha. injection Ha as <-. destruct a1; cbn [length]; lia.
Qed.

Lemma candidates_count n_combi fact prev cur :
  candidates n_combi fact prev = Ok cur -> length cur <= (length fact * length prev)%nat.
Proof.
  revert cur. induction fact as [| m fact IH]; intros cur H; cbn [candidates] in H.
  - injection H as <-. cbn. lia.
  - inv_bind H. inv_bind H. injection H as <-.
    apply extend_count in Ha. specialize (IH _ Ha0).
    rewrite length_app. cbn [length]. lia.
Qed.

Lemma extend_within_exact n_combi m prev : forall room,
  length prev <= room ->
  extend_within room n_combi m prev =
  match extend n_combi m prev with
  | Ok cur => Done (Ok (cur, room - length cur))
  | Err e => Done (Err e)
  end.
Proof.
  induction prev as [| g prev IH]; intros room H; cbn [extend_within extend].
  - cbn [bind length]. rewrite Nat.sub_0_r. reflexivity.
  - cbn [length] in H.
    assert (Hc : (if n_combi =? 1 then Ok [m * g]
                  else bind (cancels m g) (fun c => Ok (if c then [] else [m * g])))
                 = bind (if n_combi =? 1 then Ok false else cancels m g)
                     (fun c => Ok (if c then [] else [m * g]))).
    { destruct (n_combi =? 1); reflexivity. }
    rewrite Hc. clear Hc.
    destruct (if n_combi =? 1 then Ok false else cancels m g) as [[|] | e]; cbn [bind].
    + rewrite IH by lia. destruct (extend n_combi m prev); reflexivity.
    + destruct room as [| room]; [lia |]. rewrite IH by lia.
      destruct (extend n_combi m prev) as [rest | e]; cbn [bind app length];
        reflexivity.
    + reflexivity.
Qed.

Lemma candidates_within_exact n_combi prev fact : forall room,
  (length fact * length prev)%nat <= room ->
  candidates_within room n_combi fact prev =
  match candidates n_combi fact prev with
  | Ok cur => Done (Ok (cur, room - length cur))
  | Err e => Done (Err e)
  end.
Proof.
  induction fact as [| m fact IH]; intros room H; cbn [candidates_within candidates].
  - cbn [length]. rewrite Nat.sub_0_r. reflexivity.
  - cbn [length] in H. rewrite extend_within_exact by lia.
    destruct (extend n_combi m prev) as [a | e] eqn:Ea; cbn [bind]; [| reflexivity].
    pose proof (extend_count _ _ _ _ Ea) as La.
    rewrite IH by lia.
    destruct (candidates n_combi fact prev) as [b | e]; cbn [bind]; [| reflexivity].
    rewrite length_app. do 3 f_equal. lia.
Qed.

Lemma work_mono a left : forall p p' first,
  p <= p' -> work a p left first <= work a p' left first.
Proof.
  induction left as [| left IH]; intros p p' first H; cbn [work]; [lia |].
  assert (Hc : ((if first then S a else a) * p <= (if first then S a else a) * p')%nat)
    by (apply Nat.mul_le_mono_l; assumption).
  specialize (IH _ _ false Hc). lia.
Qed.

Section Exact.

Variable accept : move -> res bool.
Variable auth : list move.

Lemma search_within_exact left : forall frames room n_combi prev,
  1 <= n_combi -> left < frames ->
  work (length auth) (length prev) left (n_combi =? 1) <= room ->
  search_within accept auth frames room left n_combi prev
  = Done (search accept auth left n_combi prev).
Proof.
  induction left as [| left IH]; intros frames room n_combi prev Hn Hf Hw;
    (destruct frames as [| frames]; [lia |]); cbn [search_within search];
    [reflexivity |].
  cbn [work] in Hw.
  set (fact := if n_combi =? 1 then move_of_seq [] :: auth else auth) in *.
  assert (Lf : length fact = if n_combi =? 1 then S (length auth) else length auth).
  { unfold fact. destruct (n_combi =? 1); reflexivity. }
  rewrite <- Lf in Hw.
  rewrite candidates_within_exact by lia.
  destruct (candidates n_combi fact prev) as [cur | e] eqn:Ec; cbn [bind];
    [| reflexivity].
  pose proof (candidates_count _ _ _ _ Ec) as Lc.
  destruct (first_accepted accept cur) as [[m |] | e]; cbn [bind]; try reflexivity.
  apply IH; [lia | lia |].
  replace (n_combi + 1 =? 1) with false
    by (symmetry; apply Nat.eqb_neq; lia).
  assert (Lp : length (filter has_tokens cur) <= (length fact * length prev)%nat).
  { pose proof (filter_length_le has_tokens cur). lia. }
  pose proof (work_mono (length auth) left _ _ false Lp). lia.
Qed.

End Exact.

(** *** The candidates of every depth *)

Lemma explored_pos auth d m : explored auth d m -> 1 <= d.
Proof. intros H. destruct H; lia. Qed.

Lemma explored_expressible auth d m : explored auth d m -> expressible auth d m.
Proof.
  induction 1 as [f [<- | Hf] | d m g Hm Hg IH Ht Hc].
  - constructor.
  - constructor. assumption.
  - constructor; assumption.
Qed.

Lemma explored_one auth x :
  explored auth 1 x <-> exists f, In f (move_of_seq [] :: auth) /\ x = f * move_of_seq [].
Proof.
  split.
  - intros H. inversion H as [f Hf | d m g Hm Hg Ht Hc]; subst.
    + eauto.
    + apply explored_pos in Hg. lia.
  - intros (f & Hf & ->). constructor. assumption.
Qed.

Lemma explored_succ auth d x :
  1 <= d ->
  (explored auth (S d) x <->
   exists m g, In m auth /\ explored auth d g /\ has_tokens g = true /\
     cancelb m g = false /\ x = m * g).
Proof.
  intros Hd. split.
  - intros H. inversion H as [f Hf | d0 m g Hm Hg Ht Hc]; subst.
    + lia.
    + exists m, g. auto.
  - intros (m & g & Hm & Hg & Ht & Hc & ->). constructor; assumption.
Qed.

Section Outcome.

Variable accept : move -> res bool.
Variable auth : list move.
Hypothesis auth_ok : Forall authorized_ok auth.
Hypothesis accept_total : forall m, shape_ok m -> exists t, accept m = Ok t.

Lemma auth_has_tokens : Forall (fun m => has_tokens m = true) auth.
Proof. eapply Forall_impl; [| exact auth_ok]. intros m (_ & _ & H). exact H. Qed.

Lemma candidates_explored n_combi prev :
  prev_inv auth n_combi prev ->
  exists cur,
    candidates n_combi (if n_combi =? 1 then move_of_seq [] :: auth else auth) prev
    = Ok cur /\
    forall x, In x cur <-> explored auth n_combi x.
Proof.
  intros [[-> ->] | [Hn Hp]].
  - cbn [Nat.eqb]. rewrite candidates_first. eexists. split; [reflexivity |].
    intros x. rewrite explored_one, in_flat_map. split.
    + intros (f & Hf & [<- | []]). eauto.
    + intros (f & Hf & ->). exists f. split; [assumption | left; reflexivity].
  - destruct n_combi as [| k]; [lia |].
    replace (S k - 1) with k in Hp by lia.
    destruct (Nat.eqb_spec (S k) 1); [lia |].
    rewrite candidates_later; [| lia | apply auth_has_tokens |
      apply Forall_forall; intros g Hg; apply Hp in Hg; tauto].
    eexists. split; [reflexivity |].
    intros x. rewrite explored_succ by lia. rewrite in_flat_map. split.
    + intros (m & Hm & Hx). apply in_flat_map in Hx. destruct Hx as (g & Hg & Hx).
      destruct (cancelb m g) eqn:Ec; [contradiction |]. destruct Hx as [<- | []].
      apply Hp in Hg. exists m, g. tauto.
    + intros (m & g & Hm & Hg & Ht & Hc & ->). exists m. split; [assumption |].
      apply in_flat_map. exists g. split; [apply Hp; tauto |].
      rewrite Hc. left. reflexivity.
Qed.

Lemma search_explored left : forall n_combi prev,
  prev_inv auth n_combi prev ->
  exists r0, search accept auth left n_combi prev = Ok r0 /\
    (forall m, r0 = Some m ->
       accept m = Ok true /\
       exists d, n_combi <= d < n_combi + left /\ explored auth d m /\
         forall d' m', n_combi <= d' < d -> explored auth d' m' ->
           accept m' = Ok false) /\
    (r0 = None ->
       forall d m, n_combi <= d < n_combi + left -> explored auth d m ->
         accept m = Ok false).
Proof.
  induction left as [| left IH]; intros n_combi prev Hp.
  - exists None. split; [reflexivity |].
    split; [intros m H; discriminate | intros _ d m Hd; lia].
  - cbn [search].
    destruct (candidates_explored n_combi prev Hp) as (cur & -> & Hcur).
    cbn [bind].
    destruct (first_accepted_total accept cur) as [hit Hhit].
    { intros m Hm. apply accept_total. eapply expressible_shape; [exact auth_ok |].
      apply explored_expressible. apply Hcur. exact Hm. }
    rewrite Hhit. cbn [bind]. destruct hit as [m |].
    + apply first_accepted_sound in Hhit. destruct Hhit as [Hin Hacc].
      exists (Some m). split; [reflexivity |]. split.
      * intros m' H. injection H as <-. split; [assumption |].
        exists n_combi. split; [lia |]. split; [apply Hcur; assumption |].
        intros d' m' Hd. lia.
      * discriminate.
    + pose proof (first_accepted_none _ _ Hhit) as Hrej.
      assert (Hn : 1 <= n_combi) by (destruct Hp as [[-> _] | [Hn _]]; lia).
      assert (Hp' : prev_inv auth (n_combi + 1) (filter has_tokens cur)).
      { right. split; [lia |]. intros g.
        replace (n_combi + 1 - 1) with n_combi by lia.
        rewrite filter_In, Hcur. reflexivity. }
      assert (Hhere : forall d m, d = n_combi -> explored auth d m -> accept m = Ok false).
      { intros d m -> He. apply Hrej. apply Hcur. assumption. }
      destruct (IH (n_combi + 1) _ Hp') as (r0 & -> & Hs & Hnone).
      exists r0. split; [reflexivity |]. split.
      * intros m H. destruct (Hs m H) as (Hacc & d & Hr & He & Hbefore).
        split; [assumption |]. exists d. split; [lia |]. split; [assumption |].
        intros d' m' Hd He'. destruct (Nat.eq_dec d' n_combi) as [E | E].
        -- apply (Hhere d'); assumption.
        -- apply (Hbefore d'); [lia | assumption].
      * intros H d m Hd He. destruct (Nat.eq_dec d n_combi) as [E | E].
        -- apply (Hhere d); assumption.
        -- apply (Hnone H d); [lia | assumption].
Qed.

(** A search called with its defaults, on an interpreter with more than
    [maxMove] frames and room for the candidates. *)
Lemma search_outcome_top maxMove frames room :
  maxMove < frames -> search_work (length auth) maxMove <= room ->
  search_outcome auth maxMove accept
    (search_within accept auth frames room (maxMove + 1 - 1) 1 prev0).
Proof.
  intros Hf Hw. replace (maxMove + 1 - 1) with maxMove by lia.
  rewrite search_within_exact; [| lia | assumption | exact Hw].
  destruct (search_explored maxMove 1 prev0) as (r0 & E & Hs & Hn).
  { left. split; reflexivity. }
  exists r0. split; [rewrite E; reflexivity |]. split; [| split].
  - intros m Hm. destruct (Hs m Hm) as (Ha & d & Hr & He & Hb).
    split; [assumption |]. exists d. split; [lia |]. split; [assumption |].
    intros d' m' Hd. apply Hb. lia.
  - intros H d m Hd. apply (Hn H). lia.
  - intros Hrej. destruct r0 as [m |]; [| reflexivity].
    destruct (Hs m eq_refl) as (Ha & d & Hr & He & _).
    rewrite (Hrej d m) in Ha; [discriminate | lia |].
    apply explored_expressible. assumption.
Qed.

End Outcome.

End LimitFacts.

Import LimitFacts.


Module LimitExamples.

Local Open Scope nat_scope.
Local Open Scope move_scope.

Lemma expressible_F_orbit n m : expressible [Kube.F] n m -> In (A8 m) F_orbit.
Proof.
  induction 1 as [| m [<- | []] | n m g [<- | []] Hg IH].
  - left. vm_compute. reflexivity.
  - right. left. vm_compute. reflexivity.
  - unfold mul, move_of_matrices. cbn [A8].
    destruct IH as [<- | [<- | [<- | [<- | []]]]].
    + right. left. vm_compute. reflexivity.
    + right. right. left. reflexivity.
    + right. right. right. left. reflexivity.
    + left. vm_compute. reflexivity.
Qed.

Lemma F_orbit_rejected m : In (A8 m) F_orbit -> accept_8 1 3 0 1 m = Ok false.
Proof.
  unfold accept_8. intros [<- | [<- | [<- | [<- | []]]]]; vm_compute; reflexivity.
Qed.

(** With [fund_l] and [maxMove = 2]: a move found at depth 2, a search
    that ends on [None], and the two ways the interpreter stops the second
    one: 289 moves are built, and three calls are nested. *)
Example search_within_runs :
  send_8_within 1000 400 0 1 6 7 Kube.fund_l 2 1 prev0
  = Done (Ok (Some (Kube.F ** 2 * (Kube.B ** 2 * move_of_seq [])))) /\
  send_8_slow_within 3 289 1 0 0 1 Kube.fund_l 2 1 prev0 = Done (Ok None) /\
  send_8_slow_within 3 288 1 0 0 1 Kube.fund_l 2 1 prev0 = OutOfMemory /\
  send_8_slow_within 2 289 1 0 0 1 Kube.fund_l 2 1 prev0 = RecursionLimit.
Proof. repeat split; vm_compute; reflexivity. Qed.

End LimitExamples.

Import LimitExamples.



(** ** What the 3-label search guarantees *)

Module PlaceFacts.

Local Open Scope nat_scope.

Lemma row_eq_true y cl cb : row_eq y cl cb = Ok true -> nth_error y cl = Some [cb].
Proof.
  unfold row_eq. destruct (nth_error y cl) as [[| v [| w r]] |]; try discriminate.
  intros H. injection H as H. apply Z.eqb_eq in H. subst. reflexivity.
Qed.

Lemma andr_true a b : andr a b = Ok true -> a = Ok true /\ b = Ok true.
Proof. destruct a as [[|] | e]; simpl; intros H; try discriminate; auto. Qed.

Lemma in_rows_after_true A v cl cb :
  v <> [] ->
  in_rows_after (mmul A (column v)) cl cb = true ->
  exists k, cl < k /\ nth_error (mmul A (column v)) k = Some [cb].
Proof.
  intros Hv H. unfold in_rows_after in H. apply existsb_exists in H.
  destruct H as (r & Hr & Hcb). apply In_nth_error in Hr. destruct Hr as [i Hi].
  rewrite nth_error_skipn in Hi. exists (cl + 1 + i). split; [lia |].
  assert (Hlt : cl + 1 + i < nrows (mmul A (column v))).
  { apply nth_error_Some. congruence. }
  rewrite nrows_mmul in Hlt.
  destruct (nth_error_mmul_column A v (cl + 1 + i) Hv Hlt) as [x Hx].
  rewrite Hx in Hi. injection Hi as <-. simpl in Hcb.
  rewrite orb_false_r in Hcb. apply Z.eqb_eq in Hcb. subst. assumption.
Qed.

End PlaceFacts.

Import PlaceFacts.

(** C4, as amended.  A move returned by [send_12] has cubie [cb1] in slot
    [cl1], cubie [cb2] in slot [cl2], and cubie [cb3] in some slot after
    [cl1]: the third cubie has no target slot of its own. *)
Theorem send_12_places (cb1 cb2 cb3 : Z) (cl1 cl2 : nat) (auth : list move)
    (maxMove n_combi : nat) (prev : list move) (m : move) :
  send_12 cb1 cb2 cb3 cl1 cl2 auth maxMove n_combi prev = Ok (Some m) ->
  let y := mmul (A12 m) (column (range 12)) in
  nth_error y cl1 = Some [cb1] /\
  nth_error y cl2 = Some [cb2] /\
  exists k, (cl1 < k)%nat /\ nth_error y k = Some [cb3].
Proof.
  intros H y. apply search_sound in H. unfold accept_12 in H. fold y in H.
  apply andr_true in H. destruct H as [H12 H3]. apply andr_true in H12.
  destruct H12 as [H1 H2]. injection H3 as H3.
  repeat split; try (apply row_eq_true; assumption).
  apply in_rows_after_true; [discriminate | assumption].
Qed.

Lemma send_12_places_witness :
  let y := mmul (A12 (Kube.D * move_of_seq [])) (column (range 12)) in
  nth_error y 1 = Some [1%Z] /\
  nth_error y 2 = Some [2%Z] /\
  exists k, (1 < k)%nat /\ nth_error y k = Some [0%Z].
Proof.
  apply (send_12_places 1 2 0 1 2 [Kube.D] 3 1 prev0).
  vm_compute. reflexivity.
Defined.

(** C4 as stated fails: no third target slot is fixed by the labels and
    the slots.  For the same labels and slots the searches over [[D]] and
    over [[d]] both succeed and leave cubie 0 in slot 4 and in slot 5. *)
Lemma third_slot_not_fixed :
  ~ (exists cl3 : nat, forall (auth : list move) (m : move),
       send_12 1 2 0 1 2 auth 3 1 prev0 = Ok (Some m) ->
       nth_error (mmul (A12 m) (column (range 12))) cl3 = Some [0%Z]).
Proof.
  intros [cl3 H].
  assert (H1 := H [Kube.D] (Kube.D * move_of_seq [])%move).
  assert (H2 := H [Kube.d] (Kube.d * move_of_seq [])%move).
  assert (E1 : mmul (A12 (Kube.D * move_of_seq [])) (column (range 12))
               = column [5; 1; 2; 3; 0; 8; 6; 7; 4; 9; 10; 11]%Z)
    by (vm_compute; reflexivity).
  assert (E2 : mmul (A12 (Kube.d * move_of_seq [])) (column (range 12))
               = column [4; 1; 2; 3; 8; 0; 6; 7; 5; 9; 10; 11]%Z)
    by (vm_compute; reflexivity).
  rewrite E1 in H1. rewrite E2 in H2.
  specialize (H1 ltac:(vm_compute; reflexivity)).
  specialize (H2 ltac:(vm_compute; reflexivity)).
  clear H E1 E2.
  do 12 (destruct cl3 as [| cl3]; [first [discriminate H1 | discriminate H2] |]).
  destruct cl3; discriminate H1.
Qed.

(** ** The solved state *)

(** C9. Replaying the empty token list gives the solved state [X], and
    [solve] on it returns the empty token list; each phase, whatever its
    switcher and authorized moves, finds no defect and returns the
    identity move with no token. *)
Theorem solve_solved :
  Kube.move_list_to_state [] = Ok Kube.X /\
  Kube.solve Kube.X = Ok [] /\
  (forall sw c1 c2 auth,
     solve_corner_pos (rows Kube.X 0 8) sw c1 c2 auth = Ok (move_of_seq [])) /\
  (forall fl c2 auth,
     pivot_corner_cubies (rows Kube.X 20 44) fl c2 auth = Ok (move_of_seq [])) /\
  (forall sws c_l auth,
     solve_edge_pos (rows Kube.X 8 20) sws c_l auth = Ok (move_of_seq [])) /\
  (forall fl c2 auth,
     pivot_edge_cubies (skipn 44 Kube.X) fl c2 auth = Ok (move_of_seq [])).
Proof.
  split; [vm_compute; reflexivity |].
  split; [vm_compute; reflexivity |].
  repeat apply conj; intros; reflexivity.
Qed.

(** ** Refinement: the matrix layer on embedded moves *)

Module Refine.

Local Open Scope nat_scope.

Lemma act_pmul a y : act a y = pmul a y.
Proof. reflexivity. Qed.

Lemma mmul_pm_col_of n p y :
  Forall (fun k => k < n) p -> length y = n ->
  mmul (pm n p) (col_of y) = col_of (act p y).
Proof.
  intros Hp Hy. unfold col_of. rewrite mmul_pm_column; [| assumption | rewrite length_map; assumption].
  f_equal. unfold act. rewrite map_map. apply map_ext. intros k.
  change 0%Z with (Z.of_nat 0). apply map_nth.
Qed.

Lemma column_range n : column (range n) = col_of (idp n).
Proof. reflexivity. Qed.

Lemma row_eq_col_of y cl cb : row_eq (col_of y) cl cb = crow_eq y cl cb.
Proof.
  unfold row_eq, crow_eq, col_of, column. rewrite !nth_error_map.
  destruct (nth_error y cl); reflexivity.
Qed.

Lemma in_rows_after_col_of y cl cb :
  in_rows_after (col_of y) cl cb
  = existsb (fun v => (Z.of_nat v =? cb)%Z) (skipn (cl + 1) y).
Proof.
  unfold in_rows_after, col_of, column. rewrite !skipn_map.
  induction (skipn (cl + 1) y) as [| v l IH]; simpl; [reflexivity |].
  rewrite IH, orb_false_r. reflexivity.
Qed.

Lemma cwf_c8 c : cwf c = true -> is_perm 8 (c8 c) = true.
Proof. intros H. apply cwf_spec in H. tauto. Qed.
Lemma cwf_c24 c : cwf c = true -> is_perm 24 (c24 c) = true.
Proof. intros H. apply cwf_spec in H. tauto. Qed.
Lemma cwf_e12 c : cwf c = true -> is_perm 12 (e12 c) = true.
Proof. intros H. apply cwf_spec in H. tauto. Qed.
Lemma cwf_e24 c : cwf c = true -> is_perm 24 (e24 c) = true.
Proof. intros H. apply cwf_spec in H. tauto. Qed.

Lemma y8_embed c :
  cwf c = true -> mmul (A8 (embed c)) (column (range 8)) = col_of (c8 c).
Proof.
  intros H. apply cwf_c8 in H. rewrite column_range. cbn [embed A8].
  rewrite (mmul_pm_col_of 8) by (eauto using is_perm_bound; reflexivity).
  rewrite act_pmul, pmul_idp_r by eauto using is_perm_bound. reflexivity.
Qed.

Lemma y12_embed c :
  cwf c = true -> mmul (A12 (embed c)) (column (range 12)) = col_of (e12 c).
Proof.
  intros H. apply cwf_e12 in H. rewrite column_range. cbn [embed A12].
  rewrite (mmul_pm_col_of 12) by (eauto using is_perm_bound; reflexivity).
  rewrite act_pmul, pmul_idp_r by eauto using is_perm_bound. reflexivity.
Qed.

Lemma accept_8_embed cb1 cb2 cl1 cl2 c :
  cwf c = true -> accept_8 cb1 cb2 cl1 cl2 (embed c) = caccept_8 cb1 cb2 cl1 cl2 c.
Proof.
  intros H. unfold accept_8, caccept_8. rewrite y8_embed by assumption.
  rewrite !row_eq_col_of. reflexivity.
Qed.

Lemma accept_8_slow_embed cb1 cb2 cl1 cl2 c :
  cwf c = true ->
  accept_8_slow cb1 cb2 cl1 cl2 (embed c) = caccept_8_slow cb1 cb2 cl1 cl2 c.
Proof.
  intros H. unfold accept_8_slow, caccept_8_slow. rewrite y8_embed by assumption.
  rewrite !row_eq_col_of. reflexivity.
Qed.

Lemma accept_12_embed cb1 cb2 cb3 cl1 cl2 c :
  cwf c = true ->
  accept_12 cb1 cb2 cb3 cl1 cl2 (embed c) = caccept_12 cb1 cb2 cb3 cl1 cl2 c.
Proof.
  intros H. unfold accept_12, caccept_12. rewrite y12_embed by assumption.
  rewrite !row_eq_col_of, in_rows_after_col_of. reflexivity.
Qed.

Lemma accept_12_slow_embed cb1 cb2 cl1 cl2 c :
  cwf c = true ->
  accept_12_slow cb1 cb2 cl1 cl2 (embed c) = caccept_12_slow cb1 cb2 cl1 cl2 c.
Proof.
  intros H. unfold accept_12_slow, caccept_12_slow. rewrite y12_embed by assumption.
  rewrite !row_eq_col_of. reflexivity.
Qed.

Lemma cancels_embed m g : cancels (embed m) (embed g) = ccancels m g.
Proof. reflexivity. Qed.

Lemma extend_embed n m prev :
  cwf m = true -> all_cwf prev ->
  extend n (embed m) (map embed prev) = fmap (map embed) (cextend n m prev) /\
  (forall cur, cextend n m prev = Ok cur -> all_cwf cur).
Proof.
  intros Hm Hp. induction Hp as [| g prev Hg Hp [IH1 IH2]].
  - split; [reflexivity |]. intros cur H. injection H as <-. constructor.
  - cbn [map extend cextend]. rewrite cancels_embed, IH1.
    rewrite <- embed_cmul by assumption.
    assert (Hmg : cwf (cmul m g) = true) by (apply cwf_cmul; assumption).
    destruct (n =? 1).
    + destruct (cextend n m prev) as [rest |]; cbn; [| split; [reflexivity | discriminate]].
      split; [reflexivity |]. intros cur H. injection H as <-.
      constructor; [assumption | apply IH2; reflexivity].
    + destruct (ccancels m g) as [[|] |]; cbn;
        destruct (cextend n m prev) as [rest |]; cbn;
        try (split; [reflexivity | discriminate]).
      * split; [reflexivity |]. intros cur H. injection H as <-. apply IH2. reflexivity.
      * split; [reflexivity |]. intros cur H. injection H as <-.
        constructor; [assumption | apply IH2; reflexivity].
Qed.

Lemma candidates_embed n fact prev :
  all_cwf fact -> all_cwf prev ->
  candidates n (map embed fact) (map embed prev)
  = fmap (map embed) (ccandidates n fact prev) /\
  (forall cur, ccandidates n fact prev = Ok cur -> all_cwf cur).
Proof.
  intros Hf Hp. induction Hf as [| m fact Hm Hf [IH1 IH2]].
  - split; [reflexivity |]. intros cur H. injection H as <-. constructor.
  - cbn [map candidates ccandidates].
    destruct (extend_embed n m prev Hm Hp) as [E1 E2]. rewrite E1, IH1.
    destruct (cextend n m prev) as [a |]; cbn; [| split; [reflexivity | discriminate]].
    destruct (ccandidates n fact prev) as [b |]; cbn; [| split; [reflexivity | discriminate]].
    rewrite map_app. split; [reflexivity |]. intros cur H. injection H as <-.
    apply Forall_app. split; [apply E2 | apply IH2]; reflexivity.
Qed.

Section SearchRefine.

Variable accept : move -> res bool.
Variable caccept : cmove -> res bool.
Hypothesis accept_embed : forall c, cwf c = true -> accept (embed c) = caccept c.

Lemma first_accepted_embed cur :
  all_cwf cur ->
  first_accepted accept (map embed cur)
  = fmap (option_map embed) (cfirst_accepted caccept cur).
Proof.
  intros H. induction H as [| c cur Hc H IH]; [reflexivity |].
  cbn [map first_accepted cfirst_accepted]. rewrite accept_embed by assumption.
  destruct (caccept c) as [[|] |]; cbn; [reflexivity | exact IH | reflexivity].
Qed.

Lemma cfirst_accepted_cwf cur c :
  all_cwf cur -> cfirst_accepted caccept cur = Ok (Some c) -> cwf c = true.
Proof.
  intros H. induction H as [| x cur Hx H IH]; cbn; [discriminate |].
  destruct (caccept x) as [[|] |]; cbn; try discriminate.
  - intros E. injection E as <-. assumption.
  - exact IH.
Qed.

Lemma filter_has_tokens_embed cur :
  filter has_tokens (map embed cur) = map embed (filter chas_tokens cur).
Proof.
  induction cur as [| c cur IH]; [reflexivity |]. cbn [map filter].
  change (has_tokens (embed c)) with (chas_tokens c).
  destruct (chas_tokens c); cbn [map]; rewrite IH; reflexivity.
Qed.

Lemma search_embed auth left : forall n_combi prev,
  all_cwf auth -> all_cwf prev ->
  search accept (map embed auth) left n_combi (map embed prev)
  = fmap (option_map embed) (csearch caccept auth left n_combi prev) /\
  (forall c, csearch caccept auth left n_combi prev = Ok (Some c) -> cwf c = true).
Proof.
  induction left as [| left IH]; intros n_combi prev Ha Hp.
  - split; [reflexivity | discriminate].
  - cbn [search csearch].
    assert (Hf : all_cwf (if n_combi =? 1 then cone [] :: auth else auth)).
    { destruct (n_combi =? 1); [constructor; [reflexivity | assumption] | assumption]. }
    assert (E : (if n_combi =? 1 then move_of_seq [] :: map embed auth else map embed auth)
                = map embed (if n_combi =? 1 then cone [] :: auth else auth)).
    { destruct (n_combi =? 1); reflexivity. }
    rewrite E. destruct (candidates_embed n_combi _ prev Hf Hp) as [C1 C2].
    rewrite C1. destruct (ccandidates n_combi _ prev) as [cur |]; cbn;
      [| split; [reflexivity | discriminate]].
    specialize (C2 cur eq_refl).
    rewrite first_accepted_embed by assumption.
    destruct (cfirst_accepted caccept cur) as [[c |] |] eqn:F; cbn.
    + split; [reflexivity |]. intros c' H. injection H as <-.
      eapply cfirst_accepted_cwf; eassumption.
    + rewrite filter_has_tokens_embed. apply IH; [assumption |].
      unfold all_cwf in *. rewrite Forall_forall in *. intros x Hx.
      apply filter_In in Hx. apply C2. tauto.
    + split; [reflexivity | discriminate].
Qed.

End SearchRefine.

Lemma prev0_embed : prev0 = map embed cprev0.
Proof. reflexivity. Qed.

Lemma send_8_embed cb1 cb2 cl1 cl2 auth maxMove n_combi :
  all_cwf auth ->
  send_8 cb1 cb2 cl1 cl2 (map embed auth) maxMove n_combi prev0
  = fmap (option_map embed) (csend_8 cb1 cb2 cl1 cl2 auth maxMove n_combi cprev0) /\
  (forall c, csend_8 cb1 cb2 cl1 cl2 auth maxMove n_combi cprev0 = Ok (Some c) ->
     cwf c = true).
Proof.
  intros H. unfold send_8, csend_8. rewrite prev0_embed.
  apply search_embed; [apply accept_8_embed | assumption | repeat constructor].
Qed.

Lemma send_8_slow_embed cb1 cb2 cl1 cl2 auth maxMove n_combi :
  all_cwf auth ->
  send_8_slow cb1 cb2 cl1 cl2 (map embed auth) maxMove n_combi prev0
  = fmap (option_map embed)
      (csend_8_slow cb1 cb2 cl1 cl2 auth maxMove n_combi cprev0) /\
  (forall c, csend_8_slow cb1 cb2 cl1 cl2 auth maxMove n_combi cprev0 = Ok (Some c) ->
     cwf c = true).
Proof.
  intros H. unfold send_8_slow, csend_8_slow. rewrite prev0_embed.
  apply search_embed; [apply accept_8_slow_embed | assumption | repeat constructor].
Qed.

Lemma send_12_embed cb1 cb2 cb3 cl1 cl2 auth maxMove n_combi :
  all_cwf auth ->
  send_12 cb1 cb2 cb3 cl1 cl2 (map embed auth) maxMove n_combi prev0
  = fmap (option_map embed)
      (csend_12 cb1 cb2 cb3 cl1 cl2 auth maxMove n_combi cprev0) /\
  (forall c, csend_12 cb1 cb2 cb3 cl1 cl2 auth maxMove n_combi cprev0 = Ok (Some c) ->
     cwf c = true).
Proof.
  intros H. unfold send_12, csend_12. rewrite prev0_embed.
  apply search_embed; [apply accept_12_embed | assumption | repeat constructor].
Qed.

Lemma send_12_slow_embed cb1 cb2 cl1 cl2 auth maxMove n_combi :
  all_cwf auth ->
  send_12_slow cb1 cb2 cl1 cl2 (map embed auth) maxMove n_combi prev0
  = fmap (option_map embed)
      (csend_12_slow cb1 cb2 cl1 cl2 auth maxMove n_combi cprev0) /\
  (forall c, csend_12_slow cb1 cb2 cl1 cl2 auth maxMove n_combi cprev0 = Ok (Some c) ->
     cwf c = true).
Proof.
  intros H. unfold send_12_slow, csend_12_slow. rewrite prev0_embed.
  apply search_embed; [apply accept_12_slow_embed | assumption | repeat constructor].
Qed.

Lemma for_each_rel {S1 S2 : Type} (R : S1 -> S2 -> Prop) l
    (body1 : S1 -> nat -> res S1) (body2 : S2 -> nat -> res S2) :
  (forall i a b, In i l -> R a b -> res_rel R (body1 a i) (body2 b i)) ->
  forall s1 s2, R s1 s2 -> res_rel R (for_each l body1 s1) (for_each l body2 s2).
Proof.
  induction l as [| i l IH]; intros Hb s1 s2 Hs; cbn [for_each]; [exact Hs |].
  assert (H := Hb i s1 s2 (or_introl eq_refl) Hs).
  destruct (body1 s1 i) as [a | e1], (body2 s2 i) as [b | e2]; cbn in *; try contradiction.
  - apply IH; [| assumption]. intros j x y Hj. apply Hb. right. assumption.
  - assumption.
Qed.

Lemma conjugate_embed sw g :
  cwf sw = true -> cwf g = true ->
  conjugate (embed sw) (embed g) = embed (cconjugate sw g) /\
  cwf (cconjugate sw g) = true.
Proof.
  intros Hs Hg. unfold conjugate, cconjugate.
  rewrite <- embed_cpow_body, <- !embed_cmul; auto using cwf_cmul, cwf_cpow_body.
Qed.

Lemma cell_col_of y k : k < length y -> cell (col_of y) k = Z.of_nat (nth k y 0).
Proof.
  intros H. unfold cell, get, col_of. rewrite nth_column by (rewrite length_map; assumption).
  cbn [nth]. change 0%Z with (Z.of_nat 0). apply map_nth.
Qed.

Lemma length_col_of y : length (col_of y) = length y.
Proof. unfold col_of, column. rewrite !length_map. reflexivity. Qed.

Lemma find_label_col_of y i : find_label (col_of y) i = cfind_label y i.
Proof.
  unfold find_label, cfind_label. rewrite length_col_of.
  rewrite (filter_ext_in (fun k => (cell (col_of y) k =? Z.of_nat i)%Z)
             (fun k => nth k y 0 =? i)); [reflexivity |].
  intros k Hk. apply in_seq in Hk. rewrite cell_col_of by lia.
  destruct (Nat.eqb_spec (nth k y 0) i) as [-> | N].
  - apply Z.eqb_refl.
  - apply Z.eqb_neq. lia.
Qed.

Lemma length_act a y : length (act a y) = length a.
Proof. apply length_map. Qed.

Ltac rel_err :=
  cbn [bind fmap res_rel option_map conjugate_found cconjugate_found];
  try reflexivity; try contradiction.

Lemma solve_corner_pos_embed y sw c1 c2 auth :
  cwf sw = true -> all_cwf auth -> length y = 8 ->
  res_rel (fun m c => m = embed c /\ cwf c = true)
    (solve_corner_pos (col_of y) (embed sw) c1 c2 (map embed auth))
    (csolve_corner_pos y sw c1 c2 auth).
Proof.
  intros Hs Ha Hy. unfold solve_corner_pos, csolve_corner_pos.
  match goal with
  | |- res_rel _ (bind (for_each _ ?b1 ?s1) _) (bind (for_each _ ?b2 ?s2) _) =>
      assert (H := for_each_rel (st_rel 8) (seq 0 8) b1 b2)
  end.
  match type of H with ?P -> _ => assert (Hb : P) end.
  { clear H. intros i [m Y] [c yl] _ (E1 & E2 & W & L). cbn [fst snd] in *. subst m Y.
    unfold corner_pos_body. cbv beta iota. rewrite row_eq_col_of, find_label_col_of.
    destruct (crow_eq yl i (Z.of_nat i)) as [[|] |]; cbn [bind]; rel_err.
    { repeat split; assumption. }
    destruct (cfind_label yl i) as [j |]; cbn [bind]; rel_err.
    destruct (send_8_embed c1 c2 i j auth 5 1 Ha) as [E W'].
    rewrite E. destruct (csend_8 c1 c2 i j auth 5 1 cprev0) as [[g |] |]; rel_err.
    destruct (conjugate_embed sw g Hs (W' g eq_refl)) as [Ec Wc].
    rewrite Ec. repeat split; cbn [fst snd].
    - symmetry. apply embed_cmul; assumption.
    - cbn [embed A8]. apply mmul_pm_col_of; [| assumption].
      apply is_perm_bound, cwf_c8. assumption.
    - apply cwf_cmul; assumption.
    - rewrite length_act. apply is_perm_length, cwf_c8. assumption. }
  specialize (H Hb (move_of_seq [], col_of y) (cone [], y)).
  match type of H with ?P -> _ => assert (H0 : P) end.
  { repeat split; auto. }
  specialize (H H0). clear Hb H0.
  match goal with
  | |- res_rel _ (bind ?r1 _) (bind ?r2 _) =>
      destruct r1 as [[m Y] |], r2 as [[c yl] |];
      cbn [bind fmap res_rel fst snd] in *; try contradiction; try assumption
  end.
  destruct H as (E1 & _ & W & _). split; assumption.
Qed.

Lemma pivot_corner_cubies_embed y fl c2 auth :
  cwf fl = true -> all_cwf auth -> length y = 24 ->
  res_rel (fun m c => m = embed c /\ cwf c = true)
    (pivot_corner_cubies (col_of y) (embed fl) c2 (map embed auth))
    (cpivot_corner_cubies y fl c2 auth).
Proof.
  intros Hs Ha Hy. unfold pivot_corner_cubies, cpivot_corner_cubies.
  match goal with
  | |- res_rel _ (bind (for_each _ ?b1 ?s1) _) (bind (for_each _ ?b2 ?s2) _) =>
      assert (H := for_each_rel (st_rel 24) (seq 1 7) b1 b2)
  end.
  match type of H with ?P -> _ => assert (Hb : P) end.
  { clear H. intros i [m Y] [c yl] _ (E1 & E2 & W & L). cbn [fst snd] in *. subst m Y.
    unfold corner_ori_body. cbv beta iota. rewrite !row_eq_col_of.
    destruct (send_8_slow_embed 0 c2 0 i auth 5 1 Ha) as [E W'].
    destruct (crow_eq yl (3 * i) 2) as [[|] |]; cbn [bind]; rel_err.
    - rewrite E.
      destruct (csend_8_slow 0 c2 0 i auth 5 1 cprev0) as [[g |] |]; rel_err.
      destruct (conjugate_embed fl g Hs (W' g eq_refl)) as [Ec Wc].
      rewrite Ec. repeat split; cbn [fst snd].
      + symmetry. apply embed_cmul; assumption.
      + cbn [embed S3]. apply mmul_pm_col_of; [| assumption].
        apply is_perm_bound, cwf_c24. assumption.
      + apply cwf_cmul; assumption.
      + rewrite length_act. apply is_perm_length, cwf_c24. assumption.
    - destruct (crow_eq yl (3 * i) 1) as [[|] |]; cbn [bind]; rel_err.
      + rewrite E.
        destruct (csend_8_slow 0 c2 0 i auth 5 1 cprev0) as [[g |] |]; rel_err.
        destruct (conjugate_embed fl g Hs (W' g eq_refl)) as [Ec Wc].
        rewrite Ec. rewrite <- embed_cpow_body by assumption.
        assert (W2 : cwf (cpow_body (cconjugate fl g) 2) = true)
          by (apply cwf_cpow_body; assumption).
        repeat split; cbn [fst snd].
        * symmetry. apply embed_cmul; assumption.
        * cbn [embed S3]. apply mmul_pm_col_of; [| assumption].
          apply is_perm_bound, cwf_c24. assumption.
        * apply cwf_cmul; assumption.
        * rewrite length_act. apply is_perm_length, cwf_c24. assumption.
      + repeat split; assumption. }
  specialize (H Hb (move_of_seq [], col_of y) (cone [], y)).
  match type of H with ?P -> _ => assert (H0 : P) end.
  { repeat split; auto. }
  specialize (H H0). clear Hb H0.
  match goal with
  | |- res_rel _ (bind ?r1 _) (bind ?r2 _) =>
      destruct r1 as [[m Y] |], r2 as [[c yl] |];
      cbn [bind fmap res_rel fst snd] in *; try contradiction; try assumption
  end.
  destruct H as (E1 & _ & W & _). split; assumption.
Qed.

Lemma pivot_edge_cubies_embed y fl c2 auth :
  cwf fl = true -> all_cwf auth -> length y = 24 ->
  res_rel (fun m c => m = embed c /\ cwf c = true)
    (pivot_edge_cubies (col_of y) (embed fl) c2 (map embed auth))
    (cpivot_edge_cubies y fl c2 auth).
Proof.
  intros Hs Ha Hy. unfold pivot_edge_cubies, cpivot_edge_cubies.
  match goal with
  | |- res_rel _ (bind (for_each _ ?b1 ?s1) _) (bind (for_each _ ?b2 ?s2) _) =>
      assert (H := for_each_rel (st_rel 24) (seq 1 11) b1 b2)
  end.
  match type of H with ?P -> _ => assert (Hb : P) end.
  { clear H. intros i [m Y] [c yl] _ (E1 & E2 & W & L). cbn [fst snd] in *. subst m Y.
    unfold edge_ori_body. cbv beta iota. rewrite !row_eq_col_of.
    destruct (send_12_slow_embed 0 c2 0 i auth 3 1 Ha) as [E W'].
    destruct (crow_eq yl (2 * i) 0) as [[|] |]; cbn [bind]; rel_err.
    - repeat split; assumption.
    - rewrite E.
      destruct (csend_12_slow 0 c2 0 i auth 3 1 cprev0) as [[g |] |]; rel_err.
      destruct (conjugate_embed fl g Hs (W' g eq_refl)) as [Ec Wc].
      rewrite Ec. repeat split; cbn [fst snd].
      + symmetry. apply embed_cmul; assumption.
      + cbn [embed S2]. apply mmul_pm_col_of; [| assumption].
        apply is_perm_bound, cwf_e24. assumption.
      + apply cwf_cmul; assumption.
      + rewrite length_act. apply is_perm_length, cwf_e24. assumption. }
  specialize (H Hb (move_of_seq [], col_of y) (cone [], y)).
  match type of H with ?P -> _ => assert (H0 : P) end.
  { repeat split; auto. }
  specialize (H H0). clear Hb H0.
  match goal with
  | |- res_rel _ (bind ?r1 _) (bind ?r2 _) =>
      destruct r1 as [[m Y] |], r2 as [[c yl] |];
      cbn [bind fmap res_rel fst snd] in *; try contradiction; try assumption
  end.
  destruct H as (E1 & _ & W & _). split; assumption.
Qed.

Lemma try_switchers_embed sws c_l auth i j nm : forall k,
  all_cwf sws -> all_cwf auth -> opt_cwf nm ->
  try_switchers (map embed sws) c_l k i j (map embed auth) (option_map embed nm)
  = fmap (option_map embed) (ctry_switchers sws c_l k i j auth nm) /\
  (forall r, ctry_switchers sws c_l k i j auth nm = Ok r -> opt_cwf r).
Proof.
  induction c_l as [| [[cb1 cb2] cb3] c_l IH]; intros k Hs Ha Hn.
  - split; [reflexivity |]. intros r H. injection H as <-. assumption.
  - cbn [try_switchers ctry_switchers].
    destruct (send_12_embed cb1 cb2 cb3 i j auth 3 1 Ha) as [E W'].
    rewrite E. destruct (csend_12 cb1 cb2 cb3 i j auth 3 1 cprev0) as [[g |] |];
      cbn [bind fmap option_map].
    + rewrite nth_error_map. destruct (nth_error sws k) as [s |] eqn:N; cbn [option_map].
      * assert (Ws : cwf s = true).
        { unfold all_cwf in Hs. rewrite Forall_forall in Hs. apply Hs.
          eapply nth_error_In. eassumption. }
        destruct (conjugate_embed s g Ws (W' g eq_refl)) as [Ec Wc].
        rewrite Ec. split; [reflexivity |]. intros r H. injection H as <-.
        intros c H. injection H as <-. assumption.
      * split; [reflexivity | discriminate].
    + apply IH; assumption.
    + split; [reflexivity | discriminate].
Qed.

Lemma solve_edge_pos_embed y sws c_l auth :
  all_cwf sws -> all_cwf auth -> length y = 12 ->
  res_rel (fun m c => m = embed c /\ cwf c = true)
    (solve_edge_pos (col_of y) (map embed sws) c_l (map embed auth))
    (csolve_edge_pos y sws c_l auth).
Proof.
  intros Hs Ha Hy. unfold solve_edge_pos, csolve_edge_pos.
  match goal with
  | |- res_rel _ (bind (for_each _ ?b1 ?s1) _) (bind (for_each _ ?b2 ?s2) _) =>
      assert (H := for_each_rel st3_rel (seq 0 10) b1 b2)
  end.
  match type of H with ?P -> _ => assert (Hb : P) end.
  { clear H. intros i [[m Y] nm1] [[c yl] nm2] _ (E1 & E2 & W & L & E3 & W3).
    cbn [fst snd] in *. subst m Y nm1.
    unfold edge_pos_body. cbv beta iota. rewrite row_eq_col_of, find_label_col_of.
    destruct (crow_eq yl i (Z.of_nat i)) as [[|] |]; cbn [bind]; rel_err.
    { repeat split; assumption. }
    destruct (cfind_label yl i) as [j |]; cbn [bind]; rel_err.
    destruct (try_switchers_embed sws c_l auth i j nm2 0 Hs Ha W3) as [E W'].
    rewrite E. destruct (ctry_switchers sws c_l 0 i j auth nm2) as [[n |] |]; rel_err.
    assert (Wn : cwf n = true) by (apply (W' (Some n) eq_refl); reflexivity).
    repeat split; cbn [fst snd].
    - symmetry. apply embed_cmul; assumption.
    - cbn [embed A12]. apply mmul_pm_col_of; [| assumption].
      apply is_perm_bound, cwf_e12. assumption.
    - apply cwf_cmul; assumption.
    - rewrite length_act. apply is_perm_length, cwf_e12. assumption.
    - intros c' H. injection H as <-. assumption. }
  specialize (H Hb (move_of_seq [], col_of y, None) (cone [], y, None)).
  match type of H with ?P -> _ => assert (H0 : P) end.
  { repeat split; auto. intros c Hc. discriminate. }
  specialize (H H0). clear Hb H0.
  match goal with
  | |- res_rel _ (bind ?r1 _) (bind ?r2 _) =>
      destruct r1 as [[[m Y] n1] |], r2 as [[[c yl] n2] |];
      cbn [bind fmap res_rel fst snd] in *; try contradiction; try assumption
  end.
  destruct H as (E1 & _ & W & _). split; assumption.
Qed.

Lemma length_cM c : cwf c = true -> length (cM c) = 68.
Proof.
  intros H. unfold cM. rewrite !length_app, !length_map.
  rewrite (is_perm_length _ _ (cwf_c8 _ H)), (is_perm_length _ _ (cwf_e12 _ H)),
    (is_perm_length _ _ (cwf_c24 _ H)), (is_perm_length _ _ (cwf_e24 _ H)).
  reflexivity.
Qed.

Lemma Forall_shift n m p :
  Forall (fun k => k < m) p -> Forall (fun k => k < n + m) (map (fun k => n + k) p).
Proof.
  intros H. apply Forall_forall. intros x Hx. apply in_map_iff in Hx.
  destruct Hx as (k & <- & Hk). rewrite Forall_forall in H. apply H in Hk. lia.
Qed.

Lemma Forall_lt_weaken n m p :
  n <= m -> Forall (fun k => k < n) p -> Forall (fun k => k < m) p.
Proof. intros Hnm H. eapply Forall_impl; [| exact H]. intros k Hk. cbn in Hk. lia. Qed.

Lemma bound_cM c : cwf c = true -> Forall (fun k => k < 68) (cM c).
Proof.
  intros H. unfold cM. repeat (apply Forall_app; split).
  - apply (Forall_lt_weaken 8); [lia |]. apply is_perm_bound, cwf_c8, H.
  - apply (Forall_lt_weaken (8 + 12)); [lia |]. apply Forall_shift, is_perm_bound, cwf_e12, H.
  - apply (Forall_lt_weaken (20 + 24)); [lia |]. apply Forall_shift, is_perm_bound, cwf_c24, H.
  - apply (Forall_shift 44 24), is_perm_bound, cwf_e24, H.
Qed.

Lemma nonempty_of_length {X : Type} (l : list X) n : length l = S n -> l <> [].
Proof. destruct l; [discriminate | congruence]. Qed.

Lemma M_embed c : cwf c = true -> M (embed c) = pm 68 (cM c).
Proof.
  intros H. unfold M, cM. cbn [embed A8 A12 S3 S2].
  assert (L8 := is_perm_length _ _ (cwf_c8 _ H)).
  assert (L12 := is_perm_length _ _ (cwf_e12 _ H)).
  assert (L24 := is_perm_length _ _ (cwf_c24 _ H)).
  assert (L24' := is_perm_length _ _ (cwf_e24 _ H)).
  rewrite (block_diag_pm 8 12);
    [| apply is_perm_bound, cwf_c8, H | eapply nonempty_of_length; eassumption
     | eapply nonempty_of_length; eassumption].
  rewrite (block_diag_pm (8 + 12) 24);
    [| apply Forall_app; split;
       [apply (Forall_lt_weaken 8); [lia |]; apply is_perm_bound, cwf_c8, H
       | apply Forall_shift, is_perm_bound, cwf_e12, H]
     | intros E; apply app_eq_nil in E; destruct E as [E _];
       rewrite E in L8; discriminate
     | eapply nonempty_of_length; eassumption].
  rewrite (block_diag_pm (8 + 12 + 24) 24);
    [| repeat (apply Forall_app; split);
       [apply (Forall_lt_weaken 8); [lia |]; apply is_perm_bound, cwf_c8, H
       | apply (Forall_lt_weaken (8 + 12)); [lia |];
         apply Forall_shift, is_perm_bound, cwf_e12, H
       | apply (Forall_shift (8 + 12) 24), is_perm_bound, cwf_c24, H]
     | intros E; apply app_eq_nil in E; destruct E as [E _];
       apply app_eq_nil in E; destruct E as [E _]; rewrite E in L8; discriminate
     | eapply nonempty_of_length; eassumption].
  rewrite <- !app_assoc. reflexivity.
Qed.

Lemma mmul_M_col_of r st :
  cwf r = true -> length st = 68 ->
  mmul (M (embed r)) (col_of st) = col_of (act (cM r) st).
Proof.
  intros H L. rewrite M_embed by assumption.
  apply mmul_pm_col_of; [apply bound_cM; assumption | assumption].
Qed.

Lemma rows_col_of st a b : rows (col_of st) a b = col_of (firstn (b - a) (skipn a st)).
Proof. unfold rows, col_of, column. rewrite !skipn_map, !firstn_map. reflexivity. Qed.

Lemma skipn_col_of st n : skipn n (col_of st) = col_of (skipn n st).
Proof. unfold col_of, column. rewrite !skipn_map. reflexivity. Qed.

Lemma M0_embed : Kube.M0 = embed cM0. Proof. vm_compute. reflexivity. Qed.
Lemma M1_embed : Kube.M1 = embed cM1. Proof. vm_compute. reflexivity. Qed.
Lemma M31_embed : Kube.M31 = embed cM31. Proof. vm_compute. reflexivity. Qed.
Lemma M2x_embed :
  [Kube.M20; Kube.M21; Kube.M22; Kube.M23] = map embed [cM20; cM21; cM22; cM23].
Proof. vm_compute. reflexivity. Qed.
Lemma fund_l_embed : Kube.fund_l = map embed cfund_l.
Proof. vm_compute. reflexivity. Qed.

Lemma cwf_constants :
  cwf cM0 = true /\ cwf cM1 = true /\ cwf cM31 = true /\
  all_cwf [cM20; cM21; cM22; cM23] /\ all_cwf cfund_l.
Proof.
  repeat split; try (vm_compute; reflexivity);
    unfold all_cwf; apply Forall_forall; apply forallb_forall; vm_compute; reflexivity.
Qed.

Lemma X_col_of : Kube.X = col_of cX.
Proof. reflexivity. Qed.

(** [solve] on a column is [csolve] on its entries. *)
Lemma solve_embed st : length st = 68 -> Kube.solve (col_of st) = csolve st.
Proof.
  intros L. destruct cwf_constants as (W0 & W1 & W31 & W2 & Wf).
  unfold Kube.solve, csolve.
  rewrite M0_embed, M1_embed, M31_embed, M2x_embed, fund_l_embed.
  rewrite rows_col_of.
  assert (H1 := solve_corner_pos_embed (firstn (8 - 0) (skipn 0 st)) cM0 1 3 cfund_l W0 Wf).
  match type of H1 with ?P -> _ => assert (L1 : P) end.
  { rewrite length_firstn, length_skipn, L. reflexivity. }
  specialize (H1 L1).
  destruct (solve_corner_pos _ _ _ _ _) as [m1 | e1],
           (csolve_corner_pos _ _ _ _ _) as [r1 | e1'];
    cbn [res_rel bind] in *; try contradiction; [| congruence].
  destruct H1 as [-> Wr1].
  rewrite mmul_M_col_of by assumption. rewrite rows_col_of.
  set (st1 := act (cM r1) st).
  assert (Ls1 : length st1 = 68) by (unfold st1; rewrite length_act; apply length_cM; assumption).
  assert (H2 := pivot_corner_cubies_embed
                  (firstn (4 * 8 + 12 - (8 + 12)) (skipn (8 + 12) st1)) cM1 2 cfund_l W1 Wf).
  match type of H2 with ?P -> _ => assert (L2 : P) end.
  { rewrite length_firstn, length_skipn, Ls1. reflexivity. }
  specialize (H2 L2).
  destruct (pivot_corner_cubies _ _ _ _) as [m2 | e2],
           (cpivot_corner_cubies _ _ _ _) as [r2 | e2'];
    cbn [res_rel bind] in *; try contradiction; [| congruence].
  destruct H2 as [-> Wr2].
  rewrite mmul_M_col_of by assumption. rewrite rows_col_of.
  set (st2 := act (cM r2) st1).
  assert (Ls2 : length st2 = 68) by (unfold st2; rewrite length_act; apply length_cM; assumption).
  assert (H3 := solve_edge_pos_embed (firstn (8 + 12 - 8) (skipn 8 st2))
                  [cM20; cM21; cM22; cM23]
                  [(0, 3, 11); (5, 6, 7); (4, 6, 7); (2, 9, 10)]%Z cfund_l W2 Wf).
  match type of H3 with ?P -> _ => assert (L3 : P) end.
  { rewrite length_firstn, length_skipn, Ls2. reflexivity. }
  specialize (H3 L3).
  destruct (solve_edge_pos _ _ _ _) as [m3 | e3],
           (csolve_edge_pos _ _ _ _) as [r3 | e3'];
    cbn [res_rel bind] in *; try contradiction; [| congruence].
  destruct H3 as [-> Wr3].
  rewrite mmul_M_col_of by assumption. rewrite skipn_col_of.
  set (st3 := act (cM r3) st2).
  assert (Ls3 : length st3 = 68) by (unfold st3; rewrite length_act; apply length_cM; assumption).
  assert (H4 := pivot_edge_cubies_embed (skipn (4 * 8 + 12) st3) cM31 3 cfund_l W31 Wf).
  match type of H4 with ?P -> _ => assert (L4 : P) end.
  { rewrite length_skipn, Ls3. reflexivity. }
  specialize (H4 L4).
  destruct (pivot_edge_cubies _ _ _ _) as [m4 | e4],
           (cpivot_edge_cubies _ _ _ _) as [r4 | e4'];
    cbn [res_rel bind] in *; try contradiction; [| congruence].
  destruct H4 as [-> Wr4]. reflexivity.
Qed.

Lemma fund_embed a : Kube.fund a = option_map embed (cfund a).
Proof.
  unfold Kube.fund, cfund.
  repeat match goal with
         | |- context [String.eqb a ?s] =>
             destruct (String.eqb a s); [vm_compute; reflexivity |]
         end.
  reflexivity.
Qed.

Lemma cfund_cwf a g : cfund a = Some g -> cwf g = true.
Proof.
  unfold cfund.
  repeat match goal with
         | |- context [String.eqb a ?s] =>
             destruct (String.eqb a s); [intros H; injection H as <-; reflexivity |]
         end.
  discriminate.
Qed.

Lemma replay_embed actions : forall c,
  cwf c = true ->
  Kube.replay actions (embed c) = fmap embed (creplay actions c) /\
  (forall g, creplay actions c = Ok g -> cwf g = true).
Proof.
  induction actions as [| a actions IH]; intros c W.
  - split; [reflexivity |]. intros g H. injection H as <-. assumption.
  - cbn [Kube.replay creplay]. rewrite fund_embed.
    destruct (cfund a) as [g |] eqn:E; cbn [option_map].
    + rewrite <- embed_cmul by eauto using cfund_cwf.
      apply IH. apply cwf_cmul; eauto using cfund_cwf.
    + split; [reflexivity | discriminate].
Qed.

Lemma move_list_to_state_embed actions :
  Kube.move_list_to_state actions
  = fmap (fun g => col_of (act (cM g) cX)) (creplay actions (cone [])).
Proof.
  unfold Kube.move_list_to_state.
  destruct (replay_embed actions (cone []) eq_refl) as [E W].
  change (move_of_seq []) with (embed (cone [])). rewrite E.
  destruct (creplay actions (cone [])) as [g |]; cbn [fmap bind]; [| reflexivity].
  rewrite X_col_of, mmul_M_col_of; [reflexivity | apply W; reflexivity | reflexivity].
Qed.

End Refine.

Import Refine.

(** ** The invariants are kept by the quarter turns *)

Module GroupFacts.

Local Open Scope nat_scope.

Lemma blockb_spec w n p q :
  blockb w n p q = true ->
  forall k r, k < n -> r < w ->
    nth (w * k + r) q 0 = w * nth k p 0 + (r + tw w q k) mod w.
Proof.
  unfold blockb. intros H k r Hk Hr. rewrite forallb_forall in H.
  specialize (H k). rewrite forallb_forall in H.
  apply Nat.eqb_eq. apply H; apply in_seq; lia.
Qed.

Lemma blockb_intro w n p q :
  (forall k r, k < n -> r < w ->
     nth (w * k + r) q 0 = w * nth k p 0 + (r + tw w q k) mod w) ->
  blockb w n p q = true.
Proof.
  intros H. unfold blockb. apply forallb_forall. intros k Hk.
  apply forallb_forall. intros r Hr. apply in_seq in Hk, Hr.
  apply Nat.eqb_eq. apply H; lia.
Qed.

Lemma tw_lt w q k : 0 < w -> tw w q k < w.
Proof. intros H. unfold tw. apply Nat.mod_upper_bound. lia. Qed.

(** The twist of a product: the twists add up along the permutation. *)
Lemma tw_pmul w n pa qa pb qb k :
  0 < w -> length qa = w * n -> Forall (fun x => x < n) pa -> length pa = n ->
  blockb w n pa qa = true -> blockb w n pb qb = true -> k < n ->
  tw w (pmul qa qb) k = (tw w qa k + tw w qb (nth k pa 0)) mod w.
Proof.
  intros Hw Lqa Bpa Lpa Ha Hb Hk.
  assert (Hpk : nth k pa 0 < n).
  { rewrite Forall_forall in Bpa. apply Bpa, nth_In. lia. }
  unfold tw at 1. rewrite nth_pmul by (rewrite Lqa; nia).
  rewrite <- (Nat.add_0_r (w * k)) at 1.
  rewrite (blockb_spec _ _ _ _ Ha) by lia. cbn [Nat.add].
  rewrite (Nat.mod_small (tw w qa k)) by (apply tw_lt; lia).
  rewrite (blockb_spec _ _ _ _ Hb) by (try apply tw_lt; lia).
  set (X := nth (nth k pa 0) pb 0).
  rewrite (Nat.add_comm (w * X)), (Nat.mul_comm w X), Nat.Div0.mod_add.
  apply Nat.Div0.mod_mod.
Qed.

Lemma blockb_pmul w n pa qa pb qb :
  0 < w -> length qa = w * n -> Forall (fun x => x < n) pa -> length pa = n ->
  blockb w n pa qa = true -> blockb w n pb qb = true ->
  blockb w n (pmul pa pb) (pmul qa qb) = true.
Proof.
  intros Hw Lqa Bpa Lpa Ha Hb. apply blockb_intro. intros k r Hk Hr.
  assert (Hpk : nth k pa 0 < n).
  { rewrite Forall_forall in Bpa. apply Bpa, nth_In. lia. }
  rewrite (tw_pmul w n pa qa pb qb) by assumption.
  rewrite nth_pmul by (rewrite Lqa; nia).
  rewrite (blockb_spec _ _ _ _ Ha) by lia.
  rewrite (blockb_spec _ _ _ _ Hb) by (try apply Nat.mod_upper_bound; lia).
  rewrite nth_pmul by lia. f_equal.
  rewrite Nat.Div0.add_mod_idemp_l, Nat.Div0.add_mod_idemp_r. f_equal. lia.
Qed.

Lemma list_sum_cons a l : list_sum (a :: l) = a + list_sum l.
Proof. reflexivity. Qed.

Lemma list_sum_map_mod w (f : nat -> nat) l :
  list_sum (map (fun k => f k mod w) l) mod w = list_sum (map f l) mod w.
Proof.
  induction l as [| a l IH]; [reflexivity |]. cbn [map]. rewrite !list_sum_cons.
  rewrite <- Nat.Div0.add_mod_idemp_r, IH.
  rewrite Nat.Div0.add_mod_idemp_r, Nat.Div0.add_mod_idemp_l. reflexivity.
Qed.

Lemma list_sum_map_add (f g : nat -> nat) l :
  list_sum (map (fun k => f k + g k) l) = list_sum (map f l) + list_sum (map g l).
Proof. induction l as [| a l IH]; cbn [map]; rewrite ?list_sum_cons; [reflexivity | lia]. Qed.

Lemma list_sum_perm l1 l2 : Permutation l1 l2 -> list_sum l1 = list_sum l2.
Proof. induction 1; rewrite ?list_sum_cons; lia. Qed.

Lemma is_perm_Permutation n p : is_perm n p = true -> Permutation p (seq 0 n).
Proof.
  intros H. pose proof H as H'. apply is_perm_spec in H'. destruct H' as (Hl & Hb & Hd).
  apply NoDup_Permutation; [assumption | apply seq_NoDup |].
  intros x. split.
  - intros Hx. apply in_seq. rewrite Forall_forall in Hb. apply Hb in Hx. lia.
  - intros Hx. apply in_seq in Hx. eapply perm_surj; eauto. lia.
Qed.

(** The sum of the twists of a product. *)
Lemma twsum_pmul w n pa qa pb qb :
  0 < w -> length qa = w * n -> is_perm n pa = true ->
  blockb w n pa qa = true -> blockb w n pb qb = true ->
  twsum w n (pmul qa qb) = (twsum w n qa + twsum w n qb) mod w.
Proof.
  intros Hw Lqa Ppa Ha Hb. unfold twsum.
  rewrite (map_ext_in (tw w (pmul qa qb))
             (fun k => (tw w qa k + tw w qb (nth k pa 0)) mod w)).
  2:{ intros k Hk. apply in_seq in Hk.
      apply (tw_pmul w n pa qa pb qb); auto using is_perm_bound, is_perm_length. lia. }
  rewrite (list_sum_map_mod w (fun k => tw w qa k + tw w qb (nth k pa 0))).
  rewrite list_sum_map_add.
  rewrite <- Nat.Div0.add_mod. f_equal. f_equal.
  rewrite <- (map_map (fun k => nth k pa 0) (tw w qb)).
  apply list_sum_perm. apply Permutation_map.
  replace (map (fun k => nth k pa 0) (seq 0 n)) with pa.
  - apply is_perm_Permutation. assumption.
  - rewrite <- (is_perm_length _ _ Ppa). symmetry.
    apply nth_ext with (d := 0) (d' := 0).
    + rewrite length_map, length_seq. reflexivity.
    + intros i Hi. rewrite length_map, length_seq in Hi.
      rewrite (nth_map_lt (fun k => nth k pa 0) _ _ 0) by (rewrite length_seq; assumption).
      rewrite seq_nth by assumption. reflexivity.
Qed.

Lemma aswap_Permutation i : forall y, Permutation (aswap i y) y.
Proof.
  induction i as [| i IH]; intros [| a [| b r]]; cbn [aswap]; try reflexivity.
  - apply perm_swap.
  - apply perm_skip. apply IH.
  - apply perm_skip. apply IH.
Qed.

Lemma length_aswap i y : length (aswap i y) = length y.
Proof. apply Permutation_length, aswap_Permutation. Qed.

Lemma count_lt_Permutation x l1 l2 : Permutation l1 l2 -> count_lt x l1 = count_lt x l2.
Proof.
  intros H. unfold count_lt. induction H; cbn [filter].
  - reflexivity.
  - destruct (x0 <? x); cbn [length]; lia.
  - destruct (x0 <? x), (y <? x); reflexivity.
  - lia.
Qed.

Lemma count_lt_cons x a l :
  count_lt x (a :: l) = (if a <? x then 1 else 0) + count_lt x l.
Proof. unfold count_lt. cbn [filter]. destruct (a <? x); reflexivity. Qed.

Lemma parity_aswap i : forall y,
  NoDup y -> i + 1 < length y -> parity (aswap i y) = negb (parity y).
Proof.
  induction i as [| i IH]; intros y Hd Hl.
  - destruct y as [| a [| b r]]; cbn [length] in Hl; try lia.
    cbn [aswap parity]. rewrite !count_lt_cons, !Nat.odd_add.
    assert (Hab : a <> b).
    { inversion Hd as [| ? ? Hn _]. intros ->. apply Hn. left. reflexivity. }
    destruct (Nat.ltb_spec a b), (Nat.ltb_spec b a); try lia;
      destruct (Nat.odd (count_lt a r)), (Nat.odd (count_lt b r)), (parity r); reflexivity.
  - destruct y as [| a r]; cbn [length] in Hl; try lia.
    cbn [aswap parity]. inversion Hd; subst.
    rewrite (count_lt_Permutation a _ _ (aswap_Permutation i r)).
    rewrite IH by (try assumption; lia).
    destruct (Nat.odd (count_lt a r)), (parity r); reflexivity.
Qed.

Lemma parity_apply_word w : forall y,
  NoDup y -> Forall (fun i => i + 1 < length y) w ->
  parity (apply_word w y) = xorb (Nat.odd (length w)) (parity y).
Proof.
  induction w as [| i w IH]; intros y Hd Hw; cbn [apply_word fold_left length].
  - destruct (parity y); reflexivity.
  - inversion Hw; subst. fold (apply_word w (aswap i y)).
    rewrite IH.
    + rewrite parity_aswap by assumption. rewrite Nat.odd_succ, <- Nat.negb_odd.
      destruct (Nat.odd (length w)), (parity y); reflexivity.
    + eapply Permutation_NoDup; [| eassumption]. symmetry. apply aswap_Permutation.
    + rewrite length_aswap. assumption.
Qed.

Ltac destruct_list y n :=
  let rec go y n :=
    lazymatch n with
    | O => destruct y; [| discriminate]
    | S ?n' =>
        let x := fresh "x" in
        destruct y as [| x y]; [discriminate |]; go y n'
    end
  in go y n.

Lemma fund_word8 a f y :
  cfund a = Some f -> length y = 8 ->
  pmul (c8 f) y = apply_word (word_of (c8 f)) y /\ odd_word 8 (c8 f) = true.
Proof.
  intros H L. destruct_list y 8. unfold cfund in H.
  repeat match type of H with
         | (if String.eqb a ?s then _ else _) = _ =>
             destruct (String.eqb a s);
             [injection H as <-; split; vm_compute; reflexivity |]
         end.
  discriminate.
Qed.

Lemma fund_word12 a f y :
  cfund a = Some f -> length y = 12 ->
  pmul (e12 f) y = apply_word (word_of (e12 f)) y /\ odd_word 12 (e12 f) = true.
Proof.
  intros H L. destruct_list y 12. unfold cfund in H.
  repeat match type of H with
         | (if String.eqb a ?s then _ else _) = _ =>
             destruct (String.eqb a s);
             [injection H as <-; split; vm_compute; reflexivity |]
         end.
  discriminate.
Qed.

Lemma parity_odd_word n p y :
  is_perm n y = true -> odd_word n p = true ->
  pmul p y = apply_word (word_of p) y -> parity (pmul p y) = negb (parity y).
Proof.
  intros Hy Hw E. apply is_perm_spec in Hy. destruct Hy as (Ly & _ & Dy).
  unfold odd_word in Hw. apply andb_true_iff in Hw. destruct Hw as [Ho Hb].
  rewrite E, parity_apply_word; [rewrite Ho; reflexivity | assumption |].
  apply Forall_forall. intros i Hi. rewrite forallb_forall in Hb.
  apply Hb in Hi. apply Nat.ltb_lt in Hi. lia.
Qed.

Lemma fund_checked a f : cfund a = Some f -> fund_check f = true.
Proof.
  unfold cfund. intros H.
  repeat match type of H with
         | (if String.eqb a ?s then _ else _) = _ =>
             destruct (String.eqb a s);
             [injection H as <-; vm_compute; reflexivity |]
         end.
  discriminate.
Qed.

Lemma invb_spec g :
  invb g = true <->
  cwf g = true /\ blockb 3 8 (c8 g) (c24 g) = true /\
  blockb 2 12 (e12 g) (e24 g) = true /\
  twsum 3 8 (c24 g) = 0 /\ twsum 2 12 (e24 g) = 0 /\
  parity (c8 g) = parity (e12 g).
Proof.
  unfold invb. rewrite !andb_true_iff, !Nat.eqb_eq, eqb_true_iff. tauto.
Qed.

(** A quarter turn keeps the invariant. *)
Lemma invb_step a f g :
  cfund a = Some f -> invb g = true -> invb (cmul f g) = true.
Proof.
  intros Hf Hg. apply invb_spec in Hg.
  destruct Hg as (Wg & B3 & B2 & T3 & T2 & Pg).
  assert (Hc := fund_checked _ _ Hf). unfold fund_check in Hc.
  rewrite !andb_true_iff, !Nat.eqb_eq in Hc.
  destruct Hc as ((((Wf & F3) & F2) & FT3) & FT2).
  pose proof Wf as Wf'. apply cwf_spec in Wf'. destruct Wf' as (P8 & P24 & P12 & P24').
  pose proof Wg as Wg'. apply cwf_spec in Wg'. destruct Wg' as (Q8 & Q24 & Q12 & Q24').
  apply invb_spec. cbn [cmul c8 c24 e12 e24]. repeat split.
  - apply cwf_cmul; assumption.
  - apply blockb_pmul;
      first [assumption | lia | apply (is_perm_length 24); assumption
            | apply is_perm_bound; assumption | apply is_perm_length; assumption].
  - apply blockb_pmul;
      first [assumption | lia | apply (is_perm_length 24); assumption
            | apply is_perm_bound; assumption | apply is_perm_length; assumption].
  - rewrite (twsum_pmul 3 8 (c8 f) (c24 f) (c8 g) (c24 g))
      by first [assumption | lia | apply (is_perm_length 24); assumption].
    rewrite FT3, T3. reflexivity.
  - rewrite (twsum_pmul 2 12 (e12 f) (e24 f) (e12 g) (e24 g))
      by first [assumption | lia | apply (is_perm_length 24); assumption].
    rewrite FT2, T2. reflexivity.
  - destruct (fund_word8 a f (c8 g) Hf (is_perm_length _ _ Q8)) as [E8 O8].
    destruct (fund_word12 a f (e12 g) Hf (is_perm_length _ _ Q12)) as [E12 O12].
    rewrite (parity_odd_word 8) by assumption.
    rewrite (parity_odd_word 12) by assumption.
    rewrite Pg. reflexivity.
Qed.

Lemma invb_creplay ts : forall g g',
  invb g = true -> creplay ts g = Ok g' -> invb g' = true.
Proof.
  induction ts as [| a ts IH]; intros g g' Hg H; cbn [creplay] in H.
  - injection H as <-. assumption.
  - destruct (cfund a) as [f |] eqn:E; [| discriminate].
    eapply IH; [| eassumption]. eapply invb_step; eassumption.
Qed.

End GroupFacts.

Import GroupFacts.

(** ** The four phases on the permutation layer *)

Module TableFacts.

Local Open Scope nat_scope.

Lemma tab1_ok :
  forallb (fun i => forallb (tab1 i) (seq (i + 1) (8 - (i + 1)))) (seq 0 8) = true.
Proof. vm_cast_no_check (eq_refl true). Qed.

Lemma tab2_ok : forallb tab2 (seq 1 7) = true.
Proof. vm_compute. reflexivity. Qed.

Lemma tab3_ok :
  forallb (fun i => forallb (tab3 i) (seq (i + 1) (12 - (i + 1)))) (seq 0 10) = true.
Proof. vm_cast_no_check (eq_refl true). Qed.

Lemma tab4_ok : forallb tab4 (seq 1 11) = true.
Proof. vm_compute. reflexivity. Qed.

Lemma list_eqb_nat_eq (l1 l2 : list nat) : list_eqb Nat.eqb l1 l2 = true -> l1 = l2.
Proof.
  revert l2. induction l1 as [| x l1 IH]; destruct l2 as [| y l2]; cbn; try discriminate; auto.
  intros H. apply andb_true_iff in H. destruct H as [H1 H2].
  apply Nat.eqb_eq in H1. f_equal; auto.
Qed.

Lemma list_eqb_string_eq (l1 l2 : list token) :
  list_eqb String.eqb l1 l2 = true -> l1 = l2.
Proof.
  revert l2. induction l1 as [| x l1 IH]; destruct l2 as [| y l2]; cbn; try discriminate; auto.
  intros H. apply andb_true_iff in H. destruct H as [H1 H2].
  apply String.eqb_eq in H1. f_equal; auto.
Qed.

Lemma cmove_eqb_eq a b : cmove_eqb a b = true -> a = b.
Proof.
  unfold cmove_eqb. rewrite !andb_true_iff. intros ((((H1 & H2) & H3) & H4) & H5).
  apply list_eqb_nat_eq in H1, H2, H3, H4. apply list_eqb_string_eq in H5.
  destruct a, b. cbn in *. congruence.
Qed.

Lemma is_id_eq n p : is_id n p = true -> p = idp n.
Proof. apply list_eqb_nat_eq. Qed.

Lemma round_trip_of_crtb c : cwf c = true -> crtb c = true -> round_trip (embed c).
Proof.
  intros W H. split; [apply wf_move_of_embed; assumption |].
  unfold crtb in H. destruct (creplay (toks c) (cone [])) as [c' |] eqn:E; [| discriminate].
  apply cmove_eqb_eq in H. subst c'.
  destruct (replay_embed (toks c) (cone []) eq_refl) as [R _].
  change (decompo (embed c)) with (toks c).
  change (move_of_seq []) with (embed (cone [])). rewrite R, E. reflexivity.
Qed.

Lemma round_trip_cmul a b :
  cwf a = true -> cwf b = true ->
  round_trip (embed a) -> round_trip (embed b) -> round_trip (embed (cmul a b)).
Proof.
  intros Wa Wb Ra Rb. rewrite embed_cmul by assumption. apply round_trip_mul; assumption.
Qed.

Lemma brings_spec p i j :
  brings p i j = true -> nth i p 0 = j /\ forall k, k < i -> nth k p 0 = k.
Proof.
  unfold brings. rewrite andb_true_iff, Nat.eqb_eq, forallb_forall. intros [H1 H2].
  split; [assumption |]. intros k Hk. apply Nat.eqb_eq, H2, in_seq. lia.
Qed.

(** A loop whose body keeps an invariant indexed by the loop counter. *)
Lemma for_each_inv {St : Type} (I : nat -> St -> Prop) (body : St -> nat -> res St) n :
  forall a s,
  I a s ->
  (forall i s, a <= i < a + n -> I i s -> exists s', body s i = Ok s' /\ I (S i) s') ->
  exists s', for_each (seq a n) body s = Ok s' /\ I (a + n) s'.
Proof.
  induction n as [| n IH]; intros a s Hs Hb; cbn [seq for_each].
  - exists s. rewrite Nat.add_0_r. auto.
  - destruct (Hb a s) as (s1 & E & H1); [lia | assumption |].
    rewrite E. cbn [bind]. destruct (IH (S a) s1 H1) as (s' & E' & H').
    + intros i s0 Hi. apply Hb. lia.
    + exists s'. rewrite <- Nat.add_succ_comm. auto.
Qed.

Lemma crow_eq_nth y i v :
  i < length y -> crow_eq y i (Z.of_nat v) = Ok (nth i y 0 =? v).
Proof.
  intros H. unfold crow_eq. rewrite (nth_error_nth' y 0 H). f_equal.
  destruct (Nat.eqb_spec (nth i y 0) v) as [-> | N].
  - apply Z.eqb_refl.
  - apply Z.eqb_neq. lia.
Qed.

(** In a permutation whose first [i] entries are in place, a misplaced
    label [i] is found after slot [i]. *)
Lemma cfind_label_perm n y i :
  is_perm n y = true -> (forall k, k < i -> nth k y 0 = k) -> i < n ->
  nth i y 0 <> i ->
  exists j, cfind_label y i = Ok j /\ i < j < n /\ nth j y 0 = i.
Proof.
  intros P Hfix Hi Hne. pose proof P as P'. apply is_perm_spec in P'.
  destruct P' as (L & B & D).
  assert (Hin : In i y) by (eapply perm_surj; eauto).
  set (idx := index_of i y).
  assert (Hidx : idx < n) by (rewrite <- L; apply index_of_lt; assumption).
  assert (Hnth : nth idx y 0 = i) by (apply nth_index_of; assumption).
  assert (Hgt : i < idx).
  { destruct (Nat.lt_trichotomy idx i) as [H | [H | H]]; [| | assumption].
    - rewrite Hfix in Hnth by assumption. lia.
    - subst idx. rewrite H in Hnth. contradiction. }
  unfold cfind_label. rewrite L.
  assert (Hf : In idx (filter (fun k => nth k y 0 =? i) (seq (i + 1) (n - (i + 1))))).
  { apply filter_In. split; [apply in_seq; lia | apply Nat.eqb_eq; assumption]. }
  destruct (filter (fun k => nth k y 0 =? i) (seq (i + 1) (n - (i + 1)))) as [| j l] eqn:E;
    [contradiction |].
  assert (Hj : In j (filter (fun k => nth k y 0 =? i) (seq (i + 1) (n - (i + 1)))))
    by (rewrite E; left; reflexivity).
  apply filter_In in Hj. destruct Hj as [Hj1 Hj2]. apply in_seq in Hj1.
  apply Nat.eqb_eq in Hj2. exists j. repeat split; try assumption; lia.
Qed.

Lemma all_fixed_idp n y : length y = n -> (forall k, k < n -> nth k y 0 = k) -> y = idp n.
Proof.
  intros L H. apply nth_ext with (d := 0) (d' := 0).
  - unfold idp. rewrite length_seq. assumption.
  - intros k Hk. rewrite L in Hk. unfold idp. rewrite seq_nth by assumption. auto.
Qed.

Lemma tab1_at i j : i < j < 8 -> tab1 i j = true.
Proof.
  intros H. pose proof (proj1 (forallb_forall _ _) tab1_ok i) as T.
  assert (Hi : In i (seq 0 8)) by (apply in_seq; lia).
  apply (proj1 (forallb_forall _ _) (T Hi)). apply in_seq. lia.
Qed.

Lemma tab3_at i j : i < 10 -> i < j < 12 -> tab3 i j = true.
Proof.
  intros Hi H. pose proof (proj1 (forallb_forall _ _) tab3_ok i) as T.
  assert (Hi' : In i (seq 0 10)) by (apply in_seq; lia).
  apply (proj1 (forallb_forall _ _) (T Hi')). apply in_seq. lia.
Qed.

Lemma tab2_at i : 1 <= i < 8 -> tab2 i = true.
Proof.
  intros H. apply (proj1 (forallb_forall _ _) tab2_ok). apply in_seq. lia.
Qed.

Lemma tab4_at i : 1 <= i < 12 -> tab4 i = true.
Proof.
  intros H. apply (proj1 (forallb_forall _ _) tab4_ok). apply in_seq. lia.
Qed.

Ltac splits := repeat match goal with |- _ /\ _ => split end.

Lemma round_trip_cone : round_trip (embed (cone [])).
Proof. exact round_trip_one. Qed.

(** *** Phase 1 *)

Lemma corner_pos_correct (y : list nat) :
  is_perm 8 y = true ->
  exists r, csolve_corner_pos y cM0 1 3 cfund_l = Ok r /\
    cwf r = true /\ round_trip (embed r) /\ pmul (c8 r) y = idp 8.
Proof.
  intros Py. unfold csolve_corner_pos.
  destruct (for_each_inv
    (fun i (st : cmove * list nat) =>
       cwf (fst st) = true /\ round_trip (embed (fst st)) /\
       snd st = pmul (c8 (fst st)) y /\ is_perm 8 (snd st) = true /\
       forall k, k < i -> nth k (snd st) 0 = k)
    (corner_pos_body cM0 1 3 cfund_l) 8 0 (cone [], y)) as (st & E & I).
  - cbn [fst snd]. splits.
    + reflexivity.
    + apply round_trip_cone.
    + symmetry. apply pmul_idp_l'. apply is_perm_length. assumption.
    + assumption.
    + intros k Hk. lia.
  - intros i [res yy] Hi (W & R & Ey & P & F). cbn [fst snd] in *.
    unfold corner_pos_body.
    rewrite crow_eq_nth by (rewrite (is_perm_length _ _ P); lia). cbn [bind].
    destruct (Nat.eqb_spec (nth i yy 0) i) as [Eq | Ne].
    + eexists. split; [reflexivity |]. cbn [fst snd]. splits; try assumption.
      intros k Hk. destruct (Nat.eq_dec k i) as [-> | N]; [assumption | apply F; lia].
    + destruct (cfind_label_perm 8 yy i P F ltac:(lia) Ne) as (j & -> & Hj & Hyj).
      cbn [bind]. pose proof (tab1_at i j ltac:(lia)) as T. unfold tab1 in T.
      destruct (csend_8 1 3 i j cfund_l 5 1 cprev0) as [[g |] |]; try discriminate.
      cbn [bind cconjugate_found]. set (n := cconjugate cM0 g) in *.
      rewrite !andb_true_iff in T. destruct T as [[Wn Rn] Bn].
      apply brings_spec in Bn. destruct Bn as [Bi Bk].
      eexists. split; [reflexivity |]. cbn [fst snd cmul c8].
      assert (P8n := cwf_c8 _ Wn). assert (P8r := cwf_c8 _ W).
      splits.
      * apply cwf_cmul; assumption.
      * apply round_trip_cmul; auto using round_trip_of_crtb.
      * rewrite Ey, act_pmul. symmetry. apply pmul_assoc.
        rewrite (is_perm_length _ _ P8r). apply is_perm_bound. assumption.
      * rewrite act_pmul. apply is_perm_pmul; assumption.
      * intros k Hk. rewrite act_pmul.
        rewrite nth_pmul by (rewrite (is_perm_length _ _ P8n); lia).
        destruct (Nat.eq_dec k i) as [-> | N].
        -- rewrite Bi. assumption.
        -- rewrite Bk by lia. apply F. lia.
  - destruct st as [r yy]. cbn [fst snd] in *.
    destruct I as (W & R & Ey & P & F). exists r. rewrite E. cbn [bind fst].
    splits; try assumption; [reflexivity |].
    rewrite <- Ey. apply all_fixed_idp; [apply is_perm_length; assumption | assumption].
Qed.

(** *** Phase 3 *)

Lemma ctry_switchers_found sws c_l auth i j n : forall k nm,
  ctry_switchers sws c_l k i j auth None = Ok (Some n) ->
  ctry_switchers sws c_l k i j auth nm = Ok (Some n).
Proof.
  induction c_l as [| [[cb1 cb2] cb3] c_l IH]; intros k nm H; cbn [ctry_switchers] in *.
  - discriminate.
  - destruct (csend_12 cb1 cb2 cb3 i j auth 3 1 cprev0) as [[g |] |]; cbn [bind] in *.
    + assumption.
    + apply IH. assumption.
    + discriminate.
Qed.

Lemma edge_pos_correct (y : list nat) :
  is_perm 12 y = true ->
  exists r, csolve_edge_pos y switchers zones cfund_l = Ok r /\
    cwf r = true /\ round_trip (embed r) /\
    c8 r = idp 8 /\ c24 r = idp 24 /\
    is_perm 12 (pmul (e12 r) y) = true /\
    forall k, k < 10 -> nth k (pmul (e12 r) y) 0 = k.
Proof.
  intros Py. unfold csolve_edge_pos.
  destruct (for_each_inv
    (fun i (st : cmove * list nat * option cmove) =>
       cwf (fst (fst st)) = true /\ round_trip (embed (fst (fst st))) /\
       c8 (fst (fst st)) = idp 8 /\ c24 (fst (fst st)) = idp 24 /\
       snd (fst st) = pmul (e12 (fst (fst st))) y /\
       is_perm 12 (snd (fst st)) = true /\
       forall k, k < i -> nth k (snd (fst st)) 0 = k)
    (edge_pos_body switchers zones cfund_l) 10 0 (cone [], y, None)) as (st & E & I).
  - cbn [fst snd]. splits.
    + reflexivity.
    + apply round_trip_cone.
    + reflexivity.
    + reflexivity.
    + symmetry. apply pmul_idp_l'. apply is_perm_length. assumption.
    + assumption.
    + intros k Hk. lia.
  - intros i [[res yy] nm] Hi (W & R & C8 & C24 & Ey & P & F). cbn [fst snd] in *.
    unfold edge_pos_body.
    rewrite crow_eq_nth by (rewrite (is_perm_length _ _ P); lia). cbn [bind].
    destruct (Nat.eqb_spec (nth i yy 0) i) as [Eq | Ne].
    + eexists. split; [reflexivity |]. cbn [fst snd]. splits; try assumption.
      intros k Hk. destruct (Nat.eq_dec k i) as [-> | N]; [assumption | apply F; lia].
    + destruct (cfind_label_perm 12 yy i P F ltac:(lia) Ne) as (j & -> & Hj & Hyj).
      cbn [bind]. pose proof (tab3_at i j ltac:(lia) ltac:(lia)) as T. unfold tab3 in T.
      destruct (ctry_switchers switchers zones 0 i j cfund_l None) as [[n |] |] eqn:Et;
        try discriminate.
      rewrite (ctry_switchers_found _ _ _ _ _ _ _ nm Et). cbn [bind].
      rewrite !andb_true_iff in T. destruct T as [[[[Wn Rn] I8] I24] Bn].
      apply brings_spec in Bn. destruct Bn as [Bi Bk].
      apply is_id_eq in I8, I24.
      eexists. split; [reflexivity |]. cbn [fst snd cmul c8 c24 e12].
      assert (P12n := cwf_e12 _ Wn). assert (P12r := cwf_e12 _ W).
      splits.
      * apply cwf_cmul; assumption.
      * apply round_trip_cmul; auto using round_trip_of_crtb.
      * rewrite I8, C8. reflexivity.
      * rewrite I24, C24. reflexivity.
      * rewrite Ey, act_pmul. symmetry. apply pmul_assoc.
        rewrite (is_perm_length _ _ P12r). apply is_perm_bound. assumption.
      * rewrite act_pmul. apply is_perm_pmul; assumption.
      * intros k Hk. rewrite act_pmul.
        rewrite nth_pmul by (rewrite (is_perm_length _ _ P12n); lia).
        destruct (Nat.eq_dec k i) as [-> | N].
        -- rewrite Bi. assumption.
        -- rewrite Bk by lia. apply F. lia.
  - destruct st as [[r yy] nm]. cbn [fst snd] in *.
    destruct I as (W & R & C8 & C24 & Ey & P & F). exists r. rewrite E. cbn [bind fst].
    rewrite <- Ey. splits; try assumption; reflexivity.
Qed.

(** *** Phases 2 and 4: the twists *)

Lemma pmul_map (f : nat -> nat) a b :
  Forall (fun k => k < length b) a -> pmul a (map f b) = map f (pmul a b).
Proof.
  intros H. unfold pmul. rewrite map_map. apply map_ext_in. intros k Hk.
  rewrite Forall_forall in H. apply (nth_map_lt f). auto.
Qed.

Lemma twists_at_spec w n q i v k :
  twists_at w n q i v = true -> 1 <= k < n -> tw w q k = if k =? i then v else 0.
Proof.
  unfold twists_at. rewrite forallb_forall. intros H Hk.
  apply Nat.eqb_eq, H, in_seq. lia.
Qed.

Lemma nth_idp n k : k < n -> nth k (idp n) 0 = k.
Proof. intros H. unfold idp. rewrite seq_nth by assumption. reflexivity. Qed.

(** Applying a move that only twists: the twist of slot [i] is cancelled,
    the slots before it stay untwisted. *)
Lemma twist_step w n nq h i v :
  0 < w -> is_perm (w * n) nq = true -> is_perm (w * n) h = true ->
  blockb w n (idp n) nq = true -> blockb w n (idp n) h = true ->
  twists_at w n nq i v = true -> 1 <= i < n ->
  (v + tw w h i) mod w = 0 ->
  (forall k, 1 <= k < i -> tw w h k = 0) ->
  is_perm (w * n) (pmul nq h) = true /\
  blockb w n (idp n) (pmul nq h) = true /\
  forall k, 1 <= k < S i -> tw w (pmul nq h) k = 0.
Proof.
  intros Hw Pn Ph Bn Bh Tn Hi Hv Hz.
  assert (Li : length (idp n) = n) by (unfold idp; apply length_seq).
  assert (Bi : Forall (fun x => x < n) (idp n)) by (apply is_perm_bound, is_perm_idp).
  splits.
  - apply is_perm_pmul; assumption.
  - rewrite <- (pmul_idp_l' n (idp n)) at 1 by assumption.
    apply blockb_pmul; try assumption. apply is_perm_length. assumption.
  - intros k Hk.
    rewrite (tw_pmul w n (idp n) nq (idp n) h) by
      first [assumption | lia | apply is_perm_length; assumption].
    rewrite nth_idp by lia. rewrite (twists_at_spec _ _ _ _ _ _ Tn) by lia.
    destruct (Nat.eqb_spec k i) as [-> | N]; [assumption |].
    rewrite Hz by lia. cbn [Nat.add]. apply Nat.Div0.mod_0_l.
Qed.

Lemma tw_map_mod w h i n :
  0 < w -> length h = w * n -> i < n ->
  nth (w * i) (map (fun k => k mod w) h) 0 = tw w h i.
Proof.
  intros Hw L Hi. unfold tw. apply (nth_map_lt (fun k => k mod w)). rewrite L. nia.
Qed.

Lemma corner_ori_correct (q : list nat) :
  is_perm 24 q = true -> blockb 3 8 (idp 8) q = true ->
  exists r, cpivot_corner_cubies (map (fun k => k mod 3) q) cM1 2 cfund_l = Ok r /\
    cwf r = true /\ round_trip (embed r) /\ c8 r = idp 8 /\
    is_perm 24 (pmul (c24 r) q) = true /\
    blockb 3 8 (idp 8) (pmul (c24 r) q) = true /\
    forall k, 1 <= k < 8 -> tw 3 (pmul (c24 r) q) k = 0.
Proof.
  intros Pq Bq. unfold cpivot_corner_cubies.
  destruct (for_each_inv
    (fun i (st : cmove * list nat) =>
       cwf (fst st) = true /\ round_trip (embed (fst st)) /\ c8 (fst st) = idp 8 /\
       snd st = map (fun k => k mod 3) (pmul (c24 (fst st)) q) /\
       is_perm 24 (pmul (c24 (fst st)) q) = true /\
       blockb 3 8 (idp 8) (pmul (c24 (fst st)) q) = true /\
       forall k, 1 <= k < i -> tw 3 (pmul (c24 (fst st)) q) k = 0)
    (corner_ori_body cM1 2 cfund_l) 7 1 (cone [], map (fun k => k mod 3) q))
    as (st & E & I).
  - cbn [fst snd cone c24 c8].
    rewrite (pmul_idp_l' 24) by (apply is_perm_length; assumption).
    splits; try assumption; try reflexivity.
    + apply round_trip_cone.
    + intros k Hk. lia.
  - intros i [res yy] Hi (W & R & C8 & Ey & Ph & Bh & Z). cbn [fst snd] in *.
    set (h := pmul (c24 res) q) in *.
    assert (Lh : length h = 3 * 8) by (apply is_perm_length; assumption).
    assert (Ly : length yy = 24) by (rewrite Ey, length_map; exact Lh).
    unfold corner_ori_body.
    change (crow_eq yy (3 * i) 2%Z) with (crow_eq yy (3 * i) (Z.of_nat 2)).
    change (crow_eq yy (3 * i) 1%Z) with (crow_eq yy (3 * i) (Z.of_nat 1)).
    rewrite !crow_eq_nth by lia. cbn [bind].
    rewrite Ey, (tw_map_mod 3 h i 8) by (try assumption; lia).
    pose proof (tab2_at i ltac:(lia)) as T. unfold tab2 in T.
    destruct (csend_8_slow 0 2 0 i cfund_l 5 1 cprev0) as [[g |] |]; try discriminate.
    set (n := cconjugate cM1 g) in *.
    rewrite !andb_true_iff in T.
    destruct T as [[[[[[[[[Wn Rn] I8] Bn] Tn] Wn2] Rn2] I82] Bn2] Tn2].
    apply is_id_eq in I8, I82.
    assert (P24r := cwf_c24 _ W).
    assert (Step : forall m v, cwf m = true -> crtb m = true -> c8 m = idp 8 ->
              blockb 3 8 (c8 m) (c24 m) = true -> twists_at 3 8 (c24 m) i v = true ->
              (v + tw 3 h i) mod 3 = 0 ->
              cwf (cmul m res) = true /\ round_trip (embed (cmul m res)) /\
              c8 (cmul m res) = idp 8 /\
              act (c24 m) (map (fun k => k mod 3) h)
              = map (fun k => k mod 3) (pmul (c24 (cmul m res)) q) /\
              is_perm 24 (pmul (c24 (cmul m res)) q) = true /\
              blockb 3 8 (idp 8) (pmul (c24 (cmul m res)) q) = true /\
              forall k, 1 <= k < S i -> tw 3 (pmul (c24 (cmul m res)) q) k = 0).
    { intros m v Wm Rm Im Bm Tm Hv. assert (P24m := cwf_c24 _ Wm).
      rewrite Im in Bm.
      assert (Eh : pmul (c24 (cmul m res)) q = pmul (c24 m) h).
      { cbn [cmul c24]. apply pmul_assoc.
        rewrite (is_perm_length _ _ P24r). apply is_perm_bound. assumption. }
      rewrite Eh.
      destruct (twist_step 3 8 (c24 m) h i v) as (S1 & S2 & S3);
        try assumption; try lia.
      splits; try assumption.
      - apply cwf_cmul; assumption.
      - apply round_trip_cmul; auto using round_trip_of_crtb.
      - cbn [cmul c8]. rewrite Im, C8. reflexivity.
      - rewrite act_pmul. apply pmul_map. rewrite Lh. apply is_perm_bound. assumption. }
    assert (Ht : tw 3 h i < 3) by (apply tw_lt; lia).
    destruct (Nat.eqb_spec (tw 3 h i) 2) as [E2 | N2].
    + cbn [bind cconjugate_found]. eexists. split; [reflexivity |]. cbn [fst snd].
      rewrite <- Ey. rewrite Ey. apply (Step n 1); try assumption. rewrite E2. reflexivity.
    + cbn [bind]. destruct (Nat.eqb_spec (tw 3 h i) 1) as [E1 | N1].
      * cbn [bind cconjugate_found]. eexists. split; [reflexivity |]. cbn [fst snd].
        apply (Step (cpow_body n 2) 2); try assumption. rewrite E1. reflexivity.
      * eexists. split; [reflexivity |]. cbn [fst snd]. fold h.
        splits; try assumption; try reflexivity.
        intros k Hk. destruct (Nat.eq_dec k i) as [-> | N]; [lia | apply Z; lia].
  - destruct st as [r yy]. cbn [fst snd] in *.
    destruct I as (W & R & C8 & Ey & Ph & Bh & Z). exists r. rewrite E. cbn [bind fst].
    splits; try assumption; reflexivity.
Qed.

Lemma edge_ori_correct (q : list nat) :
  is_perm 24 q = true -> blockb 2 12 (idp 12) q = true ->
  exists r, cpivot_edge_cubies (map (fun k => k mod 2) q) cM31 3 cfund_l = Ok r /\
    cwf r = true /\ round_trip (embed r) /\
    c8 r = idp 8 /\ c24 r = idp 24 /\ e12 r = idp 12 /\
    is_perm 24 (pmul (e24 r) q) = true /\
    blockb 2 12 (idp 12) (pmul (e24 r) q) = true /\
    forall k, 1 <= k < 12 -> tw 2 (pmul (e24 r) q) k = 0.
Proof.
  intros Pq Bq. unfold cpivot_edge_cubies.
  destruct (for_each_inv
    (fun i (st : cmove * list nat) =>
       cwf (fst st) = true /\ round_trip (embed (fst st)) /\
       c8 (fst st) = idp 8 /\ c24 (fst st) = idp 24 /\ e12 (fst st) = idp 12 /\
       snd st = map (fun k => k mod 2) (pmul (e24 (fst st)) q) /\
       is_perm 24 (pmul (e24 (fst st)) q) = true /\
       blockb 2 12 (idp 12) (pmul (e24 (fst st)) q) = true /\
       forall k, 1 <= k < i -> tw 2 (pmul (e24 (fst st)) q) k = 0)
    (edge_ori_body cM31 3 cfund_l) 11 1 (cone [], map (fun k => k mod 2) q))
    as (st & E & I).
  - cbn [fst snd cone c24 c8 e12 e24].
    rewrite (pmul_idp_l' 24) by (apply is_perm_length; assumption).
    splits; try assumption; try reflexivity.
    + apply round_trip_cone.
    + intros k Hk. lia.
  - intros i [res yy] Hi (W & R & C8 & C24 & E12 & Ey & Ph & Bh & Z). cbn [fst snd] in *.
    set (h := pmul (e24 res) q) in *.
    assert (Lh : length h = 2 * 12) by (apply is_perm_length; assumption).
    assert (Ly : length yy = 24) by (rewrite Ey, length_map; exact Lh).
    unfold edge_ori_body.
    change (crow_eq yy (2 * i) 0%Z) with (crow_eq yy (2 * i) (Z.of_nat 0)).
    rewrite !crow_eq_nth by lia. cbn [bind].
    rewrite Ey, (tw_map_mod 2 h i 12) by (try assumption; lia).
    assert (Ht : tw 2 h i < 2) by (apply tw_lt; lia).
    destruct (Nat.eqb_spec (tw 2 h i) 0) as [E0 | N0].
    + eexists. split; [reflexivity |]. cbn [fst snd]. fold h.
      splits; try assumption; try reflexivity.
      intros k Hk. destruct (Nat.eq_dec k i) as [-> | N]; [assumption | apply Z; lia].
    + pose proof (tab4_at i ltac:(lia)) as T. unfold tab4 in T.
      destruct (csend_12_slow 0 3 0 i cfund_l 3 1 cprev0) as [[g |] |]; try discriminate.
      set (n := cconjugate cM31 g) in *.
      rewrite !andb_true_iff in T.
      destruct T as [[[[[[Wn Rn] I8] I24] I12] Bn] Tn].
      apply is_id_eq in I8, I24, I12. rewrite I12 in Bn.
      assert (P24r := cwf_e24 _ W). assert (P24n := cwf_e24 _ Wn).
      assert (Eh : pmul (e24 (cmul n res)) q = pmul (e24 n) h).
      { cbn [cmul e24]. apply pmul_assoc.
        rewrite (is_perm_length _ _ P24r). apply is_perm_bound. assumption. }
      destruct (twist_step 2 12 (e24 n) h i 1) as (S1 & S2 & S3);
        try assumption; try lia.
      { replace (tw 2 h i) with 1 by lia. reflexivity. }
      cbn [bind cconjugate_found]. eexists. split; [reflexivity |]. cbn [fst snd].
      fold n. rewrite Eh. splits; try assumption.
      * apply cwf_cmul; assumption.
      * apply round_trip_cmul; auto using round_trip_of_crtb.
      * cbn [cmul c8]. rewrite I8, C8. reflexivity.
      * cbn [cmul c24]. rewrite I24, C24. reflexivity.
      * cbn [cmul e12]. rewrite I12, E12. reflexivity.
      * rewrite act_pmul. apply pmul_map. rewrite Lh. apply is_perm_bound. assumption.
  - destruct st as [r yy]. cbn [fst snd] in *.
    destruct I as (W & R & C8 & C24 & E12 & Ey & Ph & Bh & Z).
    exists r. rewrite E. cbn [bind fst].
    splits; try assumption; reflexivity.
Qed.

(** A block list over the identity with no twist after the first block
    and an even twist sum is the identity. *)
Lemma twists_zero_id w n h :
  0 < w -> 0 < n -> length h = w * n ->
  blockb w n (idp n) h = true -> twsum w n h = 0 ->
  (forall k, 1 <= k < n -> tw w h k = 0) ->
  h = idp (w * n).
Proof.
  intros Hw Hn L B S Z.
  assert (Z0 : tw w h 0 = 0).
  { unfold twsum in S. destruct n as [| n]; [lia |].
    cbn [seq map] in S. rewrite list_sum_cons in S.
    replace (list_sum (map (tw w h) (seq 1 n))) with 0 in S.
    - rewrite Nat.add_0_r in S. rewrite Nat.mod_small in S by (apply tw_lt; lia).
      assumption.
    - symmetry. assert (G : forall l, (forall k, In k l -> tw w h k = 0) ->
                           list_sum (map (tw w h) l) = 0).
      { induction l as [| a l IH]; intros Hl; [reflexivity |].
        cbn [map]. rewrite list_sum_cons, Hl, IH; [reflexivity | | left; reflexivity].
        intros k Hk. apply Hl. right. assumption. }
      apply G. intros k Hk. apply in_seq in Hk. apply Z. lia. }
  assert (Zall : forall k, k < n -> tw w h k = 0).
  { intros k Hk. destruct k; [assumption | apply Z; lia]. }
  apply all_fixed_idp; [assumption |]. intros x Hx.
  assert (Hd : x / w < n) by (apply Nat.Div0.div_lt_upper_bound; lia).
  assert (Hm : x mod w < w) by (apply Nat.mod_upper_bound; lia).
  rewrite (Nat.div_mod_eq x w) at 1.
  rewrite (blockb_spec _ _ _ _ B) by assumption.
  rewrite Zall by assumption. rewrite nth_idp by assumption.
  rewrite Nat.add_0_r, Nat.Div0.mod_mod. symmetry. apply Nat.div_mod_eq.
Qed.

(** *** The state of a configuration *)

Ltac bounded k :=
  repeat (destruct k as [| k]; [reflexivity |]); exfalso; lia.

Lemma cX_8 k : k < 8 -> nth k cX 0 = k.
Proof. intros H. bounded k. Qed.
Lemma cX_12 k : k < 12 -> nth (8 + k) cX 0 = k.
Proof. intros H. bounded k. Qed.
Lemma cX_3 k : k < 24 -> nth (20 + k) cX 0 = k mod 3.
Proof. intros H. bounded k. Qed.
Lemma cX_2 k : k < 24 -> nth (44 + k) cX 0 = k mod 2.
Proof. intros H. bounded k. Qed.

Lemma cstate_blocks g : cwf g = true -> cstate g = blocks g.
Proof.
  intros W. unfold cstate, blocks, act, cM. rewrite !map_app, !map_map.
  assert (B8 := is_perm_bound _ _ (cwf_c8 _ W)).
  assert (B12 := is_perm_bound _ _ (cwf_e12 _ W)).
  assert (B24 := is_perm_bound _ _ (cwf_c24 _ W)).
  assert (B24' := is_perm_bound _ _ (cwf_e24 _ W)).
  rewrite Forall_forall in B8, B12, B24, B24'.
  f_equal; [| f_equal; [| f_equal]].
  - rewrite <- (map_id (c8 g)) at 2. apply map_ext_in. intros k Hk. apply cX_8. auto.
  - rewrite <- (map_id (e12 g)) at 2. apply map_ext_in. intros k Hk. apply cX_12. auto.
  - apply map_ext_in. intros k Hk. apply cX_3. auto.
  - apply map_ext_in. intros k Hk. apply cX_2. auto.
Qed.

Lemma nth_app_off {X : Type} (l1 l2 : list X) n k d :
  length l1 = n -> nth (n + k) (l1 ++ l2) d = nth k l2 d.
Proof. intros <-. apply app_nth2_plus. Qed.

Lemma act_cM_blocks r g :
  cwf r = true -> cwf g = true -> act (cM r) (blocks g) = blocks (cmul r g).
Proof.
  intros Wr Wg. unfold act, cM, blocks. rewrite !map_app, !map_map.
  assert (R8 := is_perm_bound _ _ (cwf_c8 _ Wr)).
  assert (R12 := is_perm_bound _ _ (cwf_e12 _ Wr)).
  assert (R24 := is_perm_bound _ _ (cwf_c24 _ Wr)).
  assert (R24' := is_perm_bound _ _ (cwf_e24 _ Wr)).
  rewrite Forall_forall in R8, R12, R24, R24'.
  assert (L8 := is_perm_length _ _ (cwf_c8 _ Wg)).
  assert (L12 := is_perm_length _ _ (cwf_e12 _ Wg)).
  assert (L24 := is_perm_length _ _ (cwf_c24 _ Wg)).
  assert (L24' := is_perm_length _ _ (cwf_e24 _ Wg)).
  cbn [cmul c8 c24 e12 e24]. unfold pmul. rewrite !map_map.
  f_equal; [| f_equal; [| f_equal]].
  - apply map_ext_in. intros k Hk. apply app_nth1. rewrite L8. auto.
  - apply map_ext_in. intros k Hk. rewrite (nth_app_off _ _ 8) by assumption.
    apply app_nth1. rewrite L12. auto.
  - apply map_ext_in. intros k Hk.
    change (20 + k) with (8 + (12 + k)).
    rewrite (nth_app_off _ _ 8) by assumption.
    rewrite (nth_app_off _ _ 12) by assumption.
    rewrite app_nth1 by (rewrite length_map, L24; auto).
    apply (nth_map_lt (fun x => x mod 3)). rewrite L24. auto.
  - apply map_ext_in. intros k Hk.
    change (44 + k) with (8 + (12 + (24 + k))).
    rewrite (nth_app_off _ _ 8) by assumption.
    rewrite (nth_app_off _ _ 12) by assumption.
    rewrite (nth_app_off _ _ 24) by (rewrite length_map; assumption).
    apply (nth_map_lt (fun x => x mod 2)). rewrite L24'. auto.
Qed.

Lemma act_cM_cstate r g :
  cwf r = true -> cwf g = true -> act (cM r) (cstate g) = cstate (cmul r g).
Proof.
  intros Wr Wg. rewrite !cstate_blocks by auto using cwf_cmul.
  apply act_cM_blocks; assumption.
Qed.

Lemma firstn_app_exact {X : Type} (l1 l2 : list X) n :
  length l1 = n -> firstn n (l1 ++ l2) = l1.
Proof.
  intros <-. rewrite firstn_app, Nat.sub_diag, firstn_all. cbn [firstn].
  apply app_nil_r.
Qed.

Lemma skipn_app_exact {X : Type} (l1 l2 : list X) n :
  length l1 = n -> skipn n (l1 ++ l2) = l2.
Proof.
  intros <-. rewrite skipn_app, Nat.sub_diag, skipn_all. reflexivity.
Qed.

Lemma cstate_pieces g :
  cwf g = true ->
  firstn (8 - 0) (skipn 0 (cstate g)) = c8 g /\
  firstn (4 * 8 + 12 - (8 + 12)) (skipn (8 + 12) (cstate g))
  = map (fun k => k mod 3) (c24 g) /\
  firstn (8 + 12 - 8) (skipn 8 (cstate g)) = e12 g /\
  skipn (4 * 8 + 12) (cstate g) = map (fun k => k mod 2) (e24 g).
Proof.
  intros W. rewrite cstate_blocks by assumption. unfold blocks.
  assert (L8 := is_perm_length _ _ (cwf_c8 _ W)).
  assert (L12 := is_perm_length _ _ (cwf_e12 _ W)).
  assert (L24 := is_perm_length _ _ (cwf_c24 _ W)).
  assert (L24' := is_perm_length _ _ (cwf_e24 _ W)).
  change (8 - 0) with 8. change (4 * 8 + 12 - (8 + 12)) with 24.
  change (8 + 12 - 8) with 12. change (4 * 8 + 12) with (24 + (12 + 8)).
  change (8 + 12) with (12 + 8). rewrite skipn_O.
  splits.
  - apply firstn_app_exact. assumption.
  - rewrite <- skipn_skipn. rewrite (skipn_app_exact _ _ 8) by assumption.
    rewrite (skipn_app_exact _ _ 12) by assumption.
    apply firstn_app_exact. rewrite length_map. assumption.
  - rewrite (skipn_app_exact _ _ 8) by assumption.
    apply firstn_app_exact. assumption.
  - rewrite <- !skipn_skipn. rewrite (skipn_app_exact _ _ 8) by assumption.
    rewrite (skipn_app_exact _ _ 12) by assumption.
    apply skipn_app_exact. rewrite length_map. assumption.
Qed.

End TableFacts.

Import TableFacts.

(** ** The solver end to end *)

Module SolveFacts.

Lemma abstract_embed c : cwf c = true -> abstract (embed c) = c.
Proof.
  intros W. destruct c as [a b e f t]. unfold abstract, embed. cbn [A8 S3 A12 S2 decompo c8 c24 e12 e24 toks].
  assert (B8 := is_perm_bound _ _ (cwf_c8 _ W)).
  assert (B12 := is_perm_bound _ _ (cwf_e12 _ W)).
  assert (B24 := is_perm_bound _ _ (cwf_c24 _ W)).
  assert (B24' := is_perm_bound _ _ (cwf_e24 _ W)).
  cbn [c8 c24 e12 e24] in *.
  rewrite !unpm_pm by assumption. reflexivity.
Qed.

Lemma embed_inj a b : cwf a = true -> cwf b = true -> embed a = embed b -> a = b.
Proof.
  intros Wa Wb E. rewrite <- (abstract_embed a), <- (abstract_embed b) by assumption.
  rewrite E. reflexivity.
Qed.

(** A move that round-trips is a product of fundamental moves, so composing
    it on the left keeps the invariants. *)
Lemma invb_left g r :
  invb g = true -> cwf r = true -> round_trip (embed r) -> invb (cmul r g) = true.
Proof.
  intros Ig Wr [_ R].
  assert (Wg : cwf g = true) by (apply invb_spec in Ig; tauto).
  change (decompo (embed r)) with (toks r) in R.
  apply (replay_from _ (embed g)) in R; [| apply wf_move_of_embed; assumption].
  destruct (replay_embed (toks r) g Wg) as [E Wc]. rewrite E in R.
  destruct (creplay (toks r) g) as [g' |] eqn:C; cbn [fmap bind] in R; [| discriminate].
  assert (R' : embed g' = embed r * embed g) by congruence.
  rewrite <- embed_cmul in R' by assumption.
  apply embed_inj in R'; [| eauto | apply cwf_cmul; assumption].
  rewrite <- R'. eapply invb_creplay; eassumption.
Qed.

(** Twelve edges with the first ten in place and an even permutation are
    all in place. *)
Lemma edge_parity_id (y : list nat) :
  is_perm 12 y = true -> (forall k, k < 10 -> nth k y 0 = k) -> parity y = false ->
  y = idp 12.
Proof.
  intros P F Hp. pose proof (is_perm_length _ _ P) as L.
  destruct y as [| y0 [| y1 [| y2 [| y3 [| y4 [| y5 [| y6 [| y7 [| y8 [| y9 [| y10 [| y11 [| ? ?]]]]]]]]]]]]];
    try discriminate L.
  pose proof (F 0 ltac:(lia)) as F0. pose proof (F 1 ltac:(lia)) as F1.
  pose proof (F 2 ltac:(lia)) as F2. pose proof (F 3 ltac:(lia)) as F3.
  pose proof (F 4 ltac:(lia)) as F4. pose proof (F 5 ltac:(lia)) as F5.
  pose proof (F 6 ltac:(lia)) as F6. pose proof (F 7 ltac:(lia)) as F7.
  pose proof (F 8 ltac:(lia)) as F8. pose proof (F 9 ltac:(lia)) as F9.
  cbn [nth] in *. subst. clear F L.
  pose proof (is_perm_bound _ _ P) as B. rewrite Forall_forall in B.
  assert (A10 : y10 < 12) by (apply B; do 10 right; left; reflexivity).
  assert (A11 : y11 < 12) by (apply B; do 11 right; left; reflexivity).
  clear B.
  do 12 (destruct y10 as [| y10];
    [do 12 (destruct y11 as [| y11];
       [vm_compute in P; vm_compute in Hp;
        first [discriminate P | discriminate Hp | reflexivity] |]);
     exfalso; lia |]);
  exfalso; lia.
Qed.

Lemma parity_idp8 : parity (idp 8) = false.
Proof. reflexivity. Qed.

(** The four phases in sequence bring every configuration that satisfies
    the invariants back to the identity. *)
Lemma csolve_correct g0 :
  invb g0 = true ->
  exists r, csolve (cstate g0) = Ok (toks r) /\ cwf r = true /\
    round_trip (embed r) /\
    c8 (cmul r g0) = idp 8 /\ c24 (cmul r g0) = idp 24 /\
    e12 (cmul r g0) = idp 12 /\ e24 (cmul r g0) = idp 24.
Proof.
  intros I0. pose proof I0 as J0. apply invb_spec in J0.
  destruct J0 as (W0 & _).
  (* corner positions *)
  destruct (corner_pos_correct (c8 g0) (cwf_c8 _ W0)) as (r1 & E1 & W1 & R1 & C1).
  set (g1 := cmul r1 g0).
  assert (I1 : invb g1 = true) by (apply invb_left; assumption).
  pose proof I1 as J1. apply invb_spec in J1.
  destruct J1 as (Wg1 & B31 & _ & T31 & _ & _).
  change (c8 g1) with (pmul (c8 r1) (c8 g0)) in B31. rewrite C1 in B31.
  (* corner orientations *)
  destruct (corner_ori_correct (c24 g1) (cwf_c24 _ Wg1) B31)
    as (r2 & E2 & W2 & R2 & C2 & P2 & B2 & Z2).
  set (g2 := cmul r2 g1).
  assert (I2 : invb g2 = true) by (apply invb_left; assumption).
  pose proof I2 as J2. apply invb_spec in J2.
  destruct J2 as (Wg2 & _ & _ & T32 & _ & _).
  assert (G2c8 : c8 g2 = idp 8).
  { change (c8 g2) with (pmul (c8 r2) (pmul (c8 r1) (c8 g0))). rewrite C1, C2. reflexivity. }
  assert (G2c24 : c24 g2 = idp 24).
  { apply (twists_zero_id 3 8); try lia; try assumption.
    apply is_perm_length with (n := 24). apply cwf_c24. assumption. }
  (* edge positions *)
  destruct (edge_pos_correct (e12 g2) (cwf_e12 _ Wg2))
    as (r3 & E3 & W3 & R3 & C3 & C3' & P3 & F3).
  set (g3 := cmul r3 g2).
  assert (I3 : invb g3 = true) by (apply invb_left; assumption).
  pose proof I3 as J3. apply invb_spec in J3.
  destruct J3 as (Wg3 & _ & B23 & _ & _ & Par3).
  assert (G3c8 : c8 g3 = idp 8).
  { change (c8 g3) with (pmul (c8 r3) (c8 g2)). rewrite C3, G2c8. reflexivity. }
  assert (G3c24 : c24 g3 = idp 24).
  { change (c24 g3) with (pmul (c24 r3) (c24 g2)). rewrite C3', G2c24. reflexivity. }
  assert (G3e12 : e12 g3 = idp 12).
  { apply edge_parity_id; try assumption.
    rewrite <- Par3, G3c8. reflexivity. }
  rewrite G3e12 in B23.
  (* edge orientations *)
  destruct (edge_ori_correct (e24 g3) (cwf_e24 _ Wg3) B23)
    as (r4 & E4 & W4 & R4 & C4 & C4' & C4'' & P4 & B4 & Z4).
  set (g4 := cmul r4 g3).
  assert (I4 : invb g4 = true) by (apply invb_left; assumption).
  pose proof I4 as J4. apply invb_spec in J4.
  destruct J4 as (Wg4 & _ & _ & _ & T24 & _).
  assert (G4e24 : e24 g4 = idp 24).
  { apply (twists_zero_id 2 12); try lia; try assumption.
    apply is_perm_length with (n := 24). apply cwf_e24. assumption. }
  exists (cmul (cmul (cmul r4 r3) r2) r1).
  assert (Eg : cmul (cmul (cmul (cmul r4 r3) r2) r1) g0 = g4).
  { unfold g4, g3, g2, g1. rewrite !cmul_assoc by auto using cwf_cmul. reflexivity. }
  rewrite Eg. splits.
  - unfold csolve. cbv zeta.
    destruct (cstate_pieces g0 W0) as (Q1 & _). rewrite Q1, E1. cbn [bind].
    rewrite act_cM_cstate by assumption. fold g1.
    destruct (cstate_pieces g1 Wg1) as (_ & Q2 & _). rewrite Q2, E2. cbn [bind].
    rewrite act_cM_cstate by assumption. fold g2.
    destruct (cstate_pieces g2 Wg2) as (_ & _ & Q3 & _). rewrite Q3.
    unfold switchers, zones in E3. rewrite E3. cbn [bind].
    rewrite act_cM_cstate by assumption. fold g3.
    destruct (cstate_pieces g3 Wg3) as (_ & _ & _ & Q4). rewrite Q4, E4. cbn [bind].
    reflexivity.
  - auto using cwf_cmul.
  - auto using round_trip_cmul, cwf_cmul.
  - change (c8 g4) with (pmul (c8 r4) (c8 g3)). rewrite C4, G3c8. reflexivity.
  - change (c24 g4) with (pmul (c24 r4) (c24 g3)). rewrite C4', G3c24. reflexivity.
  - change (e12 g4) with (pmul (e12 r4) (e12 g3)). rewrite C4'', G3e12. reflexivity.
  - assumption.
Qed.

End SolveFacts.

Import SolveFacts.

Module ScrambleFacts.

Lemma cfund_quarter_turn a : quarter_turn a = true -> exists g, cfund a = Some g.
Proof.
  intros H. apply fund_quarter_turn in H. destruct H as [g H].
  rewrite fund_embed in H. destruct (cfund a) as [c |]; [| discriminate].
  exists c. reflexivity.
Qed.

Lemma creplay_total ts :
  Forall (fun a => quarter_turn a = true) ts -> forall g, exists g', creplay ts g = Ok g'.
Proof.
  induction 1 as [| a ts Ha _ IH]; intros g; cbn [creplay].
  - exists g. reflexivity.
  - destruct (cfund_quarter_turn a Ha) as [f ->]. apply IH.
Qed.

Lemma cstate_identity g :
  cwf g = true -> c8 g = idp 8 -> c24 g = idp 24 -> e12 g = idp 12 -> e24 g = idp 24 ->
  cstate g = cX.
Proof.
  intros W E1 E2 E3 E4. rewrite cstate_blocks by assumption. unfold blocks.
  rewrite E1, E2, E3, E4. reflexivity.
Qed.

Lemma embed_identity g :
  c8 g = idp 8 -> c24 g = idp 24 -> e12 g = idp 12 -> e24 g = idp 24 ->
  acts_as_identity (embed g).
Proof.
  intros E1 E2 E3 E4. unfold acts_as_identity, embed. cbn [A8 S3 A12 S2].
  rewrite E1, E2, E3, E4, <- !eye_pm. repeat split.
Qed.

End ScrambleFacts.

Import ScrambleFacts.

(** C1: for every scramble over the twelve quarter-turn tokens,
    [move_list_to_state] gives a state, [solve] returns a token list on it,
    and replaying the scramble followed by that list gives a move whose
    four matrices are identities (positions in place, no twist), so the
    state of the whole sequence is the solved state [X]. *)
Theorem solve_restores_cube (scramble : list token) :
  Forall (fun a => quarter_turn a = true) scramble ->
  exists st sol m,
    Kube.move_list_to_state scramble = Ok st /\
    Kube.solve st = Ok sol /\
    Kube.replay (scramble ++ sol) (move_of_seq []) = Ok m /\
    acts_as_identity m /\
    Kube.move_list_to_state (scramble ++ sol) = Ok Kube.X.
Proof.
  intros Hs. destruct (creplay_total scramble Hs (cone [])) as [g0 E0].
  assert (I0 : invb g0 = true) by (eapply invb_creplay; [| exact E0]; reflexivity).
  assert (W0 : cwf g0 = true) by (apply invb_spec in I0; tauto).
  destruct (csolve_correct g0 I0) as (r & Es & Wr & [Wr' Rr] & G1 & G2 & G3 & G4).
  assert (Wg : cwf (cmul r g0) = true) by (apply cwf_cmul; assumption).
  assert (Er : Kube.replay (scramble ++ toks r) (move_of_seq []) = Ok (embed (cmul r g0))).
  { rewrite replay_app. change (move_of_seq []) with (embed (cone [])).
    rewrite (proj1 (replay_embed scramble (cone []) eq_refl)), E0. cbn [fmap bind].
    rewrite embed_cmul by assumption. apply replay_from.
    - apply wf_move_of_embed. assumption.
    - exact Rr. }
  exists (col_of (cstate g0)), (toks r), (embed (cmul r g0)). splits.
  - rewrite move_list_to_state_embed, E0. reflexivity.
  - rewrite solve_embed; [exact Es |].
    unfold cstate. rewrite length_act. apply length_cM. assumption.
  - exact Er.
  - apply embed_identity; assumption.
  - unfold Kube.move_list_to_state. rewrite Er. cbn [bind].
    rewrite X_col_of, mmul_M_col_of by (assumption || reflexivity).
    fold (cstate (cmul r g0)). rewrite cstate_identity by assumption. reflexivity.
Qed.

Lemma solve_restores_cube_witness :
  Forall (fun a => quarter_turn a = true) ["F"%string; "u"%string; "R"%string] /\
  exists st sol m,
    Kube.move_list_to_state ["F"%string; "u"%string; "R"%string] = Ok st /\
    Kube.solve st = Ok sol /\
    Kube.replay (["F"%string; "u"%string; "R"%string] ++ sol) (move_of_seq []) = Ok m /\
    acts_as_identity m /\
    Kube.move_list_to_state (["F"%string; "u"%string; "R"%string] ++ sol) = Ok Kube.X.
Proof.
  split.
  - repeat constructor.
  - apply (solve_restores_cube ["F"%string; "u"%string; "R"%string]). repeat constructor.
Defined.

(** ** The edge-position phase with a failing switcher *)

Module StaleFacts.

Lemma res_rel_ok {A B : Type} (R : A -> B -> Prop) (r1 : res A) (b : B) :
  res_rel R r1 (Ok b) -> exists a, r1 = Ok a /\ R a b.
Proof.
  destruct r1 as [a | e]; cbn [res_rel]; intros H; [| contradiction].
  exists a. split; [reflexivity | assumption].
Qed.

Lemma send_12_fund_l cb1 cb2 cb3 cl1 cl2 :
  send_12 cb1 cb2 cb3 cl1 cl2 Kube.fund_l 3 1 prev0
  = fmap (option_map embed) (csend_12 cb1 cb2 cb3 cl1 cl2 cfund_l 3 1 cprev0).
Proof.
  rewrite fund_l_embed. apply send_12_embed. apply cwf_constants.
Qed.

End StaleFacts.

(** C3: [solve_edge_pos] with the single switcher [M20] on the edge column
    [7 1 2 0 4 5 6 10 8 9 11 3].  At slot 0 the search succeeds (with the
    identity) and the conjugate [n] of [M20] is applied.  At slot 7 the
    search is exhausted for the only switcher, and no error is raised: the
    move [n] kept from slot 0 is applied a second time, and the function
    returns [n * (n * 1)], which leaves slots 0, 3 and 11 out of place. *)
Theorem stale_switcher_reapplied :
  let Y := column [7; 1; 2; 0; 4; 5; 6; 10; 8; 9; 11; 3]%Z in
  let n := conjugate Kube.M20 (move_of_seq []) in
  send_12 0 3 11 0 3 Kube.fund_l 3 1 prev0 = Ok (Some (move_of_seq [])) /\
  mmul (A12 n) Y = column [0; 1; 2; 3; 4; 5; 6; 10; 8; 9; 11; 7]%Z /\
  find_label (mmul (A12 n) Y) 7 = Ok 11 /\
  send_12 0 3 11 7 11 Kube.fund_l 3 1 prev0 = Ok None /\
  solve_edge_pos Y [Kube.M20] [(0, 3, 11)%Z] Kube.fund_l
  = Ok (n * (n * move_of_seq [])) /\
  mmul (A12 (n * (n * move_of_seq []))) Y
  = column [3; 1; 2; 7; 4; 5; 6; 10; 8; 9; 11; 0]%Z.
Proof.
  cbv zeta. splits.
  - rewrite StaleFacts.send_12_fund_l.
    replace (csend_12 0 3 11 0 3 cfund_l 3 1 cprev0) with (Ok (Some (cone [])))
      by (vm_compute; reflexivity).
    reflexivity.
  - vm_compute. reflexivity.
  - vm_compute. reflexivity.
  - rewrite StaleFacts.send_12_fund_l.
    replace (csend_12 0 3 11 7 11 cfund_l 3 1 cprev0) with (@Ok (option cmove) None)
      by (vm_compute; reflexivity).
    reflexivity.
  - pose proof (solve_edge_pos_embed [7; 1; 2; 0; 4; 5; 6; 10; 8; 9; 11; 3]
                  [cM20] [(0, 3, 11)%Z] cfund_l) as H.
    rewrite <- fund_l_embed in H.
    replace (csolve_edge_pos [7; 1; 2; 0; 4; 5; 6; 10; 8; 9; 11; 3] [cM20]
               [(0, 3, 11)%Z] cfund_l)
      with (Ok (cmul (cconjugate cM20 (cone [])) (cmul (cconjugate cM20 (cone [])) (cone []))))
      in H by (vm_compute; reflexivity).
    destruct (StaleFacts.res_rel_ok _ _ _ (H ltac:(repeat constructor)
                ltac:(apply cwf_constants) eq_refl)) as (m & E & -> & _).
    change (map embed [cM20]) with [embed cM20] in E.
    replace (embed cM20) with Kube.M20 in E by (vm_compute; reflexivity).
    change (column [7; 1; 2; 0; 4; 5; 6; 10; 8; 9; 11; 3]%Z)
      with (col_of [7; 1; 2; 0; 4; 5; 6; 10; 8; 9; 11; 3]).
    rewrite E. apply (f_equal (@Ok move)). vm_compute. reflexivity.
  - vm_compute. reflexivity.
Qed.

(** * Part III: further properties of the code *)

(** ** The move algebra *)

Module AlgebraMore.

Local Open Scope nat_scope.

#[local] Hint Resolve is_perm_bound is_perm_length is_perm_pmul is_perm_pinv is_perm_idp
  is_perm_ppow : perm.

Lemma ppow_pos_add n a i j :
  is_perm n a = true -> ppow_pos a (i + j + 1) = pmul (ppow_pos a i) (ppow_pos a j).
Proof.
  intros H. induction j as [| j IH].
  - rewrite Nat.add_0_r, Nat.add_1_r. reflexivity.
  - replace (i + S j + 1) with (S (i + j + 1)) by lia. cbn [ppow_pos]. rewrite IH.
    apply pmul_assoc. rewrite (is_perm_length _ _ (is_perm_ppow_pos n a j H)).
    apply is_perm_bound. apply is_perm_ppow_pos. assumption.
Qed.

Lemma ppow_add n a x y :
  is_perm n a = true -> (0 <= x)%Z -> (0 <= y)%Z ->
  ppow a (x + y) = pmul (ppow a x) (ppow a y).
Proof.
  intros H Hx Hy. pose proof (is_perm_length _ _ H) as L.
  destruct (Z.eq_dec x 0) as [-> | Nx].
  - rewrite Z.add_0_l. change (ppow a 0) with (idp (length a)). rewrite L.
    symmetry. apply pmul_idp_l'. apply is_perm_length. apply is_perm_ppow. assumption.
  - destruct (Z.eq_dec y 0) as [-> | Ny].
    + rewrite Z.add_0_r. change (ppow a 0) with (idp (length a)). rewrite L.
      symmetry. apply pmul_idp_r. apply is_perm_bound. apply is_perm_ppow. assumption.
    + unfold ppow.
      destruct (Z.eqb_spec (x + y) 0); [lia |]. destruct (Z.ltb_spec (x + y) 0); [lia |].
      destruct (Z.eqb_spec x 0); [lia |]. destruct (Z.ltb_spec x 0); [lia |].
      destruct (Z.eqb_spec y 0); [lia |]. destruct (Z.ltb_spec y 0); [lia |].
      replace (Z.to_nat (x + y) - 1) with ((Z.to_nat x - 1) + (Z.to_nat y - 1) + 1) by lia.
      apply (ppow_pos_add n). assumption.
Qed.

Lemma repeat_seq_add (d : list token) a b :
  repeat_seq d (a + b) = (repeat_seq d a ++ repeat_seq d b)%list.
Proof.
  induction b as [| b IH].
  - rewrite Nat.add_0_r, app_nil_r. reflexivity.
  - rewrite Nat.add_succ_r. cbn [repeat_seq]. rewrite IH, app_assoc. reflexivity.
Qed.

Lemma cpow_add c x y :
  cwf c = true -> (0 <= x)%Z -> (0 <= y)%Z ->
  cpow_body c (x + y) = cmul (cpow_body c x) (cpow_body c y).
Proof.
  intros W Hx Hy.
  destruct (Z.eq_dec x 0) as [-> | Nx].
  { rewrite Z.add_0_l. change (cpow_body c 0) with (cone []).
    symmetry. apply cmul_cone_l. apply cwf_cpow_body. assumption. }
  destruct (Z.eq_dec y 0) as [-> | Ny].
  { rewrite Z.add_0_r. change (cpow_body c 0) with (cone []).
    symmetry. apply cmul_cone_r. apply cwf_cpow_body. assumption. }
  pose proof W as W'. apply cwf_spec in W'. destruct W' as (P1 & P2 & P3 & P4).
  unfold cpow_body.
  destruct (Z.eqb_spec (x + y) 0); [lia |]. destruct (Z.eqb_spec (x + y) (-1)); [lia |].
  destruct (Z.eqb_spec x 0); [lia |]. destruct (Z.eqb_spec x (-1)); [lia |].
  destruct (Z.eqb_spec y 0); [lia |]. destruct (Z.eqb_spec y (-1)); [lia |].
  unfold cmul. cbn [c8 c24 e12 e24 toks].
  rewrite (ppow_add 8), (ppow_add 24 (c24 c)), (ppow_add 12), (ppow_add 24 (e24 c))
    by assumption.
  f_equal. replace (Z.to_nat (x + y)) with (Z.to_nat y + Z.to_nat x) by lia.
  apply repeat_seq_add.
Qed.

Lemma pinv_involutive n p : is_perm n p = true -> pinv (pinv p) = p.
Proof.
  intros H.
  assert (Hq : is_perm n (pinv p) = true) by auto with perm.
  assert (Hqq : is_perm n (pinv (pinv p)) = true) by auto with perm.
  rewrite <- (pmul_idp_r (pinv (pinv p)) n) by auto with perm.
  rewrite <- (pmul_pinv_r n p H).
  rewrite <- pmul_assoc
    by (rewrite (is_perm_length _ _ Hq); auto with perm).
  rewrite (pmul_pinv_r n (pinv p) Hq).
  apply pmul_idp_l'. auto with perm.
Qed.

Lemma flip_token_involutive t :
  quarter_turn t = true -> flip_token (flip_token t) = t.
Proof.
  unfold quarter_turn, quarter_turns. cbn [existsb]. intros H.
  repeat match type of H with
         | (String.eqb t ?s || _)%bool = true =>
             destruct (String.eqb_spec t s); [subst t; reflexivity | simpl in H]
         end.
  discriminate.
Qed.

Lemma inverse_seq_involutive d :
  Forall (fun t => quarter_turn t = true) d -> inverse_seq (inverse_seq d) = d.
Proof.
  intros H. unfold inverse_seq. rewrite <- map_rev, rev_involutive, map_map.
  rewrite <- (map_id d) at 2. apply map_ext_in. intros t Ht.
  apply flip_token_involutive. rewrite Forall_forall in H. auto.
Qed.

(** *** A little group theory on index lists *)

Lemma pcancel_l n a y :
  is_perm n a = true -> is_perm n y = true -> pmul (pinv a) (pmul a y) = y.
Proof.
  intros Ha Hy. rewrite <- (passoc n) by auto with perm.
  rewrite (pmul_pinv_r n) by assumption. apply pmul_idp_l'. auto with perm.
Qed.

Lemma pcancel_r n a y :
  is_perm n a = true -> is_perm n y = true -> pmul a (pmul (pinv a) y) = y.
Proof.
  intros Ha Hy. rewrite <- (passoc n) by auto with perm.
  rewrite (pmul_pinv_l n) by assumption. apply pmul_idp_l'. auto with perm.
Qed.

Lemma pcomm_iff n a b :
  is_perm n a = true -> is_perm n b = true ->
  (pmul (pmul (pmul (pinv b) (pinv a)) b) a = idp n <-> pmul a b = pmul b a).
Proof.
  intros Ha Hb.
  rewrite !(passoc n) by auto with perm.
  split; intros H.
  - apply (f_equal (fun z => pmul a (pmul b z))) in H.
    rewrite (pcancel_r n b), (pcancel_r n a) in H by auto with perm.
    rewrite (pmul_idp_r b n) in H by auto with perm. symmetry. assumption.
  - rewrite <- H. rewrite (pcancel_l n a) by auto with perm.
    apply pmul_pinv_r. assumption.
Qed.

Lemma pconj_mul n g a b :
  is_perm n g = true -> is_perm n a = true -> is_perm n b = true ->
  pmul (pmul g (pmul a b)) (pinv g)
  = pmul (pmul (pmul g a) (pinv g)) (pmul (pmul g b) (pinv g)).
Proof.
  intros Hg Ha Hb. rewrite !(passoc n) by auto with perm.
  rewrite (pcancel_l n g) by auto with perm. reflexivity.
Qed.

End AlgebraMore.

Import AlgebraMore.

(** X1. On well-formed moves [__mul__] is a monoid law, token lists
    included: the product is well-formed, the product is associative and
    [move(seq = [])] is a unit on both sides. *)
Theorem mul_monoid (a b c : move) :
  wf_move a = true -> wf_move b = true -> wf_move c = true ->
  wf_move (a * b) = true /\
  (a * b) * c = a * (b * c) /\
  move_of_seq [] * a = a /\
  a * move_of_seq [] = a.
Proof.
  intros Ha Hb Hc. repeat split.
  - apply wf_move_mul; assumption.
  - apply mul_assoc; assumption.
  - apply mul_one_l; assumption.
  - apply mul_one_r; assumption.
Qed.

Lemma mul_monoid_witness :
  wf_move Kube.F = true /\ wf_move Kube.u = true /\ wf_move Kube.M0 = true /\
  wf_move (Kube.F * Kube.u) = true /\
  (Kube.F * Kube.u) * Kube.M0 = Kube.F * (Kube.u * Kube.M0) /\
  move_of_seq [] * Kube.F = Kube.F /\
  Kube.F * move_of_seq [] = Kube.F.
Proof.
  assert (H1 : wf_move Kube.F = true) by (vm_compute; reflexivity).
  assert (H2 : wf_move Kube.u = true) by (vm_compute; reflexivity).
  assert (H3 : wf_move Kube.M0 = true) by (vm_compute; reflexivity).
  split; [exact H1 |]. split; [exact H2 |]. split; [exact H3 |].
  exact (mul_monoid Kube.F Kube.u Kube.M0 H1 H2 H3).
Defined.

(** X2. Exponents add: for a well-formed move and exponents [x, y >= 0],
    [m ** (x + y)] is [m ** x * m ** y], token list included, and every
    power that passes the guard of [__pow__] is well-formed. *)
Theorem pow_add (m : move) (x y : Z) :
  wf_move m = true -> (0 <= x)%Z -> (0 <= y)%Z ->
  pow m (x + y) = Ok (m ** x * m ** y) /\ wf_move (m ** x * m ** y) = true.
Proof.
  intros W Hx Hy. rewrite pow_guard_passes by lia.
  split.
  - f_equal. apply wf_move_embed in W. destruct W as [E W]. rewrite E.
    rewrite <- !embed_cpow_body, <- embed_cmul by auto using cwf_cpow_body.
    rewrite cpow_add by assumption. reflexivity.
  - apply wf_move_mul; apply wf_move_pow_body; assumption.
Qed.

Lemma pow_add_witness :
  wf_move Kube.R = true /\ (0 <= 2)%Z /\ (0 <= 3)%Z /\
  pow Kube.R (2 + 3) = Ok (Kube.R ** 2 * Kube.R ** 3) /\
  wf_move (Kube.R ** 2 * Kube.R ** 3) = true.
Proof.
  assert (H1 : wf_move Kube.R = true) by (vm_compute; reflexivity).
  split; [exact H1 |]. split; [lia |]. split; [lia |].
  exact (pow_add Kube.R 2 3 H1 ltac:(lia) ltac:(lia)).
Defined.

(** X3. The inverse of a well-formed move is well-formed and is also a
    left inverse: [m ** (-1) * m] has identity matrices. *)
Theorem inverse_left (m : move) :
  wf_move m = true ->
  wf_move (m ** (-1)) = true /\ acts_as_identity (m ** (-1) * m).
Proof.
  intros W. split; [apply wf_move_pow_body; assumption | apply mul_inv_l; assumption].
Qed.

Lemma inverse_left_witness :
  wf_move Kube.M1 = true /\
  wf_move (Kube.M1 ** (-1)) = true /\ acts_as_identity (Kube.M1 ** (-1) * Kube.M1).
Proof.
  assert (H : wf_move Kube.M1 = true) by (vm_compute; reflexivity).
  split; [exact H | exact (inverse_left Kube.M1 H)].
Defined.

(** X4. The inverse of a product is the product of the inverses in the
    opposite order, matrices and token lists alike. *)
Theorem inverse_of_product (a b : move) :
  wf_move a = true -> wf_move b = true ->
  (a * b) ** (-1) = b ** (-1) * a ** (-1).
Proof. apply inv_mul. Qed.

Lemma inverse_of_product_witness :
  wf_move Kube.F = true /\ wf_move Kube.L = true /\
  (Kube.F * Kube.L) ** (-1) = Kube.L ** (-1) * Kube.F ** (-1).
Proof.
  assert (H1 : wf_move Kube.F = true) by (vm_compute; reflexivity).
  assert (H2 : wf_move Kube.L = true) by (vm_compute; reflexivity).
  split; [exact H1 |]. split; [exact H2 |].
  exact (inverse_of_product Kube.F Kube.L H1 H2).
Defined.

(** X5. Inverting twice gives the move back, matrices and tokens, when
    the move is well-formed and its tokens are quarter-turn symbols. *)
Theorem inverse_involutive (m : move) :
  wf_move m = true -> Forall (fun t => quarter_turn t = true) (decompo m) ->
  (m ** (-1)) ** (-1) = m.
Proof.
  intros W Hq. apply wf_move_embed in W. destruct W as [E W].
  rewrite E in Hq |- *. change (decompo (embed (abstract m))) with (toks (abstract m)) in Hq.
  set (c := abstract m) in *. clearbody c. clear E m.
  rewrite <- !embed_cpow_body by auto using cwf_cpow_body. f_equal.
  pose proof W as W'. apply cwf_spec in W'. destruct W' as (P1 & P2 & P3 & P4).
  destruct c as [p8 p24 q12 q24 t]. unfold cpow_body.
  cbn [Z.eqb Pos.eqb c8 c24 e12 e24 toks] in *. rewrite !ppow_inv.
  rewrite (pinv_involutive 8), (pinv_involutive 24 p24), (pinv_involutive 12),
    (pinv_involutive 24 q24) by assumption.
  rewrite inverse_seq_involutive by assumption. reflexivity.
Qed.

Lemma inverse_involutive_witness :
  wf_move Kube.M0 = true /\ Forall (fun t => quarter_turn t = true) (decompo Kube.M0) /\
  (Kube.M0 ** (-1)) ** (-1) = Kube.M0.
Proof.
  assert (H1 : wf_move Kube.M0 = true) by (vm_compute; reflexivity).
  assert (H2 : Forall (fun t => quarter_turn t = true) (decompo Kube.M0)).
  { apply Forall_forall. apply forallb_forall. vm_compute. reflexivity. }
  split; [exact H1 |]. split; [exact H2 |].
  exact (inverse_involutive Kube.M0 H1 H2).
Defined.

(** X6. The commutator of two well-formed moves has identity matrices
    exactly when the two moves commute, that is when [A * B] and [B * A]
    have the same matrices. *)
Theorem commutator_identity_iff (A B : move) :
  wf_move A = true -> wf_move B = true ->
  (acts_as_identity (commutator A B) <-> same_action (A * B) (B * A)).
Proof.
  intros WA WB. apply wf_move_embed in WA, WB.
  destruct WA as [EA WA], WB as [EB WB]. rewrite EA, EB.
  set (a := abstract A) in *. set (b := abstract B) in *. clearbody a b.
  clear EA EB A B. rename WA into Wa, WB into Wb.
  unfold commutator.
  rewrite <- !embed_cpow_body, <- !embed_cmul by auto using cwf_cmul, cwf_cpow_body.
  rewrite embed_acts_as_identity by auto using cwf_cmul, cwf_cpow_body.
  rewrite embed_same_action by auto using cwf_cmul.
  pose proof Wa as Wa'. apply cwf_spec in Wa'. destruct Wa' as (P1 & P2 & P3 & P4).
  pose proof Wb as Wb'. apply cwf_spec in Wb'. destruct Wb' as (Q1 & Q2 & Q3 & Q4).
  unfold cmul, cpow_body. cbn [Z.eqb c8 c24 e12 e24 toks]. rewrite !ppow_inv.
  rewrite (pcomm_iff 8), (pcomm_iff 24 (c24 a)), (pcomm_iff 12), (pcomm_iff 24 (e24 a))
    by assumption.
  reflexivity.
Qed.

Lemma commutator_identity_iff_witness :
  wf_move Kube.F = true /\ wf_move Kube.B = true /\
  (acts_as_identity (commutator Kube.F Kube.B)
   <-> same_action (Kube.F * Kube.B) (Kube.B * Kube.F)).
Proof.
  assert (H1 : wf_move Kube.F = true) by (vm_compute; reflexivity).
  assert (H2 : wf_move Kube.B = true) by (vm_compute; reflexivity).
  split; [exact H1 |]. split; [exact H2 |].
  exact (commutator_identity_iff Kube.F Kube.B H1 H2).
Defined.

(** X7. Conjugation by a fixed move is compatible with the product: for
    well-formed moves, [conjugate(A * B, G)] has the same matrices as
    [conjugate(A, G) * conjugate(B, G)], and the conjugate is
    well-formed. *)
Theorem conjugate_product (A B G : move) :
  wf_move A = true -> wf_move B = true -> wf_move G = true ->
  wf_move (conjugate A G) = true /\
  same_action (conjugate (A * B) G) (conjugate A G * conjugate B G).
Proof.
  intros WA WB WG. split.
  { unfold conjugate. auto using wf_move_mul, wf_move_pow_body. }
  apply wf_move_embed in WA, WB, WG.
  destruct WA as [EA WA], WB as [EB WB], WG as [EG WG]. rewrite EA, EB, EG.
  set (a := abstract A) in *. set (b := abstract B) in *. set (g := abstract G) in *.
  clearbody a b g. clear EA EB EG A B G. rename WA into Wa, WB into Wb, WG into Wg.
  unfold conjugate.
  rewrite <- !embed_cpow_body, <- !embed_cmul by auto using cwf_cmul, cwf_cpow_body.
  apply embed_same_action; auto using cwf_cmul, cwf_cpow_body.
  pose proof Wa as Wa'. apply cwf_spec in Wa'. destruct Wa' as (P1 & P2 & P3 & P4).
  pose proof Wb as Wb'. apply cwf_spec in Wb'. destruct Wb' as (Q1 & Q2 & Q3 & Q4).
  pose proof Wg as Wg'. apply cwf_spec in Wg'. destruct Wg' as (G1 & G2 & G3 & G4).
  unfold cmul, cpow_body. cbn [Z.eqb c8 c24 e12 e24 toks]. rewrite !ppow_inv.
  repeat split.
  - apply (pconj_mul 8); assumption.
  - apply (pconj_mul 24); assumption.
  - apply (pconj_mul 12); assumption.
  - apply (pconj_mul 24); assumption.
Qed.

Lemma conjugate_product_witness :
  wf_move Kube.M1 = true /\ wf_move Kube.M1 = true /\ wf_move Kube.U = true /\
  wf_move (conjugate Kube.M1 Kube.U) = true /\
  same_action (conjugate (Kube.M1 * Kube.M1) Kube.U)
    (conjugate Kube.M1 Kube.U * conjugate Kube.M1 Kube.U).
Proof.
  assert (H1 : wf_move Kube.M1 = true) by (vm_compute; reflexivity).
  assert (H2 : wf_move Kube.U = true) by (vm_compute; reflexivity).
  split; [exact H1 |]. split; [exact H1 |]. split; [exact H2 |].
  exact (conjugate_product Kube.M1 Kube.M1 Kube.U H1 H1 H2).
Defined.

(** ** The transposition matrices and the constructor *)

Module TFacts.

Local Open Scope nat_scope.

Lemma length_upd {X : Type} (l : list X) i x : length (upd l i x) = length l.
Proof.
  revert i. induction l as [| h t IH]; intros [| i]; cbn [upd length]; auto.
Qed.

Lemma nth_upd {X : Type} (l : list X) i x k d :
  nth k (upd l i x) d = if (k =? i) && (i <? length l) then x else nth k l d.
Proof.
  revert i k. induction l as [| h t IH]; intros i k.
  - cbn [upd length]. rewrite andb_false_r. reflexivity.
  - destruct i as [| i], k as [| k]; cbn [upd nth length]; try reflexivity.
    rewrite IH. reflexivity.
Qed.

Lemma mat_ext r c A B :
  is_mat r c A -> is_mat r c B ->
  (forall a b, a < r -> b < c -> get A a b = get B a b) -> A = B.
Proof.
  intros [LA RA] [LB RB] H. apply nth_ext with (d := []) (d' := []); [congruence |].
  intros a Ha. rewrite LA in Ha.
  apply nth_ext with (d := 0%Z) (d' := 0%Z); [rewrite RA, RB; auto |].
  intros b Hb. rewrite RA in Hb by assumption. apply H; assumption.
Qed.

Lemma is_mat_set r c A i j v : is_mat r c A -> is_mat r c (set A i j v).
Proof.
  intros [L R]. unfold set. split; [rewrite length_upd; assumption |].
  intros a Ha. rewrite nth_upd. destruct ((a =? i) && (i <? length A)) eqn:E.
  - rewrite length_upd. apply andb_true_iff in E. destruct E as [E _].
    apply Nat.eqb_eq in E. subst. auto.
  - auto.
Qed.

Lemma get_set r c A i j v a b :
  is_mat r c A -> i < r -> j < c ->
  get (set A i j v) a b = if (a =? i) && (b =? j) then v else get A a b.
Proof.
  intros [L R] Hi Hj. unfold get, set. rewrite nth_upd.
  destruct (Nat.eqb_spec a i) as [-> | N]; cbn [andb]; [| reflexivity].
  destruct (Nat.ltb_spec i (length A)); [| lia].
  rewrite nth_upd. rewrite R by assumption.
  destruct (Nat.ltb_spec j c); [| lia]. rewrite andb_true_r. reflexivity.
Qed.

Lemma is_mat_eye n : is_mat n n (eye n).
Proof.
  unfold eye. split; [rewrite length_map, length_seq; reflexivity |].
  intros a Ha.
  rewrite (nth_map_lt _ _ _ 0) by (rewrite length_seq; assumption).
  rewrite length_map, length_seq. reflexivity.
Qed.

Lemma get_eye n a b : a < n -> b < n -> get (eye n) a b = if a =? b then 1%Z else 0%Z.
Proof.
  intros Ha Hb. unfold get, eye.
  rewrite (nth_map_lt _ _ _ 0) by (rewrite length_seq; assumption).
  rewrite (nth_map_lt _ _ _ 0) by (rewrite length_seq; assumption).
  rewrite !seq_nth by assumption. reflexivity.
Qed.

Lemma is_mat_pm n p : is_mat (length p) n (pm n p).
Proof.
  unfold pm. split; [apply length_map |].
  intros a Ha. rewrite (nth_map_lt _ _ _ 0) by assumption.
  unfold unit_row. rewrite length_map, length_seq. reflexivity.
Qed.

Lemma get_pm n p a b :
  a < length p -> b < n -> get (pm n p) a b = if nth a p 0 =? b then 1%Z else 0%Z.
Proof.
  intros Ha Hb. unfold get, pm. rewrite (nth_map_lt _ _ _ 0) by assumption.
  unfold unit_row. rewrite (nth_map_lt _ _ _ 0) by (rewrite length_seq; assumption).
  rewrite seq_nth by assumption. reflexivity.
Qed.

Lemma nth_swapl N i j k : k < N -> nth k (swapl N i j) 0 = exchanged i j k.
Proof.
  intros H. unfold swapl. rewrite (nth_map_lt _ _ _ 0) by (rewrite length_seq; assumption).
  rewrite seq_nth by assumption. reflexivity.
Qed.

Lemma exchanged_lt N i j k : i < N -> j < N -> k < N -> exchanged i j k < N.
Proof.
  intros Hi Hj Hk. unfold exchanged.
  destruct (k =? i); [assumption |]. destruct (k =? j); assumption.
Qed.

Lemma exchanged_involutive i j k : exchanged i j (exchanged i j k) = k.
Proof.
  unfold exchanged.
  destruct (Nat.eqb_spec k i) as [-> | N1].
  - destruct (Nat.eqb_spec j i) as [-> | N2]; [reflexivity |].
    rewrite Nat.eqb_refl. reflexivity.
  - destruct (Nat.eqb_spec k j) as [-> | N2].
    + rewrite Nat.eqb_refl. reflexivity.
    + destruct (Nat.eqb_spec k i); [contradiction |].
      destruct (Nat.eqb_spec k j); [contradiction | reflexivity].
Qed.

Lemma swapl_bound N i j : i < N -> j < N -> Forall (fun k => k < N) (swapl N i j).
Proof.
  intros Hi Hj. apply Forall_forall. intros x Hx. unfold swapl in Hx.
  apply in_map_iff in Hx. destruct Hx as (k & <- & Hk). apply in_seq in Hk.
  apply exchanged_lt; lia.
Qed.

Lemma length_swapl N i j : length (swapl N i j) = N.
Proof. unfold swapl. rewrite length_map, length_seq. reflexivity. Qed.

(** [T(N, i, j)] is the permutation matrix of the exchange of [i] and [j]. *)
Lemma T_pm N i j : i < N -> j < N -> T N i j = pm N (swapl N i j).
Proof.
  intros Hi Hj. apply (mat_ext N N).
  - unfold T. repeat apply is_mat_set. apply is_mat_eye.
  - rewrite <- (length_swapl N i j) at 1. apply is_mat_pm.
  - intros a b Ha Hb. unfold T.
    rewrite !(get_set N N) by (repeat apply is_mat_set; try apply is_mat_eye; assumption).
    rewrite get_eye by assumption.
    rewrite get_pm by (rewrite ?length_swapl; assumption).
    rewrite nth_swapl by assumption. unfold exchanged.
    destruct (Nat.eqb_spec a i), (Nat.eqb_spec a j), (Nat.eqb_spec b i),
      (Nat.eqb_spec b j), (Nat.eqb_spec a b); cbn [andb]; subst;
      repeat match goal with
             | |- context [?x =? ?y] => destruct (Nat.eqb_spec x y)
             end; try reflexivity; try lia.
Qed.

Lemma pmul_swapl_swapl N i j : i < N -> j < N -> pmul (swapl N i j) (swapl N i j) = idp N.
Proof.
  intros Hi Hj. apply nth_ext with (d := 0) (d' := 0).
  - rewrite length_pmul, length_swapl. unfold idp. rewrite length_seq. reflexivity.
  - intros k Hk. rewrite length_pmul, length_swapl in Hk.
    rewrite nth_pmul by (rewrite length_swapl; assumption).
    rewrite (nth_swapl N i j k) by assumption.
    rewrite nth_swapl by (apply exchanged_lt; assumption).
    unfold idp. rewrite seq_nth by assumption. apply exchanged_involutive.
Qed.

End TFacts.

Import TFacts.

(** X8. Inside the matrix, [T(N, i, j)] exchanges rows [i] and [j] of a
    column it multiplies and leaves the other rows in place, and it is
    its own inverse; for [i = j] it is the identity matrix. *)
Theorem T_exchanges (N i j : nat) (y : list Z) :
  (i < N)%nat -> (j < N)%nat -> length y = N ->
  mmul (T N i j) (column y)
  = column (map (fun k => nth (exchanged i j k) y 0%Z) (seq 0 N)) /\
  mmul (T N i j) (T N i j) = eye N /\
  T N i i = eye N.
Proof.
  intros Hi Hj Hy. repeat split.
  - rewrite T_pm by assumption.
    rewrite mmul_pm_column by (try apply swapl_bound; assumption).
    unfold swapl. rewrite map_map. reflexivity.
  - rewrite T_pm by assumption.
    rewrite mmul_pm_pm by (try apply swapl_bound; try apply length_swapl; assumption).
    rewrite pmul_swapl_swapl by assumption. symmetry. apply eye_pm.
  - rewrite T_pm by assumption. rewrite eye_pm. f_equal.
    unfold swapl, idp. rewrite <- (map_id (seq 0 N)) at 2. apply map_ext.
    intros k. unfold exchanged. destruct (Nat.eqb_spec k i); congruence.
Qed.

Lemma T_exchanges_witness :
  (1 < 3)%nat /\ (2 < 3)%nat /\ length [7; 8; 9]%Z = 3%nat /\
  mmul (T 3 1 2) (column [7; 8; 9]%Z)
  = column (map (fun k => nth (exchanged 1 2 k) [7; 8; 9]%Z 0%Z) (seq 0 3)) /\
  mmul (T 3 1 2) (T 3 1 2) = eye 3 /\
  T 3 1 1 = eye 3.
Proof.
  split; [lia |]. split; [lia |]. split; [reflexivity |].
  exact (T_exchanges 3 1 2 [7; 8; 9]%Z ltac:(lia) ltac:(lia) eq_refl).
Defined.

Module CycleFacts.

Local Open Scope nat_scope.

Lemma is_perm_swapl N i j : i < N -> j < N -> is_perm N (swapl N i j) = true.
Proof.
  intros Hi Hj. apply is_perm_spec. split; [apply length_swapl |].
  split; [apply swapl_bound; assumption |].
  unfold swapl. apply Finite.Injective_map_NoDup; [| apply seq_NoDup].
  intros x y E. rewrite <- (exchanged_involutive i j x), E. apply exchanged_involutive.
Qed.

Lemma cycle_matrix N a b c d :
  a < N -> b < N -> c < N -> d < N ->
  mmul (mmul (T N a d) (T N a c)) (T N a b) = pm N (cycle_list N a b c d) /\
  is_perm N (cycle_list N a b c d) = true.
Proof.
  intros Ha Hb Hc Hd. unfold cycle_list. rewrite !T_pm by assumption.
  pose proof (is_perm_swapl N a d Ha Hd) as P1.
  pose proof (is_perm_swapl N a c Ha Hc) as P2.
  pose proof (is_perm_swapl N a b Ha Hb) as P3.
  split.
  - rewrite !mmul_pm_pm; try reflexivity.
    + apply is_perm_bound. apply is_perm_pmul; assumption.
    + apply length_swapl.
    + apply swapl_bound; assumption.
    + apply length_swapl.
  - repeat apply is_perm_pmul; assumption.
Qed.

Lemma cycle_list_cycled N a b c d :
  a < N -> b < N -> c < N -> d < N -> NoDup [a; b; c; d] ->
  cycle_list N a b c d = map (cycled a b c d) (seq 0 N).
Proof.
  intros Ha Hb Hc Hd Hn.
  assert (D : a <> b /\ a <> c /\ a <> d /\ b <> c /\ b <> d /\ c <> d).
  { repeat match goal with
           | H : NoDup (_ :: _) |- _ => inversion H; clear H; subst
           end.
    cbn [In] in *. repeat split; intros ->; tauto. }
  destruct D as (D1 & D2 & D3 & D4 & D5 & D6).
  unfold cycle_list. apply nth_ext with (d := 0) (d' := 0).
  - rewrite !length_pmul, length_swapl, length_map, length_seq. reflexivity.
  - intros k Hk. rewrite !length_pmul, length_swapl in Hk.
    rewrite nth_pmul by (rewrite length_pmul, length_swapl; assumption).
    rewrite nth_pmul by (rewrite length_swapl; assumption).
    rewrite (nth_swapl N a d k) by assumption.
    rewrite (nth_swapl N a c) by (apply exchanged_lt; assumption).
    rewrite (nth_swapl N a b) by (repeat apply exchanged_lt; assumption).
    rewrite (nth_map_lt _ _ _ 0) by (rewrite length_seq; assumption).
    rewrite seq_nth by assumption. cbn [Nat.add].
    unfold exchanged, cycled.
    repeat match goal with
           | |- context [?x =? ?y] =>
               is_var x; is_var y; destruct (Nat.eqb_spec x y); try subst; cbv iota
           end; try reflexivity; try congruence.
Qed.

End CycleFacts.

Import CycleFacts.

(** X9. The constructor called with position cycles: for four distinct
    corner slots [a, b, c, d] and four distinct edge slots [e, f, g, h],
    [A8] and [A12] are permutation matrices, multiplying a column by them
    moves the content of slot [a] to [b], of [b] to [c], of [c] to [d] and
    of [d] to [a] (the same for the edges) and leaves the other rows in
    place; the token list is the one given. *)
Theorem cycles_move_positions (a b c d e f g h : nat) (P3 P2 : list Z)
    (s : list token) (y8 y12 : list Z) :
  (a < 8 /\ b < 8 /\ c < 8 /\ d < 8)%nat -> NoDup [a; b; c; d] ->
  (e < 12 /\ f < 12 /\ g < 12 /\ h < 12)%nat -> NoDup [e; f; g; h] ->
  length y8 = 8%nat -> length y12 = 12%nat ->
  let m := move_of_cycles [a; b; c; d] P3 [e; f; g; h] P2 s in
  is_perm_matrix 8 (A8 m) = true /\
  mmul (A8 m) (column y8)
  = column (map (fun k => nth (cycled a b c d k) y8 0%Z) (seq 0 8)) /\
  is_perm_matrix 12 (A12 m) = true /\
  mmul (A12 m) (column y12)
  = column (map (fun k => nth (cycled e f g h k) y12 0%Z) (seq 0 12)) /\
  decompo m = s.
Proof.
  intros (Ha & Hb & Hc & Hd) N8 (He & Hf & Hg & Hh) N12 L8 L12 m.
  destruct (cycle_matrix 8 a b c d Ha Hb Hc Hd) as [E8 P8].
  destruct (cycle_matrix 12 e f g h He Hf Hg Hh) as [E12 P12].
  assert (A : A8 m = pm 8 (cycle_list 8 a b c d)) by exact E8.
  assert (B : A12 m = pm 12 (cycle_list 12 e f g h)) by exact E12.
  rewrite A, B. repeat split.
  - apply is_perm_matrix_pm. assumption.
  - rewrite mmul_pm_column by (try apply is_perm_bound; assumption).
    rewrite cycle_list_cycled by assumption. rewrite map_map. reflexivity.
  - apply is_perm_matrix_pm. assumption.
  - rewrite mmul_pm_column by (try apply is_perm_bound; assumption).
    rewrite cycle_list_cycled by assumption. rewrite map_map. reflexivity.
Qed.

Lemma cycles_move_positions_witness :
  (0 < 8 /\ 2 < 8 /\ 6 < 8 /\ 4 < 8)%nat /\ NoDup [0; 2; 6; 4]%nat /\
  (4 < 12 /\ 1 < 12 /\ 6 < 12 /\ 9 < 12)%nat /\ NoDup [4; 1; 6; 9]%nat /\
  length (range 8) = 8%nat /\ length (range 12) = 12%nat /\
  let m := move_of_cycles [0; 2; 6; 4]%nat [1; 2; 1; 2]%Z [4; 1; 6; 9]%nat
             [1; 1; 1; 1]%Z ["F"%string] in
  is_perm_matrix 8 (A8 m) = true /\
  mmul (A8 m) (column (range 8))
  = column (map (fun k => nth (cycled 0 2 6 4 k) (range 8) 0%Z) (seq 0 8)) /\
  is_perm_matrix 12 (A12 m) = true /\
  mmul (A12 m) (column (range 12))
  = column (map (fun k => nth (cycled 4 1 6 9 k) (range 12) 0%Z) (seq 0 12)) /\
  decompo m = ["F"%string].
Proof.
  assert (H1 : (0 < 8 /\ 2 < 8 /\ 6 < 8 /\ 4 < 8)%nat) by lia.
  assert (H2 : NoDup [0; 2; 6; 4]%nat).
  { repeat constructor; cbn [In]; lia. }
  assert (H3 : (4 < 12 /\ 1 < 12 /\ 6 < 12 /\ 9 < 12)%nat) by lia.
  assert (H4 : NoDup [4; 1; 6; 9]%nat).
  { repeat constructor; cbn [In]; lia. }
  split; [exact H1 |]. split; [exact H2 |]. split; [exact H3 |]. split; [exact H4 |].
  split; [reflexivity |]. split; [reflexivity |].
  exact (cycles_move_positions 0 2 6 4 4 1 6 9 [1; 2; 1; 2]%Z [1; 1; 1; 1]%Z
           ["F"%string] (range 8) (range 12) H1 H2 H3 H4 eq_refl eq_refl).
Defined.

(** ** More on the connector searches *)

Module SearchMore.

Local Open Scope nat_scope.

Lemma orr_true a b :
  orr a b = Ok true -> a = Ok true \/ (a = Ok false /\ b = Ok true).
Proof. destruct a as [[|] | e]; simpl; intros H; try discriminate; auto. Qed.

(** A result found, or an exception raised, with [left] depths remaining
    is the same with more. *)
Lemma search_more accept auth left k : forall n_combi prev r,
  search accept auth left n_combi prev = r -> r <> Ok None ->
  search accept auth (left + k) n_combi prev = r.
Proof.
  induction left as [| left IH]; intros n_combi prev r H Hr.
  - cbn [search] in H. congruence.
  - cbn [Nat.add search] in *.
    destruct (candidates n_combi (if n_combi =? 1 then move_of_seq [] :: auth else auth) prev)
      as [cur | e]; cbn [bind] in *; [| assumption].
    destruct (first_accepted accept cur) as [[m |] | e]; cbn [bind] in *; try assumption.
    apply IH; assumption.
Qed.

Lemma extend_errors n_combi m prev e :
  extend n_combi m prev = Err e -> e = IndexError.
Proof.
  induction prev as [| g prev IH]; cbn [extend]; [discriminate |].
  destruct (n_combi =? 1).
  - cbn [bind]. destruct (extend n_combi m prev); cbn [bind]; [discriminate |].
    intros H. injection H as <-. apply IH. reflexivity.
  - unfold cancels. destruct (decompo m); cbn [bind]; [congruence |].
    destruct (last_error (decompo g)); cbn [bind]; [| congruence].
    destruct (extend n_combi m prev); cbn [bind]; [discriminate |].
    intros H. injection H as <-. apply IH. reflexivity.
Qed.

Lemma extend_tokenless n_combi m prev :
  n_combi <> 1 -> decompo m = [] -> prev <> [] ->
  extend n_combi m prev = Err IndexError.
Proof.
  intros Hn Hm Hp. destruct prev as [| g prev]; [contradiction |].
  cbn [extend]. destruct (Nat.eqb_spec n_combi 1); [contradiction |].
  unfold cancels. rewrite Hm. reflexivity.
Qed.

Lemma candidates_tokenless n_combi fact prev m0 :
  n_combi <> 1 -> In m0 fact -> decompo m0 = [] -> prev <> [] ->
  candidates n_combi fact prev = Err IndexError.
Proof.
  intros Hn Hin Hm Hp. induction fact as [| m fact IH]; [contradiction |].
  cbn [candidates]. destruct (extend n_combi m prev) as [a | e] eqn:E.
  - cbn [bind]. destruct Hin as [-> | Hin].
    + rewrite extend_tokenless in E by assumption. discriminate.
    + rewrite IH by assumption. reflexivity.
  - cbn [bind]. f_equal. eapply extend_errors. eassumption.
Qed.

End SearchMore.

Import SearchMore.

(** X10. A move returned by [send_8] has the two corner cubies in the two
    corner slots, in either order. *)
Theorem send_8_places (cb1 cb2 : Z) (cl1 cl2 : nat) (auth : list move)
    (maxMove n_combi : nat) (prev : list move) (m : move) :
  send_8 cb1 cb2 cl1 cl2 auth maxMove n_combi prev = Ok (Some m) ->
  let y := mmul (A8 m) (column (range 8)) in
  (nth_error y cl1 = Some [cb1] /\ nth_error y cl2 = Some [cb2]) \/
  (nth_error y cl1 = Some [cb2] /\ nth_error y cl2 = Some [cb1]).
Proof.
  intros H y. apply search_sound in H. unfold accept_8 in H. fold y in H.
  apply orr_true in H. destruct H as [H | [_ H]]; apply andr_true in H;
    destruct H as [H1 H2]; apply row_eq_true in H1, H2; auto.
Qed.

Lemma send_8_places_witness :
  let y := mmul (A8 (Kube.D * move_of_seq [])) (column (range 8)) in
  (nth_error y 4 = Some [0%Z] /\ nth_error y 0 = Some [1%Z]) \/
  (nth_error y 4 = Some [1%Z] /\ nth_error y 0 = Some [0%Z]).
Proof.
  apply (send_8_places 0 1 4 0 [Kube.D] 5 1 prev0).
  vm_compute. reflexivity.
Defined.

(** X11. A move returned by [send_8_slow] has corner cubie [cb1] in slot
    [cl1] and corner cubie [cb2] in slot [cl2], in that order. *)
Theorem send_8_slow_places (cb1 cb2 : Z) (cl1 cl2 : nat) (auth : list move)
    (maxMove n_combi : nat) (prev : list move) (m : move) :
  send_8_slow cb1 cb2 cl1 cl2 auth maxMove n_combi prev = Ok (Some m) ->
  let y := mmul (A8 m) (column (range 8)) in
  nth_error y cl1 = Some [cb1] /\ nth_error y cl2 = Some [cb2].
Proof.
  intros H y. apply search_sound in H. unfold accept_8_slow in H. fold y in H.
  apply andr_true in H. destruct H as [H1 H2]. apply row_eq_true in H1, H2. auto.
Qed.

Lemma send_8_slow_places_witness :
  let y := mmul (A8 (Kube.D * move_of_seq [])) (column (range 8)) in
  nth_error y 4 = Some [0%Z] /\ nth_error y 0 = Some [1%Z].
Proof.
  apply (send_8_slow_places 0 1 4 0 [Kube.D] 5 1 prev0).
  vm_compute. reflexivity.
Defined.

(** X12. A move returned by [send_12_slow] has edge cubie [cb1] in slot
    [cl1] and edge cubie [cb2] in slot [cl2], in that order. *)
Theorem send_12_slow_places (cb1 cb2 : Z) (cl1 cl2 : nat) (auth : list move)
    (maxMove n_combi : nat) (prev : list move) (m : move) :
  send_12_slow cb1 cb2 cl1 cl2 auth maxMove n_combi prev = Ok (Some m) ->
  let y := mmul (A12 m) (column (range 12)) in
  nth_error y cl1 = Some [cb1] /\ nth_error y cl2 = Some [cb2].
Proof.
  intros H y. apply search_sound in H. unfold accept_12_slow in H. fold y in H.
  apply andr_true in H. destruct H as [H1 H2]. apply row_eq_true in H1, H2. auto.
Qed.

Lemma send_12_slow_places_witness :
  let y := mmul (A12 (Kube.D * move_of_seq [])) (column (range 12)) in
  nth_error y 4 = Some [0%Z] /\ nth_error y 8 = Some [4%Z].
Proof.
  apply (send_12_slow_places 0 4 4 8 [Kube.D] 3 1 prev0).
  vm_compute. reflexivity.
Defined.

(** X13. Raising [maxMove] never changes what a search has found: a move
    returned, or an exception raised, within [maxMove] is returned, or
    raised, for every larger bound.  ([search] is the loop that [send_8],
    [send_8_slow], [send_12] and [send_12_slow] share.) *)
Theorem search_bound_monotone (accept : move -> res bool) (auth : list move)
    (maxMove maxMove' n_combi : nat) (prev : list move) (r : res (option move)) :
  (maxMove <= maxMove')%nat ->
  search accept auth (maxMove + 1 - n_combi) n_combi prev = r -> r <> Ok None ->
  search accept auth (maxMove' + 1 - n_combi) n_combi prev = r.
Proof.
  intros Hle H Hr.
  destruct (Nat.le_gt_cases (maxMove + 1) n_combi) as [Hc | Hc].
  - replace (maxMove + 1 - n_combi)%nat with 0%nat in H by lia.
    cbn [search] in H. congruence.
  - replace (maxMove' + 1 - n_combi)%nat
      with ((maxMove + 1 - n_combi) + (maxMove' - maxMove))%nat by lia.
    apply search_more; assumption.
Qed.

Lemma search_bound_monotone_witness :
  (3 <= 5)%nat /\
  send_12_slow 0 4 4 8 [Kube.D] 3 1 prev0 = Ok (Some (Kube.D * move_of_seq [])) /\
  Ok (Some (Kube.D * move_of_seq [])) <> @Ok (option move) None /\
  send_12_slow 0 4 4 8 [Kube.D] 5 1 prev0 = Ok (Some (Kube.D * move_of_seq [])).
Proof.
  assert (H : send_12_slow 0 4 4 8 [Kube.D] 3 1 prev0
              = Ok (Some (Kube.D * move_of_seq []))) by (vm_compute; reflexivity).
  assert (N : Ok (Some (Kube.D * move_of_seq [])) <> @Ok (option move) None)
    by discriminate.
  split; [lia |]. split; [exact H |]. split; [exact N |].
  exact (search_bound_monotone (accept_12_slow 0 4 4 8) [Kube.D] 3 5 1 prev0 _
           ltac:(lia) H N).
Defined.

(** X14. An authorized move without tokens makes the searches fail at the
    second depth: when the list holds a move with an empty token list and
    one with tokens, and the first depth finds nothing, every bound of 2
    or more ends in [IndexError] (raised by [m.decompo[0]]). *)
Theorem search_tokenless_raises (accept : move -> res bool) (auth : list move)
    (maxMove : nat) (m0 m1 : move) :
  In m0 auth -> decompo m0 = [] -> In m1 auth -> decompo m1 <> [] ->
  search accept auth (1 + 1 - 1) 1 prev0 = Ok None ->
  (2 <= maxMove)%nat ->
  search accept auth (maxMove + 1 - 1) 1 prev0 = Err IndexError.
Proof.
  intros I0 D0 I1 D1 H Hm.
  replace (maxMove + 1 - 1)%nat with (S (S (maxMove - 2))) by lia.
  change (1 + 1 - 1)%nat with 1%nat in H.
  cbn [search Nat.eqb] in H |- *. rewrite candidates_first in H |- *.
  cbn [bind] in H |- *.
  destruct (first_accepted accept
              (flat_map (fun m => map (mul m) prev0) (move_of_seq [] :: auth)))
    as [[m |] | e]; cbn [bind] in H |- *; try discriminate.
  change (1 + 1)%nat with 2%nat. cbn [Nat.eqb].
  rewrite (candidates_tokenless 2 auth _ m0); try assumption; try reflexivity; try lia.
  intros E.
  assert (Hin : In (m1 * move_of_seq [])
                  (filter has_tokens
                     (flat_map (fun m => map (mul m) prev0) (move_of_seq [] :: auth)))).
  { apply filter_In. split.
    - apply in_flat_map. exists m1. split; [right; assumption | left; reflexivity].
    - unfold has_tokens, mul, move_of_matrices. cbn [decompo move_of_seq app].
      destruct (decompo m1); [contradiction | reflexivity]. }
  rewrite E in Hin. contradiction.
Qed.

Lemma search_tokenless_raises_witness :
  In (move_of_seq []) [move_of_seq []; Kube.F] /\ decompo (move_of_seq []) = [] /\
  In Kube.F [move_of_seq []; Kube.F] /\ decompo Kube.F <> [] /\
  send_8 0 1 6 7 [move_of_seq []; Kube.F] 1 1 prev0 = Ok None /\
  (2 <= 5)%nat /\
  send_8 0 1 6 7 [move_of_seq []; Kube.F] 5 1 prev0 = Err IndexError.
Proof.
  assert (H1 : In (move_of_seq []) [move_of_seq []; Kube.F]) by (left; reflexivity).
  assert (H2 : In Kube.F [move_of_seq []; Kube.F]) by (right; left; reflexivity).
  assert (H3 : decompo Kube.F <> []) by discriminate.
  assert (H4 : send_8 0 1 6 7 [move_of_seq []; Kube.F] 1 1 prev0 = Ok None)
    by (vm_compute; reflexivity).
  split; [exact H1 |]. split; [reflexivity |]. split; [exact H2 |].
  split; [exact H3 |]. split; [exact H4 |]. split; [lia |].
  exact (search_tokenless_raises (accept_8 0 1 6 7) [move_of_seq []; Kube.F] 5
           (move_of_seq []) Kube.F H1 eq_refl H2 H3 H4 ltac:(lia)).
Defined.

(** ** The four phases on the matrices of the source *)

Module PhaseFacts.

Local Open Scope nat_scope.

Lemma res_rel_Ok {A B : Type} (R : A -> B -> Prop) (r1 : res A) (b : B) :
  res_rel R r1 (Ok b) -> exists a, r1 = Ok a /\ R a b.
Proof.
  destruct r1 as [a | e]; cbn [res_rel]; intros H; [| contradiction].
  exists a. split; [reflexivity | assumption].
Qed.

Lemma in_all_lists w n ts :
  length ts = n -> Forall (fun t => t < w) ts -> In ts (all_lists w n).
Proof.
  revert ts. induction n as [| n IH]; intros ts L B.
  - destruct ts; [left; reflexivity | discriminate].
  - destruct ts as [| t ts]; [discriminate |]. inversion B; subst.
    cbn [all_lists]. apply in_flat_map. exists t. split; [apply in_seq; lia |].
    apply in_map. apply IH; [cbn [length] in L; lia | assumption].
Qed.

Lemma twist_ok_3 : forallb (twist_ok 3 8) (all_lists 3 8) = true.
Proof. vm_compute. reflexivity. Qed.

Lemma twist_ok_2 : forallb (twist_ok 2 12) (all_lists 2 12) = true.
Proof. vm_compute. reflexivity. Qed.

Lemma twist_ok_spec w n ts :
  twist_ok w n ts = true ->
  is_perm (w * n) (twist_list w ts) = true /\
  blockb w n (idp n) (twist_list w ts) = true /\
  map (fun k => k mod w) (twist_list w ts) = twist_rows w ts /\
  map (tw w (twist_list w ts)) (seq 0 n) = ts.
Proof.
  unfold twist_ok. rewrite !andb_true_iff. intros [[[H1 H2] H3] H4].
  apply list_eqb_nat_eq in H3, H4. auto.
Qed.

Lemma length_twist_rows w ts : length (twist_rows w ts) = w * length ts.
Proof.
  induction ts as [| t ts IH]; cbn [twist_rows flat_map length]; [lia |].
  rewrite length_app, length_map, length_seq. fold (twist_rows w ts). rewrite IH. lia.
Qed.

Lemma nth_twist_rows w ts : forall k r,
  k < length ts -> r < w ->
  nth (w * k + r) (twist_rows w ts) 0 = (r + nth k ts 0) mod w.
Proof.
  induction ts as [| t ts IH]; intros k r Hk Hr; [cbn [length] in Hk; lia |].
  cbn [twist_rows flat_map]. fold (twist_rows w ts). destruct k as [| k].
  - rewrite Nat.mul_0_r, Nat.add_0_l.
    rewrite app_nth1 by (rewrite length_map, length_seq; assumption).
    rewrite (nth_map_lt (fun r => (r + t) mod w) _ _ 0) by (rewrite length_seq; assumption).
    rewrite seq_nth by assumption. reflexivity.
  - rewrite app_nth2 by (rewrite length_map, length_seq; nia).
    rewrite length_map, length_seq.
    replace (w * S k + r - w) with (w * k + r) by nia.
    cbn [nth]. apply IH; [cbn [length] in Hk; lia | assumption].
Qed.

(** The rows of an orientation list whose cubies are in place. *)
Lemma block_rows w n q :
  0 < w -> length q = w * n -> blockb w n (idp n) q = true ->
  map (fun x => x mod w) q = twist_rows w (map (tw w q) (seq 0 n)).
Proof.
  intros Hw L B. apply nth_ext with (d := 0) (d' := 0).
  - rewrite length_map, length_twist_rows, length_map, length_seq. assumption.
  - intros x Hx. rewrite length_map, L in Hx.
    rewrite (nth_map_lt (fun x => x mod w) _ _ 0) by lia.
    assert (Hk : x / w < n) by (apply Nat.Div0.div_lt_upper_bound; lia).
    assert (Hr : x mod w < w) by (apply Nat.mod_upper_bound; lia).
    rewrite (Nat.div_mod_eq x w) at 1 2.
    rewrite (blockb_spec _ _ _ _ B) by assumption.
    rewrite nth_twist_rows by (rewrite ?length_map, ?length_seq; assumption).
    rewrite (nth_map_lt (tw w q) _ _ 0) by (rewrite length_seq; assumption).
    rewrite seq_nth by assumption. cbn [Nat.add].
    rewrite nth_idp by assumption.
    set (V := (x mod w + tw w q (x / w)) mod w).
    replace (w * (x / w) + V) with (V + (x / w) * w) by lia.
    rewrite Nat.Div0.mod_add. unfold V. apply Nat.Div0.mod_mod.
Qed.

Lemma invb_round_trip r : cwf r = true -> round_trip (embed r) -> invb r = true.
Proof.
  intros W R. rewrite <- (cmul_cone_r r W). apply invb_left; auto.
Qed.

Lemma list_sum_zeros (f : nat -> nat) l :
  (forall k, In k l -> f k = 0) -> list_sum (map f l) = 0.
Proof.
  induction l as [| a l IH]; intros H; [reflexivity |].
  cbn [map]. rewrite list_sum_cons, H, IH; [reflexivity | | left; reflexivity].
  intros k Hk. apply H. right. assumption.
Qed.

(** After a move that keeps the cubies in place and obeys the twist law,
    with every twist but the first cancelled, the first twist is the sum
    of the twists before the move. *)
Lemma twists_after w n rq q :
  0 < w -> 0 < n -> is_perm (w * n) rq = true ->
  blockb w n (idp n) rq = true -> twsum w n rq = 0 ->
  blockb w n (idp n) q = true -> blockb w n (idp n) (pmul rq q) = true ->
  (forall k, 1 <= k < n -> tw w (pmul rq q) k = 0) ->
  map (tw w (pmul rq q)) (seq 0 n)
  = (list_sum (map (tw w q) (seq 0 n)) mod w) :: repeat 0 (n - 1).
Proof.
  intros Hw Hn P Br Sr Bq Bp Z.
  assert (S : twsum w n (pmul rq q) = twsum w n q).
  { rewrite (twsum_pmul w n (idp n) rq (idp n) q); auto using is_perm_length, is_perm_idp.
    rewrite Sr, Nat.add_0_l. unfold twsum. apply Nat.Div0.mod_mod. }
  destruct n as [| n]; [lia |]. cbn [seq map]. rewrite Nat.sub_succ, Nat.sub_0_r.
  f_equal.
  - unfold twsum in S. cbn [seq map] in S. rewrite !list_sum_cons in S.
    rewrite (list_sum_zeros (tw w (pmul rq q)) (seq 1 n)) in S
      by (intros k Hk; apply in_seq in Hk; apply Z; lia).
    rewrite Nat.add_0_r, Nat.mod_small in S by (apply tw_lt; assumption).
    rewrite S, list_sum_cons. reflexivity.
  - apply nth_ext with (d := 0) (d' := 0).
    + rewrite length_map, length_seq, repeat_length. reflexivity.
    + intros k Hk. rewrite length_map, length_seq in Hk.
      rewrite (nth_map_lt (tw w (pmul rq q)) _ _ 0) by (rewrite length_seq; assumption).
      rewrite seq_nth by assumption. rewrite nth_repeat. apply Z. lia.
Qed.

End PhaseFacts.

Import PhaseFacts.

(** X15. Phase 1, as [solve] calls it: for every arrangement [y] of the
    eight corner cubies, [solve_corner_pos] returns a well-formed move
    whose token list replays to it and which puts every corner cubie in
    its own slot. *)
Theorem solve_corner_pos_places (y : list nat) :
  is_perm 8 y = true ->
  exists res, solve_corner_pos (col_of y) Kube.M0 1 3 Kube.fund_l = Ok res /\
    wf_move res = true /\
    Kube.replay (decompo res) (move_of_seq []) = Ok res /\
    mmul (A8 res) (col_of y) = column (range 8).
Proof.
  intros P. destruct (corner_pos_correct y P) as (r & E & W & R & C).
  destruct cwf_constants as (W0 & _ & _ & _ & Wf).
  pose proof (solve_corner_pos_embed y cM0 1 3 cfund_l W0 Wf (is_perm_length _ _ P)) as H.
  rewrite <- M0_embed, <- fund_l_embed, E in H.
  apply res_rel_Ok in H. destruct H as (m & Em & -> & _).
  exists (embed r). splits.
  - exact Em.
  - apply wf_move_of_embed. assumption.
  - exact (proj2 R).
  - cbn [embed A8]. rewrite mmul_pm_col_of
      by (try apply is_perm_bound; try apply is_perm_length; auto using cwf_c8).
    rewrite act_pmul, C. reflexivity.
Qed.

Lemma solve_corner_pos_places_witness :
  is_perm 8 [3; 0; 1; 2; 7; 6; 5; 4] = true /\
  exists res,
    solve_corner_pos (col_of [3; 0; 1; 2; 7; 6; 5; 4]) Kube.M0 1 3 Kube.fund_l = Ok res /\
    wf_move res = true /\
    Kube.replay (decompo res) (move_of_seq []) = Ok res /\
    mmul (A8 res) (col_of [3; 0; 1; 2; 7; 6; 5; 4]) = column (range 8).
Proof.
  split; [reflexivity |].
  exact (solve_corner_pos_places [3; 0; 1; 2; 7; 6; 5; 4] eq_refl).
Defined.

(** X16. Phase 2, as [solve] calls it: for corner cubies in place with
    any twists [ts] (each 0, 1 or 2), [pivot_corner_cubies] returns a
    well-formed move that moves no corner and untwists the corners 1 to 7;
    corner 0 is left with the sum of all the twists modulo 3. *)
Theorem pivot_corner_cubies_untwists (ts : list nat) :
  length ts = 8%nat -> Forall (fun t => (t < 3)%nat) ts ->
  exists res,
    pivot_corner_cubies (col_of (twist_rows 3 ts)) Kube.M1 2 Kube.fund_l = Ok res /\
    wf_move res = true /\
    A8 res = eye 8 /\
    mmul (S3 res) (col_of (twist_rows 3 ts))
    = col_of (twist_rows 3 ((list_sum ts mod 3)%nat :: repeat 0%nat 7)).
Proof.
  intros L B.
  pose proof (proj1 (forallb_forall _ _) twist_ok_3 ts (in_all_lists 3 8 ts L B)) as T.
  apply twist_ok_spec in T. destruct T as (Pq & Bq & Rq & Tq).
  set (q := twist_list 3 ts) in *.
  destruct (corner_ori_correct q Pq Bq) as (r & E & W & R & C8 & P' & B' & Z').
  destruct cwf_constants as (_ & W1 & _ & _ & Wf).
  rewrite Rq in E.
  assert (Lr : length (twist_rows 3 ts) = 24%nat) by (rewrite length_twist_rows, L; reflexivity).
  pose proof (pivot_corner_cubies_embed (twist_rows 3 ts) cM1 2 cfund_l W1 Wf Lr) as H.
  rewrite <- M1_embed, <- fund_l_embed, E in H.
  apply res_rel_Ok in H. destruct H as (m & Em & -> & _).
  pose proof (invb_round_trip r W R) as I. apply invb_spec in I.
  destruct I as (_ & B3 & _ & T3 & _ & _). rewrite C8 in B3.
  exists (embed r). splits.
  - exact Em.
  - apply wf_move_of_embed. assumption.
  - cbn [embed A8]. rewrite C8. symmetry. apply eye_pm.
  - cbn [embed S3]. rewrite mmul_pm_col_of
      by (try apply is_perm_bound; auto using cwf_c24).
    f_equal. rewrite act_pmul, <- Rq.
    rewrite pmul_map
      by (rewrite (is_perm_length _ _ Pq); apply is_perm_bound; auto using cwf_c24).
    rewrite (block_rows 3 8) by (try lia; auto using is_perm_length).
    rewrite (twists_after 3 8) by (try lia; auto using cwf_c24).
    rewrite Tq. reflexivity.
Qed.

Lemma pivot_corner_cubies_untwists_witness :
  length [1; 0; 2; 2; 0; 1; 1; 2]%nat = 8%nat /\
  Forall (fun t => (t < 3)%nat) [1; 0; 2; 2; 0; 1; 1; 2]%nat /\
  exists res,
    pivot_corner_cubies (col_of (twist_rows 3 [1; 0; 2; 2; 0; 1; 1; 2]%nat))
      Kube.M1 2 Kube.fund_l = Ok res /\
    wf_move res = true /\
    A8 res = eye 8 /\
    mmul (S3 res) (col_of (twist_rows 3 [1; 0; 2; 2; 0; 1; 1; 2]%nat))
    = col_of (twist_rows 3 ((list_sum [1; 0; 2; 2; 0; 1; 1; 2] mod 3)%nat
                            :: repeat 0%nat 7)).
Proof.
  assert (H : Forall (fun t => (t < 3)%nat) [1; 0; 2; 2; 0; 1; 1; 2]%nat).
  { repeat constructor. }
  split; [reflexivity |]. split; [exact H |].
  exact (pivot_corner_cubies_untwists [1; 0; 2; 2; 0; 1; 1; 2]%nat eq_refl H).
Defined.

(** X17. Phase 3, as [solve] calls it: for every arrangement [y] of the
    twelve edge cubies, [solve_edge_pos] with the four switchers returns
    a well-formed move that leaves every corner as it is (position and
    twist) and puts the edge cubies 0 to 9 in their own slots. *)
Theorem solve_edge_pos_places (y : list nat) :
  is_perm 12 y = true ->
  exists res,
    solve_edge_pos (col_of y) [Kube.M20; Kube.M21; Kube.M22; Kube.M23]
      [(0, 3, 11); (5, 6, 7); (4, 6, 7); (2, 9, 10)]%Z Kube.fund_l = Ok res /\
    wf_move res = true /\
    A8 res = eye 8 /\ S3 res = eye 24 /\
    firstn 10 (mmul (A12 res) (col_of y)) = column (range 10).
Proof.
  intros P. destruct (edge_pos_correct y P) as (r & E & W & R & C8 & C24 & P' & F).
  destruct cwf_constants as (_ & _ & _ & W2 & Wf).
  pose proof (solve_edge_pos_embed y [cM20; cM21; cM22; cM23]
                [(0, 3, 11); (5, 6, 7); (4, 6, 7); (2, 9, 10)]%Z cfund_l W2 Wf
                (is_perm_length _ _ P)) as H.
  rewrite <- M2x_embed, <- fund_l_embed in H.
  unfold switchers, zones in E. rewrite E in H.
  apply res_rel_Ok in H. destruct H as (m & Em & -> & _).
  exists (embed r). splits.
  - exact Em.
  - apply wf_move_of_embed. assumption.
  - cbn [embed A8]. rewrite C8. symmetry. apply eye_pm.
  - cbn [embed S3]. rewrite C24. symmetry. apply eye_pm.
  - cbn [embed A12]. rewrite mmul_pm_col_of
      by (try apply is_perm_bound; try apply is_perm_length; auto using cwf_e12).
    rewrite act_pmul. unfold col_of, column, range. rewrite !firstn_map. do 2 f_equal.
    apply nth_ext with (d := 0%nat) (d' := 0%nat).
    + rewrite length_firstn, (is_perm_length _ _ P'), length_seq. reflexivity.
    + intros k Hk. rewrite length_firstn, (is_perm_length _ _ P') in Hk.
      rewrite nth_firstn. destruct (Nat.ltb_spec k 10); [| lia].
      rewrite seq_nth by lia. apply F. assumption.
Qed.

Lemma solve_edge_pos_places_witness :
  is_perm 12 [7; 1; 2; 0; 4; 5; 6; 10; 8; 9; 11; 3] = true /\
  exists res,
    solve_edge_pos (col_of [7; 1; 2; 0; 4; 5; 6; 10; 8; 9; 11; 3])
      [Kube.M20; Kube.M21; Kube.M22; Kube.M23]
      [(0, 3, 11); (5, 6, 7); (4, 6, 7); (2, 9, 10)]%Z Kube.fund_l = Ok res /\
    wf_move res = true /\
    A8 res = eye 8 /\ S3 res = eye 24 /\
    firstn 10 (mmul (A12 res) (col_of [7; 1; 2; 0; 4; 5; 6; 10; 8; 9; 11; 3]))
    = column (range 10).
Proof.
  split; [reflexivity |].
  exact (solve_edge_pos_places [7; 1; 2; 0; 4; 5; 6; 10; 8; 9; 11; 3] eq_refl).
Defined.

(** X18. Phase 4, as [solve] calls it: for edge cubies in place with any
    flips [ts] (each 0 or 1), [pivot_edge_cubies] returns a well-formed
    move that leaves the corners and the edge positions as they are and
    unflips the edges 1 to 11; edge 0 is left with the sum of all the
    flips modulo 2. *)
Theorem pivot_edge_cubies_unflips (ts : list nat) :
  length ts = 12%nat -> Forall (fun t => (t < 2)%nat) ts ->
  exists res,
    pivot_edge_cubies (col_of (twist_rows 2 ts)) Kube.M31 3 Kube.fund_l = Ok res /\
    wf_move res = true /\
    A8 res = eye 8 /\ S3 res = eye 24 /\ A12 res = eye 12 /\
    mmul (S2 res) (col_of (twist_rows 2 ts))
    = col_of (twist_rows 2 ((list_sum ts mod 2)%nat :: repeat 0%nat 11)).
Proof.
  intros L B.
  pose proof (proj1 (forallb_forall _ _) twist_ok_2 ts (in_all_lists 2 12 ts L B)) as T.
  apply twist_ok_spec in T. destruct T as (Pq & Bq & Rq & Tq).
  set (q := twist_list 2 ts) in *.
  destruct (edge_ori_correct q Pq Bq)
    as (r & E & W & R & C8 & C24 & C12 & P' & B' & Z').
  destruct cwf_constants as (_ & _ & W31 & _ & Wf).
  rewrite Rq in E.
  assert (Lr : length (twist_rows 2 ts) = 24%nat) by (rewrite length_twist_rows, L; reflexivity).
  pose proof (pivot_edge_cubies_embed (twist_rows 2 ts) cM31 3 cfund_l W31 Wf Lr) as H.
  rewrite <- M31_embed, <- fund_l_embed, E in H.
  apply res_rel_Ok in H. destruct H as (m & Em & -> & _).
  pose proof (invb_round_trip r W R) as I. apply invb_spec in I.
  destruct I as (_ & _ & B2 & _ & T2 & _). rewrite C12 in B2.
  exists (embed r). splits.
  - exact Em.
  - apply wf_move_of_embed. assumption.
  - cbn [embed A8]. rewrite C8. symmetry. apply eye_pm.
  - cbn [embed S3]. rewrite C24. symmetry. apply eye_pm.
  - cbn [embed A12]. rewrite C12. symmetry. apply eye_pm.
  - cbn [embed S2]. rewrite mmul_pm_col_of
      by (try apply is_perm_bound; auto using cwf_e24).
    f_equal. rewrite act_pmul, <- Rq.
    rewrite pmul_map
      by (rewrite (is_perm_length _ _ Pq); apply is_perm_bound; auto using cwf_e24).
    rewrite (block_rows 2 12) by (try lia; auto using is_perm_length).
    rewrite (twists_after 2 12) by (try lia; auto using cwf_e24).
    rewrite Tq. reflexivity.
Qed.

Lemma pivot_edge_cubies_unflips_witness :
  length [1; 0; 1; 1; 0; 0; 1; 0; 1; 1; 0; 0]%nat = 12%nat /\
  Forall (fun t => (t < 2)%nat) [1; 0; 1; 1; 0; 0; 1; 0; 1; 1; 0; 0]%nat /\
  exists res,
    pivot_edge_cubies (col_of (twist_rows 2 [1; 0; 1; 1; 0; 0; 1; 0; 1; 1; 0; 0]%nat))
      Kube.M31 3 Kube.fund_l = Ok res /\
    wf_move res = true /\
    A8 res = eye 8 /\ S3 res = eye 24 /\ A12 res = eye 12 /\
    mmul (S2 res) (col_of (twist_rows 2 [1; 0; 1; 1; 0; 0; 1; 0; 1; 1; 0; 0]%nat))
    = col_of (twist_rows 2
                ((list_sum [1; 0; 1; 1; 0; 0; 1; 0; 1; 1; 0; 0] mod 2)%nat
                 :: repeat 0%nat 11)).
Proof.
  assert (H : Forall (fun t => (t < 2)%nat) [1; 0; 1; 1; 0; 0; 1; 0; 1; 1; 0; 0]%nat).
  { repeat constructor. }
  split; [reflexivity |]. split; [exact H |].
  exact (pivot_edge_cubies_unflips [1; 0; 1; 1; 0; 0; 1; 0; 1; 1; 0; 0]%nat eq_refl H).
Defined.

Module LabelFacts.

Local Open Scope nat_scope.

(** The iterations of a loop that leave the state as it is can be
    skipped. *)
Lemma for_each_skip {St : Type} (body : St -> nat -> res St) (st : St) i n :
  (forall k, k < i -> body st k = Ok st) ->
  for_each (seq 0 (i + n)) body st = for_each (seq i n) body st.
Proof.
  intros H.
  assert (G : forall d a, i - a = d -> a <= i ->
                for_each (seq a (i - a + n)) body st = for_each (seq i n) body st).
  { induction d as [| d IH]; intros a Ed Ha.
    - replace a with i by lia. rewrite Nat.sub_diag. reflexivity.
    - replace (i - a + n) with (S (i - S a + n)) by lia.
      cbn [seq for_each]. rewrite H by lia. cbn [bind]. apply IH; lia. }
  specialize (G i 0 ltac:(lia) ltac:(lia)). rewrite Nat.sub_0_r in G. exact G.
Qed.

Lemma filter_none {X : Type} (f : X -> bool) l :
  (forall x, In x l -> f x = false) -> filter f l = [].
Proof.
  induction l as [| a l IH]; intros H; [reflexivity |].
  cbn [filter]. rewrite (H a) by (left; reflexivity). apply IH.
  intros x Hx. apply H. right. assumption.
Qed.

Lemma cfind_label_missing y i :
  (forall k, i < k < length y -> nth k y 0 <> i) -> cfind_label y i = Err IndexError.
Proof.
  intros H. unfold cfind_label. rewrite filter_none; [reflexivity |].
  intros k Hk. apply in_seq in Hk. apply Nat.eqb_neq. apply H. lia.
Qed.

End LabelFacts.

Import LabelFacts.

(** X19. A cubie that is nowhere: when the slots before [i] hold their own
    cubies, slot [i] does not, and no later row of the column holds the
    label [i], the position phases raise [IndexError] (the list
    comprehension that looks for the label is empty), whatever the
    switchers and the authorized moves. *)
Theorem missing_label_raises (y : list nat) (i : nat) (switcher : move) (c1 c2 : Z)
    (switcher_l : list move) (c_l : list (Z * Z * Z)) (auth : list move) :
  (i < 8)%nat -> (i < length y)%nat ->
  (forall k, (k < i)%nat -> nth k y 0%nat = k) ->
  nth i y 0%nat <> i ->
  (forall k, (i < k < length y)%nat -> nth k y 0%nat <> i) ->
  solve_corner_pos (col_of y) switcher c1 c2 auth = Err IndexError /\
  solve_edge_pos (col_of y) switcher_l c_l auth = Err IndexError.
Proof.
  intros Hi Hl Hfix Hne Hmiss.
  assert (Hrow : forall k, (k < i)%nat -> row_eq (col_of y) k (Z.of_nat k) = Ok true).
  { intros k Hk. rewrite row_eq_col_of, crow_eq_nth by lia.
    rewrite Hfix by assumption. rewrite Nat.eqb_refl. reflexivity. }
  assert (Hrow' : row_eq (col_of y) i (Z.of_nat i) = Ok false).
  { rewrite row_eq_col_of, crow_eq_nth by lia.
    destruct (Nat.eqb_spec (nth i y 0%nat) i); [contradiction | reflexivity]. }
  assert (Hfind : find_label (col_of y) i = Err IndexError).
  { rewrite find_label_col_of. apply cfind_label_missing. assumption. }
  split.
  - unfold solve_corner_pos.
    replace 8%nat with (i + S (7 - i))%nat by lia.
    rewrite for_each_skip by (intros k Hk; rewrite Hrow by assumption; reflexivity).
    cbn [seq for_each]. rewrite Hrow'. cbn [bind]. rewrite Hfind. reflexivity.
  - unfold solve_edge_pos.
    replace 10%nat with (i + S (9 - i))%nat by lia.
    rewrite for_each_skip by (intros k Hk; rewrite Hrow by assumption; reflexivity).
    cbn [seq for_each]. rewrite Hrow'. cbn [bind]. rewrite Hfind. reflexivity.
Qed.

Lemma missing_label_raises_witness :
  (1 < 8)%nat /\ (1 < length [0; 2; 2; 3; 4; 5; 6; 7]%nat)%nat /\
  (forall k, (k < 1)%nat -> nth k [0; 2; 2; 3; 4; 5; 6; 7]%nat 0%nat = k) /\
  nth 1 [0; 2; 2; 3; 4; 5; 6; 7]%nat 0%nat <> 1%nat /\
  (forall k, (1 < k < length [0; 2; 2; 3; 4; 5; 6; 7]%nat)%nat ->
     nth k [0; 2; 2; 3; 4; 5; 6; 7]%nat 0%nat <> 1%nat) /\
  solve_corner_pos (col_of [0; 2; 2; 3; 4; 5; 6; 7]%nat) Kube.M0 1 3 Kube.fund_l
  = Err IndexError /\
  solve_edge_pos (col_of [0; 2; 2; 3; 4; 5; 6; 7]%nat) [Kube.M20] [(0, 3, 11)%Z]
    Kube.fund_l = Err IndexError.
Proof.
  assert (H1 : forall k, (k < 1)%nat -> nth k [0; 2; 2; 3; 4; 5; 6; 7]%nat 0%nat = k).
  { intros k Hk. destruct k; [reflexivity | lia]. }
  assert (H2 : nth 1 [0; 2; 2; 3; 4; 5; 6; 7]%nat 0%nat <> 1%nat) by (cbn; lia).
  assert (H3 : forall k, (1 < k < length [0; 2; 2; 3; 4; 5; 6; 7]%nat)%nat ->
                 nth k [0; 2; 2; 3; 4; 5; 6; 7]%nat 0%nat <> 1%nat).
  { intros k Hk. cbn [length] in Hk.
    do 8 (destruct k as [| k]; [cbn; lia |]). lia. }
  split; [lia |]. split; [cbn; lia |]. split; [exact H1 |]. split; [exact H2 |].
  split; [exact H3 |].
  exact (missing_label_raises [0; 2; 2; 3; 4; 5; 6; 7]%nat 1 Kube.M0 1 3 [Kube.M20]
           [(0, 3, 11)%Z] Kube.fund_l ltac:(lia) ltac:(cbn; lia) H1 H2 H3).
Defined.

(** ** States, reachable configurations and the key handler *)

Module StateFacts.

Local Open Scope nat_scope.

Lemma fund_none a : quarter_turn a = false -> Kube.fund a = None.
Proof.
  intros H. destruct (Kube.fund a) as [g |] eqn:E; [| reflexivity].
  assert (Q : quarter_turn a = true) by (apply fund_quarter_turn; eauto).
  congruence.
Qed.

Lemma replay_key_error ts : forall b,
  forallb quarter_turn ts = false -> Kube.replay ts b = Err KeyError.
Proof.
  induction ts as [| a ts IH]; intros b H; [discriminate |].
  cbn [forallb] in H. cbn [Kube.replay].
  destruct (quarter_turn a) eqn:Q.
  - apply fund_quarter_turn in Q. destruct Q as [g ->]. apply IH. exact H.
  - rewrite fund_none by assumption. reflexivity.
Qed.

Lemma replay_ok_quarter ts b m :
  Kube.replay ts b = Ok m -> Forall (fun a => quarter_turn a = true) ts.
Proof.
  intros H. apply Forall_forall. apply forallb_forall.
  destruct (forallb quarter_turn ts) eqn:E; [reflexivity |].
  rewrite replay_key_error in H by assumption. discriminate.
Qed.

Lemma replay_reachable ts :
  Forall (fun a => quarter_turn a = true) ts ->
  exists g, creplay ts (cone []) = Ok g /\ invb g = true /\
    Kube.replay ts (move_of_seq []) = Ok (embed g).
Proof.
  intros H. destruct (creplay_total ts H (cone [])) as [g E].
  exists g. split; [assumption |]. split.
  - eapply invb_creplay; [| exact E]. reflexivity.
  - change (move_of_seq []) with (embed (cone [])).
    rewrite (proj1 (replay_embed ts (cone []) eq_refl)), E. reflexivity.
Qed.

Lemma length_cstate g : cwf g = true -> length (cstate g) = 68.
Proof. intros W. unfold cstate, act. rewrite length_map. apply length_cM. assumption. Qed.

Lemma state_embed g : cwf g = true -> mmul (M (embed g)) Kube.X = col_of (cstate g).
Proof.
  intros W. rewrite X_col_of, mmul_M_col_of by (assumption || reflexivity). reflexivity.
Qed.

(** The solver on a reachable configuration, with the tokens of the
    solution. *)
Lemma solve_reachable scramble :
  Forall (fun a => quarter_turn a = true) scramble ->
  exists st sol,
    Kube.move_list_to_state scramble = Ok st /\
    Kube.solve st = Ok sol /\
    Forall (fun a => quarter_turn a = true) sol /\
    Kube.move_list_to_state (scramble ++ sol) = Ok Kube.X.
Proof.
  intros Hs. destruct (replay_reachable scramble Hs) as (g0 & E0 & I0 & R0).
  assert (W0 : cwf g0 = true) by (apply invb_spec in I0; tauto).
  destruct (csolve_correct g0 I0) as (r & Es & Wr & [Wr' Rr] & G1 & G2 & G3 & G4).
  assert (Wg : cwf (cmul r g0) = true) by (apply cwf_cmul; assumption).
  exists (col_of (cstate g0)), (toks r). splits.
  - unfold Kube.move_list_to_state. rewrite R0. cbn [bind].
    rewrite state_embed by assumption. reflexivity.
  - rewrite solve_embed; [exact Es | apply length_cstate; assumption].
  - eapply replay_ok_quarter. exact Rr.
  - unfold Kube.move_list_to_state. rewrite replay_app, R0. cbn [bind].
    rewrite (replay_from (toks r) (embed g0) (embed r))
      by (try apply wf_move_of_embed; assumption).
    cbn [bind]. rewrite <- embed_cmul by assumption.
    rewrite state_embed by assumption.
    rewrite cstate_identity by assumption. rewrite X_col_of. reflexivity.
Qed.

End StateFacts.

Import StateFacts.

(** X20. The state after two token lists in a row: when
    [move_list_to_state] gives [st1] on the first list and the second
    list replays to the move [m2], the state of the concatenation is
    [m2.M * st1]. *)
Theorem state_of_concat (t1 t2 : list token) (st1 : matrix) (m2 : move) :
  Kube.move_list_to_state t1 = Ok st1 ->
  Kube.replay t2 (move_of_seq []) = Ok m2 ->
  Kube.move_list_to_state (t1 ++ t2) = Ok (mmul (M m2) st1).
Proof.
  intros H1 H2. unfold Kube.move_list_to_state in H1 |- *.
  destruct (Kube.replay t1 (move_of_seq [])) as [m1 |] eqn:E1; cbn [bind] in H1;
    [| discriminate].
  injection H1 as <-.
  assert (W1 : wf_move m1 = true) by (eapply replay_wf; [| exact E1]; reflexivity).
  assert (W2 : wf_move m2 = true) by (eapply replay_wf; [| exact H2]; reflexivity).
  rewrite replay_app, E1. cbn [bind].
  rewrite (replay_from t2 m1 m2) by assumption. cbn [bind]. f_equal.
  apply wf_move_embed in W1, W2. destruct W1 as [Ea Wa], W2 as [Eb Wb].
  rewrite Ea, Eb. rewrite <- embed_cmul by assumption.
  rewrite !state_embed by auto using cwf_cmul.
  rewrite mmul_M_col_of by (try apply length_cstate; assumption).
  rewrite act_cM_cstate by assumption. reflexivity.
Qed.

Lemma state_of_concat_witness :
  Kube.move_list_to_state ["F"%string] = Ok (mmul (M (Kube.F * move_of_seq [])) Kube.X) /\
  Kube.replay ["u"%string] (move_of_seq []) = Ok (Kube.u * move_of_seq []) /\
  Kube.move_list_to_state (["F"%string] ++ ["u"%string])
  = Ok (mmul (M (Kube.u * move_of_seq []))
          (mmul (M (Kube.F * move_of_seq [])) Kube.X)).
Proof.
  assert (H1 : Kube.move_list_to_state ["F"%string]
               = Ok (mmul (M (Kube.F * move_of_seq [])) Kube.X)) by reflexivity.
  assert (H2 : Kube.replay ["u"%string] (move_of_seq [])
               = Ok (Kube.u * move_of_seq [])) by reflexivity.
  split; [exact H1 |]. split; [exact H2 |].
  exact (state_of_concat ["F"%string] ["u"%string] _ _ H1 H2).
Defined.

(** X21. [move_list_to_state] on any list of strings: when every token
    is one of the twelve quarter-turn symbols the result is a 68x1
    column; otherwise the look-up in [fund] raises [KeyError]. *)
Theorem state_or_key_error (ts : list token) :
  (forallb quarter_turn ts = true ->
   exists st, Kube.move_list_to_state ts = Ok st /\
     length st = 68%nat /\ Forall (fun r => length r = 1%nat) st) /\
  (forallb quarter_turn ts = false -> Kube.move_list_to_state ts = Err KeyError).
Proof.
  split; intros H.
  - assert (Hq : Forall (fun a => quarter_turn a = true) ts).
    { apply Forall_forall. apply forallb_forall. assumption. }
    destruct (replay_reachable ts Hq) as (g & _ & I & R).
    assert (W : cwf g = true) by (apply invb_spec in I; tauto).
    exists (col_of (cstate g)). splits.
    + unfold Kube.move_list_to_state. rewrite R. cbn [bind].
      rewrite state_embed by assumption. reflexivity.
    + unfold col_of, column. rewrite !length_map. apply length_cstate. assumption.
    + unfold col_of, column. apply Forall_forall. intros r Hr.
      apply in_map_iff in Hr. destruct Hr as (x & <- & _). reflexivity.
  - unfold Kube.move_list_to_state. rewrite replay_key_error by assumption. reflexivity.
Qed.

(** X22. The laws of the cube on every reachable configuration: the move
    a list of quarter-turn tokens replays to is well-formed, every
    orientation block follows its cubie, the corner twists add up to 0
    modulo 3, the edge flips add up to 0 modulo 2, and the corner and the
    edge permutation have the same parity. *)
Theorem reachable_laws (ts : list token) :
  Forall (fun a => quarter_turn a = true) ts ->
  exists m, Kube.replay ts (move_of_seq []) = Ok m /\
    wf_move m = true /\
    blockb 3 8 (unpm (A8 m)) (unpm (S3 m)) = true /\
    blockb 2 12 (unpm (A12 m)) (unpm (S2 m)) = true /\
    twsum 3 8 (unpm (S3 m)) = 0%nat /\
    twsum 2 12 (unpm (S2 m)) = 0%nat /\
    parity (unpm (A8 m)) = parity (unpm (A12 m)).
Proof.
  intros H. destruct (replay_reachable ts H) as (g & _ & I & R).
  pose proof I as I'. apply invb_spec in I'.
  destruct I' as (W & B3 & B2 & T3 & T2 & Pa).
  exists (embed g). split; [exact R |]. split; [apply wf_move_of_embed; assumption |].
  change (unpm (A8 (embed g))) with (c8 (abstract (embed g))).
  change (unpm (S3 (embed g))) with (c24 (abstract (embed g))).
  change (unpm (A12 (embed g))) with (e12 (abstract (embed g))).
  change (unpm (S2 (embed g))) with (e24 (abstract (embed g))).
  rewrite abstract_embed by assumption. auto.
Qed.

Lemma reachable_laws_witness :
  Forall (fun a => quarter_turn a = true) ["F"%string; "r"%string; "U"%string] /\
  exists m, Kube.replay ["F"%string; "r"%string; "U"%string] (move_of_seq []) = Ok m /\
    wf_move m = true /\
    blockb 3 8 (unpm (A8 m)) (unpm (S3 m)) = true /\
    blockb 2 12 (unpm (A12 m)) (unpm (S2 m)) = true /\
    twsum 3 8 (unpm (S3 m)) = 0%nat /\
    twsum 2 12 (unpm (S2 m)) = 0%nat /\
    parity (unpm (A8 m)) = parity (unpm (A12 m)).
Proof.
  assert (H : Forall (fun a => quarter_turn a = true)
                ["F"%string; "r"%string; "U"%string]) by (repeat constructor).
  split; [exact H | exact (reachable_laws _ H)].
Defined.

Module KeyFacts.

Local Open Scope nat_scope.

Lemma letters_quarter a : In a letters -> quarter_turn a = true.
Proof.
  intros H. unfold letters in H. cbn [In] in H.
  repeat match type of H with
         | _ \/ _ => destruct H as [H | H]; [subst a; reflexivity |]
         end.
  contradiction.
Qed.

Lemma key_letter_quarter key : existsb (String.eqb key) letters = true -> quarter_turn key = true.
Proof.
  intros H. apply existsb_exists in H. destruct H as (a & Ha & E).
  apply String.eqb_eq in E. subst. apply letters_quarter. assumption.
Qed.

Lemma rand_move_quarter draw n :
  (forall i, draw i < 12) -> Forall (fun a => quarter_turn a = true) (rand_move draw n).
Proof.
  intros H. apply Forall_forall. intros a Ha. unfold rand_move in Ha.
  apply in_map_iff in Ha. destruct Ha as (i & <- & _).
  apply letters_quarter. apply nth_In. exact (H i).
Qed.

End KeyFacts.

Import KeyFacts.

(** X23. Every list that [rand_move] can return has the length asked
    for, holds only quarter-turn symbols, is accepted by
    [move_list_to_state], and is solved by [solve]: the list followed by
    the solution gives the solved state. *)
Theorem rand_move_solved (draw : nat -> nat) (num_move : nat) :
  (forall i, (draw i < 12)%nat) ->
  length (rand_move draw num_move) = num_move /\
  Forall (fun a => quarter_turn a = true) (rand_move draw num_move) /\
  exists st sol,
    Kube.move_list_to_state (rand_move draw num_move) = Ok st /\
    Kube.solve st = Ok sol /\
    Kube.move_list_to_state (rand_move draw num_move ++ sol) = Ok Kube.X.
Proof.
  intros H. split; [unfold rand_move; rewrite length_map, length_seq; reflexivity |].
  pose proof (rand_move_quarter draw num_move H) as Q. split; [exact Q |].
  destruct (solve_reachable _ Q) as (st & sol & E1 & E2 & _ & E3).
  exists st, sol. auto.
Qed.

Lemma rand_move_solved_witness :
  (forall i, ((fun i => i mod 12) i < 12)%nat) /\
  length (rand_move (fun i => i mod 12)%nat 20) = 20%nat /\
  Forall (fun a => quarter_turn a = true) (rand_move (fun i => i mod 12)%nat 20) /\
  exists st sol,
    Kube.move_list_to_state (rand_move (fun i => i mod 12)%nat 20) = Ok st /\
    Kube.solve st = Ok sol /\
    Kube.move_list_to_state (rand_move (fun i => i mod 12)%nat 20 ++ sol) = Ok Kube.X.
Proof.
  assert (H : forall i, ((fun i => i mod 12) i < 12)%nat).
  { intros i. apply Nat.mod_upper_bound. lia. }
  split; [exact H |].
  exact (rand_move_solved (fun i => i mod 12)%nat 20 H).
Defined.

(** X24. The key handler of [mvts.py] keeps the list of actions solvable
    and never lets an exception escape: from a list of quarter-turn
    symbols, a call of [keyboard] either exits (on Esc or ["q"]) or
    returns with a list of quarter-turn symbols, and after ["s"] that
    list replays to the solved state. *)
Theorem keyboard_safe (draw : nat -> nat) (key : string) (u : ui) :
  (forall i, (draw i < 12)%nat) ->
  Forall (fun a => quarter_turn a = true) (actions u) ->
  match keyboard draw key u with
  | Fail _ => False
  | Exit => key = String "027"%char ""%string \/ key = "q"%string
  | Continue u' =>
      Forall (fun a => quarter_turn a = true) (actions u') /\
      (key = "s"%string -> Kube.move_list_to_state (actions u') = Ok Kube.X)
  end.
Proof.
  intros Hd Hq. unfold keyboard.
  destruct (String.eqb_spec key (String "027"%char ""%string)) as [-> | N1];
    cbn [orb]; [left; reflexivity |].
  destruct (String.eqb_spec key "q"%string) as [-> | N2]; [right; reflexivity |].
  set (actions1 := if existsb (String.eqb key) letters
                   then (actions u ++ [key])%list else actions u).
  assert (Q1 : Forall (fun a => quarter_turn a = true) actions1).
  { unfold actions1. destruct (existsb (String.eqb key) letters) eqn:E; [| assumption].
    apply Forall_app. split; [assumption |]. constructor; [| constructor].
    apply key_letter_quarter. assumption. }
  destruct (String.eqb_spec key "a"%string) as [-> | N3].
  - cbn [String.eqb Ascii.eqb Bool.eqb]. split; [| discriminate].
    cbn [actions]. apply Forall_app. split; [assumption |].
    apply rand_move_quarter. assumption.
  - destruct (String.eqb_spec key "s"%string) as [-> | N4].
    + destruct (solve_reachable _ Q1) as (st & sol & E1 & E2 & Q & E3).
      rewrite E1, E2. cbn [actions]. split.
      * apply Forall_app. split; assumption.
      * intros _. exact E3.
    + cbn [actions]. split; [assumption | contradiction].
Qed.

Lemma keyboard_safe_witness :
  (forall i, ((fun _ : nat => 0%nat) i < 12)%nat) /\
  Forall (fun a => quarter_turn a = true)
    (actions (mkui ["F"%string; "u"%string] ""%string)) /\
  match keyboard (fun _ : nat => 0%nat) "s"%string (mkui ["F"%string; "u"%string] ""%string)
        return Prop with
  | Fail _ => False
  | Exit => "s"%string = String "027"%char ""%string \/ "s"%string = "q"%string
  | Continue u' =>
      Forall (fun a => quarter_turn a = true) (actions u') /\
      ("s"%string = "s"%string -> Kube.move_list_to_state (actions u') = Ok Kube.X)
  end.
Proof.
  assert (H1 : forall i, ((fun _ : nat => 0%nat) i < 12)%nat) by (intros i; lia).
  assert (H2 : Forall (fun a => quarter_turn a = true)
                 (actions (mkui ["F"%string; "u"%string] ""%string)))
    by (repeat constructor).
  split; [exact H1 |]. split; [exact H2 |].
  exact (keyboard_safe (fun _ : nat => 0%nat) "s"%string
           (mkui ["F"%string; "u"%string] ""%string) H1 H2).
Defined.

Module ExhaustFacts.

Local Open Scope nat_scope.

Lemma try_switchers_none switcher_l c_l i j auth nm : forall k,
  Forall (fun c => send_12 (fst (fst c)) (snd (fst c)) (snd c) i j auth 3 1 prev0 = Ok None)
         c_l ->
  try_switchers switcher_l c_l k i j auth nm = Ok nm.
Proof.
  induction c_l as [| [[cb1 cb2] cb3] c_l IH]; intros k H; [reflexivity |].
  inversion H as [| ? ? H1 H2]; subst. cbn [fst snd] in H1.
  cbn [try_switchers]. rewrite H1. cbn [bind]. apply IH. assumption.
Qed.

End ExhaustFacts.

Import ExhaustFacts.

(** X25. An exhausted search is fatal in the corner-position phase: when
    the slots before [i] hold their own cubies, the cubie of slot [i] is
    found in slot [j], and [send_8] returns [None] for that defect,
    [solve_corner_pos] raises [TypeError] (from [conjugate(switcher, None)]). *)
Theorem corner_search_exhausted_raises (y : list nat) (i j : nat) (switcher : move)
    (c1 c2 : Z) (auth : list move) :
  (i < 8)%nat -> (i < length y)%nat ->
  (forall k, (k < i)%nat -> nth k y 0%nat = k) ->
  nth i y 0%nat <> i ->
  find_label (col_of y) i = Ok j ->
  send_8 c1 c2 i j auth 5 1 prev0 = Ok None ->
  solve_corner_pos (col_of y) switcher c1 c2 auth = Err TypeError.
Proof.
  intros Hi Hl Hfix Hne Hfind Hsend.
  assert (Hrow : forall k, (k < i)%nat -> row_eq (col_of y) k (Z.of_nat k) = Ok true).
  { intros k Hk. rewrite row_eq_col_of, crow_eq_nth by lia.
    rewrite Hfix by assumption. rewrite Nat.eqb_refl. reflexivity. }
  assert (Hrow' : row_eq (col_of y) i (Z.of_nat i) = Ok false).
  { rewrite row_eq_col_of, crow_eq_nth by lia.
    destruct (Nat.eqb_spec (nth i y 0%nat) i); [contradiction | reflexivity]. }
  unfold solve_corner_pos.
  replace 8%nat with (i + S (7 - i))%nat by lia.
  rewrite for_each_skip by (intros k Hk; rewrite Hrow by assumption; reflexivity).
  cbn [seq for_each]. rewrite Hrow'. cbn [bind]. rewrite Hfind. cbn [bind].
  rewrite Hsend. reflexivity.
Qed.

Lemma corner_search_exhausted_raises_witness :
  (0 < 8)%nat /\ (0 < length [1; 0; 2; 3; 4; 5; 6; 7]%nat)%nat /\
  (forall k, (k < 0)%nat -> nth k [1; 0; 2; 3; 4; 5; 6; 7]%nat 0%nat = k) /\
  nth 0 [1; 0; 2; 3; 4; 5; 6; 7]%nat 0%nat <> 0%nat /\
  find_label (col_of [1; 0; 2; 3; 4; 5; 6; 7]%nat) 0 = Ok 1%nat /\
  send_8 1 3 0 1 [] 5 1 prev0 = Ok None /\
  solve_corner_pos (col_of [1; 0; 2; 3; 4; 5; 6; 7]%nat) Kube.M0 1 3 [] = Err TypeError.
Proof.
  assert (H1 : forall k, (k < 0)%nat -> nth k [1; 0; 2; 3; 4; 5; 6; 7]%nat 0%nat = k)
    by (intros k Hk; lia).
  assert (H2 : nth 0 [1; 0; 2; 3; 4; 5; 6; 7]%nat 0%nat <> 0%nat) by (cbn; lia).
  assert (H3 : find_label (col_of [1; 0; 2; 3; 4; 5; 6; 7]%nat) 0 = Ok 1%nat)
    by reflexivity.
  assert (H4 : send_8 1 3 0 1 [] 5 1 prev0 = Ok None) by (vm_compute; reflexivity).
  split; [lia |]. split; [cbn; lia |]. split; [exact H1 |]. split; [exact H2 |].
  split; [exact H3 |]. split; [exact H4 |].
  exact (corner_search_exhausted_raises [1; 0; 2; 3; 4; 5; 6; 7]%nat 0 1 Kube.M0 1 3 []
           ltac:(lia) ltac:(cbn; lia) H1 H2 H3 H4).
Defined.

(** X26. In the edge-position phase, when no switcher succeeds at the
    first misplaced slot, [next_move] has never been bound and
    [solve_edge_pos] raises [UnboundLocalError]. *)
Theorem first_defect_unbound_raises (y : list nat) (i j : nat) (switcher_l : list move)
    (c_l : list (Z * Z * Z)) (auth : list move) :
  (i < 10)%nat -> (i < length y)%nat ->
  (forall k, (k < i)%nat -> nth k y 0%nat = k) ->
  nth i y 0%nat <> i ->
  find_label (col_of y) i = Ok j ->
  Forall (fun c => send_12 (fst (fst c)) (snd (fst c)) (snd c) i j auth 3 1 prev0 = Ok None)
         c_l ->
  solve_edge_pos (col_of y) switcher_l c_l auth = Err UnboundLocalError.
Proof.
  intros Hi Hl Hfix Hne Hfind Hsend.
  assert (Hrow : forall k, (k < i)%nat -> row_eq (col_of y) k (Z.of_nat k) = Ok true).
  { intros k Hk. rewrite row_eq_col_of, crow_eq_nth by lia.
    rewrite Hfix by assumption. rewrite Nat.eqb_refl. reflexivity. }
  assert (Hrow' : row_eq (col_of y) i (Z.of_nat i) = Ok false).
  { rewrite row_eq_col_of, crow_eq_nth by lia.
    destruct (Nat.eqb_spec (nth i y 0%nat) i); [contradiction | reflexivity]. }
  unfold solve_edge_pos.
  replace 10%nat with (i + S (9 - i))%nat by lia.
  rewrite for_each_skip by (intros k Hk; rewrite Hrow by assumption; reflexivity).
  cbn [seq for_each]. rewrite Hrow'. cbn [bind]. rewrite Hfind. cbn [bind].
  rewrite try_switchers_none by assumption. reflexivity.
Qed.

Lemma first_defect_unbound_raises_witness :
  (7 < 10)%nat /\ (7 < length [0; 1; 2; 3; 4; 5; 6; 10; 8; 9; 11; 7]%nat)%nat /\
  (forall k, (k < 7)%nat -> nth k [0; 1; 2; 3; 4; 5; 6; 10; 8; 9; 11; 7]%nat 0%nat = k) /\
  nth 7 [0; 1; 2; 3; 4; 5; 6; 10; 8; 9; 11; 7]%nat 0%nat <> 7%nat /\
  find_label (col_of [0; 1; 2; 3; 4; 5; 6; 10; 8; 9; 11; 7]%nat) 7 = Ok 11%nat /\
  Forall (fun c => send_12 (fst (fst c)) (snd (fst c)) (snd c) 7 11 Kube.fund_l 3 1 prev0
                   = Ok None) [(0, 3, 11)%Z] /\
  solve_edge_pos (col_of [0; 1; 2; 3; 4; 5; 6; 10; 8; 9; 11; 7]%nat) [Kube.M20]
    [(0, 3, 11)%Z] Kube.fund_l = Err UnboundLocalError.
Proof.
  assert (H1 : forall k, (k < 7)%nat ->
                 nth k [0; 1; 2; 3; 4; 5; 6; 10; 8; 9; 11; 7]%nat 0%nat = k).
  { intros k Hk. do 7 (destruct k as [| k]; [reflexivity |]). lia. }
  assert (H2 : nth 7 [0; 1; 2; 3; 4; 5; 6; 10; 8; 9; 11; 7]%nat 0%nat <> 7%nat)
    by (cbn; lia).
  assert (H3 : find_label (col_of [0; 1; 2; 3; 4; 5; 6; 10; 8; 9; 11; 7]%nat) 7
               = Ok 11%nat) by reflexivity.
  assert (H4 : Forall (fun c => send_12 (fst (fst c)) (snd (fst c)) (snd c) 7 11
                                  Kube.fund_l 3 1 prev0 = Ok None) [(0, 3, 11)%Z]).
  { constructor; [| constructor]. cbn [fst snd].
    rewrite fund_l_embed, (proj1 (send_12_embed 0 3 11 7 11 cfund_l 3 1
                                    (proj2 (proj2 (proj2 (proj2 cwf_constants)))))).
    replace (csend_12 0 3 11 7 11 cfund_l 3 1 cprev0) with (@Ok (option cmove) None)
      by (vm_compute; reflexivity).
    reflexivity. }
  split; [lia |]. split; [cbn; lia |]. split; [exact H1 |]. split; [exact H2 |].
  split; [exact H3 |]. split; [exact H4 |].
  exact (first_defect_unbound_raises [0; 1; 2; 3; 4; 5; 6; 10; 8; 9; 11; 7]%nat 7 11
           [Kube.M20] [(0, 3, 11)%Z] Kube.fund_l ltac:(lia) ltac:(cbn; lia) H1 H2 H3 H4).
Defined.

Module BlockFacts.

Local Open Scope nat_scope.

Lemma pmul_cM a b :
  cwf a = true -> cwf b = true -> pmul (cM a) (cM b) = cM (cmul a b).
Proof.
  intros Wa Wb. unfold pmul, cM. rewrite !map_app, !map_map.
  assert (R8 := is_perm_bound _ _ (cwf_c8 _ Wa)).
  assert (R12 := is_perm_bound _ _ (cwf_e12 _ Wa)).
  assert (R24 := is_perm_bound _ _ (cwf_c24 _ Wa)).
  assert (R24' := is_perm_bound _ _ (cwf_e24 _ Wa)).
  rewrite Forall_forall in R8, R12, R24, R24'.
  assert (L8 := is_perm_length _ _ (cwf_c8 _ Wb)).
  assert (L12 := is_perm_length _ _ (cwf_e12 _ Wb)).
  assert (L24 := is_perm_length _ _ (cwf_c24 _ Wb)).
  assert (L24' := is_perm_length _ _ (cwf_e24 _ Wb)).
  cbn [cmul c8 c24 e12 e24]. unfold pmul. rewrite !map_map.
  f_equal; [| f_equal; [| f_equal]].
  - apply map_ext_in. intros k Hk. apply app_nth1. rewrite L8. auto.
  - apply map_ext_in. intros k Hk. rewrite (nth_app_off _ _ 8) by assumption.
    rewrite app_nth1 by (rewrite length_map, L12; auto).
    apply (nth_map_lt (fun x => 8 + x)). rewrite L12. auto.
  - apply map_ext_in. intros k Hk.
    change (20 + k) with (8 + (12 + k)).
    rewrite (nth_app_off _ _ 8) by assumption.
    rewrite (nth_app_off _ _ 12) by (rewrite length_map; assumption).
    rewrite app_nth1 by (rewrite length_map, L24; auto).
    apply (nth_map_lt (fun x => 20 + x)). rewrite L24. auto.
  - apply map_ext_in. intros k Hk.
    change (44 + k) with (8 + (12 + (24 + k))).
    rewrite (nth_app_off _ _ 8) by assumption.
    rewrite (nth_app_off _ _ 12) by (rewrite length_map; assumption).
    rewrite (nth_app_off _ _ 24) by (rewrite length_map; assumption).
    apply (nth_map_lt (fun x => 44 + x)). rewrite L24'. auto.
Qed.

Lemma replay_decompo ts : forall b m,
  Kube.replay ts b = Ok m -> decompo m = (decompo b ++ ts)%list.
Proof.
  induction ts as [| a ts IH]; intros b m H; cbn [Kube.replay] in H.
  - injection H as <-. rewrite app_nil_r. reflexivity.
  - destruct (Kube.fund a) as [g |] eqn:E; [| discriminate].
    apply IH in H. rewrite H. cbn [mul move_of_matrices decompo].
    rewrite (fund_decompo _ _ E), <- app_assoc. reflexivity.
Qed.

End BlockFacts.

Import BlockFacts.

(** X27. [make_M] is compatible with the product: for well-formed moves
    the 68x68 matrix of [a * b] is the product of the matrices of [a] and
    of [b]. *)
Theorem M_product (a b : move) :
  wf_move a = true -> wf_move b = true -> M (a * b) = mmul (M a) (M b).
Proof.
  intros Wa Wb. apply wf_move_embed in Wa, Wb.
  destruct Wa as [Ea Wa], Wb as [Eb Wb]. rewrite Ea, Eb.
  rewrite <- embed_cmul by assumption.
  rewrite !M_embed by auto using cwf_cmul.
  rewrite mmul_pm_pm by (try apply bound_cM; try apply length_cM; assumption).
  rewrite pmul_cM by assumption. reflexivity.
Qed.

Lemma M_product_witness :
  wf_move Kube.F = true /\ wf_move Kube.r = true /\
  M (Kube.F * Kube.r) = mmul (M Kube.F) (M Kube.r).
Proof.
  assert (H1 : wf_move Kube.F = true) by (vm_compute; reflexivity).
  assert (H2 : wf_move Kube.r = true) by (vm_compute; reflexivity).
  split; [exact H1 |]. split; [exact H2 |].
  exact (M_product Kube.F Kube.r H1 H2).
Defined.

(** X28. Undoing a list of quarter turns: the list followed by its
    inverse list (reversed, every token with its case swapped, as
    [__pow__] builds it for -1) replays to a move that records exactly
    those tokens and has identity matrices, so the state is the solved
    state. *)
Theorem replay_undo (ts : list token) :
  Forall (fun a => quarter_turn a = true) ts ->
  exists m, Kube.replay (ts ++ inverse_seq ts) (move_of_seq []) = Ok m /\
    decompo m = (ts ++ inverse_seq ts)%list /\
    acts_as_identity m /\
    Kube.move_list_to_state (ts ++ inverse_seq ts) = Ok Kube.X.
Proof.
  intros H. destruct (replay_reachable ts H) as (g & _ & I & R).
  assert (W : cwf g = true) by (apply invb_spec in I; tauto).
  assert (Wm : wf_move (embed g) = true) by (apply wf_move_of_embed; assumption).
  pose proof (round_trip_inv_aux ts (embed g) R) as Ri.
  assert (E : Kube.replay (ts ++ inverse_seq ts) (move_of_seq [])
              = Ok (embed g ** (-1) * embed g)).
  { rewrite replay_app, R. cbn [bind]. apply replay_from; assumption. }
  pose proof (mul_inv_l (embed g) Wm) as Id.
  exists (embed g ** (-1) * embed g). splits.
  - exact E.
  - apply replay_decompo in E. exact E.
  - exact Id.
  - unfold Kube.move_list_to_state. rewrite E. cbn [bind].
    rewrite <- embed_cpow_body, <- embed_cmul in Id |- * by auto using cwf_cpow_body.
    apply embed_acts_as_identity in Id; [| auto using cwf_cmul, cwf_cpow_body].
    destruct Id as (I1 & I2 & I3 & I4).
    rewrite state_embed by auto using cwf_cmul, cwf_cpow_body.
    rewrite cstate_identity by auto using cwf_cmul, cwf_cpow_body.
    rewrite X_col_of. reflexivity.
Qed.

Lemma replay_undo_witness :
  Forall (fun a => quarter_turn a = true) ["F"%string; "r"%string; "U"%string] /\
  exists m,
    Kube.replay (["F"%string; "r"%string; "U"%string]
                 ++ inverse_seq ["F"%string; "r"%string; "U"%string])
      (move_of_seq []) = Ok m /\
    decompo m = (["F"%string; "r"%string; "U"%string]
                 ++ inverse_seq ["F"%string; "r"%string; "U"%string])%list /\
    acts_as_identity m /\
    Kube.move_list_to_state (["F"%string; "r"%string; "U"%string]
                             ++ inverse_seq ["F"%string; "r"%string; "U"%string])
    = Ok Kube.X.
Proof.
  assert (H : Forall (fun a => quarter_turn a = true)
                ["F"%string; "r"%string; "U"%string]) by (repeat constructor).
  split; [exact H | exact (replay_undo _ H)].
Defined.

(** ** The length of the token lists *)

Module LengthFacts.

Local Open Scope nat_scope.

Lemma len_mul a b : len (a * b) = len b + len a.
Proof. unfold len. cbn [mul move_of_matrices decompo]. apply length_app. Qed.

Lemma length_inverse_seq d : length (inverse_seq d) = length d.
Proof. unfold inverse_seq. rewrite length_map, length_rev. reflexivity. Qed.

Lemma len_conjugate A G : len (conjugate A G) = len A + 2 * len G.
Proof.
  unfold conjugate. rewrite !len_mul. unfold len.
  cbn [pow_body Z.eqb Pos.eqb move_of_matrices decompo].
  rewrite length_inverse_seq. lia.
Qed.

Lemma len_square c : len (c ** 2) = 2 * len c.
Proof.
  unfold len.
  change (decompo (c ** 2)) with (([] ++ decompo c) ++ decompo c)%list.
  rewrite length_app. cbn [app]. lia.
Qed.

Lemma extend_len n_combi m prev cur L P :
  len m <= L -> Forall (fun g => len g <= P) prev ->
  extend n_combi m prev = Ok cur -> Forall (fun g => len g <= P + L) cur.
Proof.
  intros Hm. revert cur. induction prev as [| g prev IH]; intros cur Hp H.
  - injection H as <-. constructor.
  - inversion Hp as [| ? ? Hg Hp']; subst. cbn [extend] in H.
    inv_bind H. inv_bind H. injection H as <-.
    apply Forall_app. split; [| apply IH; assumption].
    assert (Hmg : len (m * g) <= P + L) by (rewrite len_mul; lia).
    destruct (n_combi =? 1).
    + injection Ha as <-. constructor; [assumption | constructor].
    + inv_bind Ha. injection Ha as <-.
      destruct a1; [constructor | constructor; [assumption | constructor]].
Qed.

Lemma candidates_len n_combi fact prev cur L P :
  Forall (fun m => len m <= L) fact -> Forall (fun g => len g <= P) prev ->
  candidates n_combi fact prev = Ok cur -> Forall (fun g => len g <= P + L) cur.
Proof.
  intros Hf Hp. revert cur. induction Hf as [| m fact Hm Hf IH]; intros cur H.
  - injection H as <-. constructor.
  - cbn [candidates] in H. inv_bind H. inv_bind H. injection H as <-.
    apply Forall_app. split; [eapply extend_len; eassumption | apply IH; reflexivity || assumption].
Qed.

Lemma search_len accept auth L left : forall n_combi prev P m,
  Forall (fun a => len a <= L) auth -> Forall (fun g => len g <= P) prev ->
  search accept auth left n_combi prev = Ok (Some m) -> len m <= P + L * left.
Proof.
  induction left as [| left IH]; intros n_combi prev P m Ha Hp H;
    cbn [search] in H; [discriminate |].
  inv_bind H. inv_bind H.
  assert (Hc : Forall (fun g => len g <= P + L) a).
  { eapply candidates_len; [| exact Hp | exact Ha0].
    destruct (n_combi =? 1); [constructor; [cbn; lia | assumption] | assumption]. }
  destruct a0 as [m' |].
  - injection H as <-. apply first_accepted_sound in Ha1. destruct Ha1 as [Hin _].
    rewrite Forall_forall in Hc. specialize (Hc _ Hin). nia.
  - apply (IH _ _ (P + L)) in H; [nia | assumption |].
    apply Forall_forall. intros g Hg. apply filter_In in Hg.
    rewrite Forall_forall in Hc. apply Hc. tauto.
Qed.

Lemma search_len_top accept auth L maxMove m :
  Forall (fun a => len a <= L) auth ->
  search accept auth (maxMove + 1 - 1) 1 prev0 = Ok (Some m) -> len m <= L * maxMove.
Proof.
  intros Ha H. apply (search_len _ _ L _ _ _ 0) in H; [| assumption |].
  - replace (maxMove + 1 - 1) with maxMove in H by lia. lia.
  - constructor; [cbn; lia | constructor].
Qed.

(** A loop whose body adds at most [B] to a measure of the state. *)
Lemma for_each_len {St : Type} (size : St -> nat) (J : St -> Prop) (B : nat)
    (body : St -> nat -> res St) l : forall s s',
  J s ->
  (forall i s s1, J s -> body s i = Ok s1 -> J s1 /\ size s1 <= size s + B) ->
  for_each l body s = Ok s' -> size s' <= size s + B * length l.
Proof.
  induction l as [| i l IH]; intros s s' Hs Hb H; cbn [for_each] in H.
  - injection H as <-. lia.
  - inv_bind H. destruct (Hb i s a Hs Ha) as [Ja Sa].
    apply IH in H; [| assumption | assumption]. cbn [length]. nia.
Qed.

Lemma conjugate_found_len A G c L maxMove accept auth :
  Forall (fun a => len a <= L) auth ->
  search accept auth (maxMove + 1 - 1) 1 prev0 = Ok G ->
  conjugate_found A G = Ok c -> len c <= len A + 2 * (L * maxMove).
Proof.
  intros Ha Hs Hc. destruct G as [g |]; [| discriminate]. injection Hc as <-.
  rewrite len_conjugate. apply (search_len_top _ _ L) in Hs; [lia | assumption].
Qed.

Section Phases.

Variable auth : list move.
Variable L : nat.
Hypothesis auth_len : Forall (fun a => len a <= L) auth.

Lemma solve_corner_pos_len Y switcher c1 c2 res :
  solve_corner_pos Y switcher c1 c2 auth = Ok res ->
  len res <= 8 * (len switcher + 2 * (L * 5)).
Proof.
  unfold solve_corner_pos. intros H. inv_bind H. injection H as <-.
  apply (for_each_len (fun st => len (fst st)) (fun _ => True)
           (len switcher + 2 * (L * 5))) in Ha; [| exact I |].
  - cbn [fst len move_of_seq decompo length seq] in Ha. rewrite ?length_seq in Ha. lia.
  - clear Ha a. intros i [res y] s1 _ H. split; [exact I |]. cbn [fst].
    inv_bind H. destruct a.
    + injection H as <-. cbn [fst]. lia.
    + inv_bind H. inv_bind H. inv_bind H. injection H as <-. cbn [fst].
      rewrite len_mul.
      pose proof (conjugate_found_len _ _ _ L 5 _ _ auth_len Ha1 Ha2). lia.
Qed.

Lemma pivot_corner_cubies_len Y flipper c2 res :
  pivot_corner_cubies Y flipper c2 auth = Ok res ->
  len res <= 7 * (2 * (len flipper + 2 * (L * 5))).
Proof.
  unfold pivot_corner_cubies. intros H. inv_bind H. injection H as <-.
  apply (for_each_len (fun st => len (fst st)) (fun _ => True)
           (2 * (len flipper + 2 * (L * 5)))) in Ha; [| exact I |].
  - cbn [fst len move_of_seq decompo length seq] in Ha. rewrite ?length_seq in Ha. lia.
  - clear Ha a. intros i [res y] s1 _ H. split; [exact I |]. cbn [fst].
    inv_bind H. destruct a.
    + inv_bind H. inv_bind H. injection H as <-. cbn [fst]. rewrite len_mul.
      pose proof (conjugate_found_len _ _ _ L 5 _ _ auth_len Ha0 Ha1). lia.
    + inv_bind H. destruct a.
      * inv_bind H. inv_bind H. injection H as <-. cbn [fst].
        rewrite len_mul, len_square.
        pose proof (conjugate_found_len _ _ _ L 5 _ _ auth_len Ha1 Ha2). lia.
      * injection H as <-. cbn [fst]. lia.
Qed.

Lemma try_switchers_len switcher_l c_l i j nm B S : forall k r n,
  Forall (fun s => len s <= S) switcher_l ->
  (forall n, nm = Some n -> len n <= B) ->
  S + 2 * (L * 3) <= B ->
  try_switchers switcher_l c_l k i j auth nm = Ok r -> r = Some n -> len n <= B.
Proof.
  induction c_l as [| [[cb1 cb2] cb3] c_l IH]; intros k r n Hs Hn HB H Hr;
    cbn [try_switchers] in H.
  - injection H as <-. auto.
  - inv_bind H. destruct a as [g |].
    + destruct (nth_error switcher_l k) as [s |] eqn:E; [| discriminate].
      injection H as <-. injection Hr as <-. rewrite len_conjugate.
      apply (search_len_top _ _ L) in Ha; [| exact auth_len].
      apply nth_error_In in E. rewrite Forall_forall in Hs. specialize (Hs _ E). lia.
    + eapply IH; eassumption.
Qed.

Lemma solve_edge_pos_len Y switcher_l c_l S res :
  Forall (fun s => len s <= S) switcher_l ->
  solve_edge_pos Y switcher_l c_l auth = Ok res ->
  len res <= 10 * (S + 2 * (L * 3)).
Proof.
  intros Hs. unfold solve_edge_pos. intros H. inv_bind H. injection H as <-.
  apply (for_each_len (fun st => len (fst (fst st)))
           (fun st => forall n, snd st = Some n -> len n <= S + 2 * (L * 3))
           (S + 2 * (L * 3))) in Ha.
  - cbn [fst len move_of_seq decompo length seq] in Ha. rewrite ?length_seq in Ha. lia.
  - cbn [snd]. discriminate.
  - clear Ha a. intros i [[res y] nm] s1 J H. cbn [fst snd] in *.
    inv_bind H. destruct a.
    + injection H as <-. cbn [fst snd]. split; [assumption | lia].
    + inv_bind H. inv_bind H. destruct a0 as [n |]; [| discriminate].
      injection H as <-. cbn [fst snd].
      assert (Hn : len n <= S + 2 * (L * 3)).
      { eapply try_switchers_len; [exact Hs | exact J | | exact Ha1 | reflexivity]. lia. }
      split.
      * intros n' E. injection E as <-. assumption.
      * rewrite len_mul. lia.
Qed.

Lemma pivot_edge_cubies_len Y flipper c2 res :
  pivot_edge_cubies Y flipper c2 auth = Ok res ->
  len res <= 11 * (len flipper + 2 * (L * 3)).
Proof.
  unfold pivot_edge_cubies. intros H. inv_bind H. injection H as <-.
  apply (for_each_len (fun st => len (fst st)) (fun _ => True)
           (len flipper + 2 * (L * 3))) in Ha; [| exact I |].
  - cbn [fst len move_of_seq decompo length seq] in Ha. rewrite ?length_seq in Ha. lia.
  - clear Ha a. intros i [res y] s1 _ H. split; [exact I |]. cbn [fst].
    inv_bind H. destruct a.
    + injection H as <-. cbn [fst]. lia.
    + inv_bind H. inv_bind H. injection H as <-. cbn [fst]. rewrite len_mul.
      pose proof (conjugate_found_len _ _ _ L 3 _ _ auth_len Ha0 Ha1). lia.
Qed.

End Phases.

Lemma fund_l_len : Forall (fun a => len a <= 2) Kube.fund_l.
Proof.
  apply Forall_forall. intros a Ha. apply Nat.leb_le. revert a Ha.
  apply forallb_forall. vm_compute. reflexivity.
Qed.

End LengthFacts.

Import LengthFacts.

(** X29. On the state of a scramble ([move_list_to_state] returns it for
    the scrambles over the twelve quarter-turn symbols, and only for them),
    a token list returned by [solve] has at most 1280 tokens: each phase
    applies at most one conjugate per slot, and a conjugate holds the
    tokens of its switcher or flipper and twice those of a connecting move
    of at most [maxMove] authorized moves of at most two tokens.  On the
    scramble F u R the list has 457 tokens. *)
Theorem solve_length_bound (scramble : list token) (st : matrix) (sol : list token) :
  Kube.move_list_to_state scramble = Ok st ->
  Kube.solve st = Ok sol -> (length sol <= 1280)%nat.
Proof.
  intros _. unfold Kube.solve. intros H.
  inv_bind H. inv_bind H. inv_bind H. inv_bind H. injection H as <-.
  apply (solve_corner_pos_len _ 2 fund_l_len) in Ha.
  apply (pivot_corner_cubies_len _ 2 fund_l_len) in Ha0.
  apply (solve_edge_pos_len _ 2 fund_l_len _ _ _ 8) in Ha1;
    [| repeat constructor; vm_compute; lia].
  apply (pivot_edge_cubies_len _ 2 fund_l_len) in Ha2.
  rewrite !length_app. fold (len a) (len a0) (len a1) (len a2).
  change (len Kube.M0) with 15%nat in Ha.
  change (len Kube.M1) with 12%nat in Ha0.
  change (len Kube.M31) with 20%nat in Ha2.
  lia.
Qed.

Lemma solve_length_bound_witness :
  exists st sol,
    Kube.move_list_to_state ["F"%string; "u"%string; "R"%string] = Ok st /\
    Kube.solve st = Ok sol /\
    length sol = 457%nat /\ (length sol <= 1280)%nat.
Proof.
  pose (scramble := ["F"%string; "u"%string; "R"%string]).
  let l := eval vm_compute in
    (match creplay scramble (cone []) with Ok g => cstate g | Err _ => [] end) in
  pose (l0 := l).
  let s := eval vm_compute in
    (match csolve l0 with Ok s => s | Err _ => [] end) in
  pose (sol := s).
  assert (H1 : Kube.move_list_to_state scramble = Ok (col_of l0))
    by (vm_compute; reflexivity).
  assert (H2 : Kube.solve (col_of l0) = Ok sol)
    by (rewrite solve_embed by reflexivity; vm_compute; reflexivity).
  exists (col_of l0), sol. split; [exact H1 |]. split; [exact H2 |].
  split; [reflexivity |]. exact (solve_length_bound scramble _ _ H1 H2).
Defined.

(** X30. A move returned by a connector search called with its defaults
    ([n_combi = 1], [prev = [move(seq = [])]]) has at most [L * maxMove]
    tokens when no authorized move has more than [L] tokens.  ([search] is
    the loop that [send_8], [send_8_slow], [send_12] and [send_12_slow]
    share.) *)
Theorem search_result_length (accept : move -> res bool) (auth : list move)
    (L maxMove : nat) (m : move) :
  Forall (fun a => (len a <= L)%nat) auth ->
  search accept auth (maxMove + 1 - 1) 1 prev0 = Ok (Some m) ->
  (len m <= L * maxMove)%nat.
Proof. apply search_len_top. Qed.

Lemma search_result_length_witness :
  Forall (fun a => (len a <= 1)%nat) [Kube.D] /\
  send_12_slow 0 4 4 8 [Kube.D] 3 1 prev0 = Ok (Some (Kube.D * move_of_seq [])) /\
  (len (Kube.D * move_of_seq []) <= 1 * 3)%nat.
Proof.
  assert (H1 : Forall (fun a => (len a <= 1)%nat) [Kube.D]).
  { constructor; [vm_compute; lia | constructor]. }
  assert (H2 : send_12_slow 0 4 4 8 [Kube.D] 3 1 prev0
               = Ok (Some (Kube.D * move_of_seq []))) by (vm_compute; reflexivity).
  split; [exact H1 |]. split; [exact H2 |].
  exact (search_result_length (accept_12_slow 0 4 4 8) [Kube.D] 1 3 _ H1 H2).
Defined.
